(** * Editor: the console panel and the mesh asset handler

    A shallow embedding of
      - [src/renderer/editor/components/console.tsx] (module [Console]) and
      - [src/renderer/editor/components/assets-browser/files/handlers/mesh.tsx]
        (module [MeshItemHandler]),
    followed by the properties established about them.

    JavaScript objects are mutable and shared, so they live in stores
    indexed by references; [null] and [undefined] are [None], and a
    truthiness test is a boolean.  Synchronous code is state passing
    over the stores; an [async] function is a resumption that stops at
    every [await], and a call whose promise is dropped is forked.
    Libraries, the language's built-ins and the engine ([filenamify],
    Node's [path], [String.prototype.trim], the serializer, the scene
    loader, the writer of texture files, [Tools.RandomId]) are
    parameters. *)

From stdpp Require Import gmap strings list.
From Equations Require Import Equations.

Open Scope string_scope.
Open Scope nat_scope.
Open Scope list_scope.

(* ===================================================================== *)
(** * console.tsx *)
(* ===================================================================== *)

Module Console.

Inductive ConsoleLogType : Type :=
| Info      (* Just for information. *)
| Warning   (* Shows a warning. *)
| Error     (* Shows an error. *)
| Raw.      (* Just adds a message in its raw form. *)

Inductive ConsoleLayer : Type :=
| Common    (* the layer containing all common logs *)
| WebPack.  (* the layer containing all the webpack logs *)

Global Instance ConsoleLayer_eq_dec : EqDecision ConsoleLayer.
Proof. solve_decision. Defined.

Record IConsoleLog : Type := mkLog {
  type : ConsoleLogType;
  message : string;
  layer : option ConsoleLayer;   (* [layer?: ConsoleLayer] *)
}.

(** What an xterm [Terminal] has been asked to print, oldest first. *)
Inductive TerminalOp : Type :=
| writeln (data : string)
| write (data : string).

Definition Terminal : Type := list TerminalOp.

(** Calls received by the global [console] object, oldest first. *)
Inductive StdOp : Type :=
| console_info (m : string)
| console_warn (m : string)
| console_error (m : string)
| console_log (m : string).

(** The fields of the component read or written by the logging code,
    together with the standard output stream. *)
Record State : Type := mkState {
  _terminalCommon : option Terminal;
  _terminalWebPack : option Terminal;
  _terminalCommonDiv : bool;     (* has the ref been set by [render]? *)
  _terminalWebPackDiv : bool;
  stdout : list StdOp;
}.

Definition set_terminalCommon (t : option Terminal) (st : State) : State :=
  mkState t (_terminalWebPack st) (_terminalCommonDiv st)
          (_terminalWebPackDiv st) (stdout st).

Definition set_terminalWebPack (t : option Terminal) (st : State) : State :=
  mkState (_terminalCommon st) t (_terminalCommonDiv st)
          (_terminalWebPackDiv st) (stdout st).

Definition emit (o : StdOp) (st : State) : State :=
  mkState (_terminalCommon st) (_terminalWebPack st) (_terminalCommonDiv st)
          (_terminalWebPackDiv st) (stdout st ++ [o]).

(** The language's own [String.prototype.trim]: what it removes
    depends on the white space of Unicode and on how a string is
    encoded, so it is a parameter. *)
Class JsString : Type := {
  trim : string → string;
}.

(** The state right after the constructor: no terminal exists yet. *)
Definition constructor : State := mkState None None false false [].

Definition render (st : State) : State :=
  mkState (_terminalCommon st) (_terminalWebPack st) true true (stdout st).

Definition getTerminalByType (st : State) (ty : ConsoleLayer) : option Terminal :=
  match ty with
  | Common => _terminalCommon st
  | WebPack => _terminalWebPack st
  end.

(** [(log.layer ?? ConsoleLayer.Common) === ConsoleLayer.Common] *)
Definition targetsCommon (l : option ConsoleLayer) : bool :=
  bool_decide (default Common l = Common).

(** The terminal [_addLog] selects for a layer argument. *)
Definition selected (st : State) (l : option ConsoleLayer) : option Terminal :=
  if targetsCommon l then _terminalCommon st else _terminalWebPack st.

(** Writes the updated terminal back to the field it was taken from. *)
Definition set_selected (l : option ConsoleLayer) (t : Terminal) (st : State) : State :=
  if targetsCommon l then set_terminalCommon (Some t) st
  else set_terminalWebPack (Some t) st.

Section Logging.
Context `{JsString}.

Definition _addLog (log : IConsoleLog) (st : State) : State :=
  match selected st (layer log) with
  | None => st                                     (* if (!terminal) { return; } *)
  | Some terminal =>
      match type log with
      | Info =>
          emit (console_info (message log))
            (set_selected (layer log) (terminal ++ [writeln ("[INFO]: " +:+ message log)]) st)
      | Warning =>
          emit (console_warn (message log))
            (set_selected (layer log) (terminal ++ [writeln ("[WARN]: " +:+ message log)]) st)
      | Error =>
          emit (console_error (message log))
            (set_selected (layer log) (terminal ++ [writeln ("[ERROR]: " +:+ message log)]) st)
      | Raw =>
          emit (console_log (trim (message log)))
            (set_selected (layer log) (terminal ++ [write (message log)]) st)
      end
  end.

Definition logInfo (message : string) (layer : option ConsoleLayer) : State → State :=
  _addLog (mkLog Info message layer).

Definition logWarning (message : string) (layer : option ConsoleLayer) : State → State :=
  _addLog (mkLog Warning message layer).

Definition logError (message : string) (layer : option ConsoleLayer) : State → State :=
  _addLog (mkLog Error message layer).

Definition logRaw (message : string) (layer : option ConsoleLayer) : State → State :=
  _addLog (mkLog Raw message layer).

(** [_createTerminal] returns a fresh terminal, nothing printed yet. *)
Definition _createTerminal : Terminal := [].

Definition componentDidMount (st : State) : State :=
  if negb (_terminalCommonDiv st) || negb (_terminalWebPackDiv st) then st
  else
    let st := set_terminalWebPack (Some _createTerminal) st in
    let st := set_terminalCommon (Some _createTerminal) st in
    let st := logInfo "Console ready." (Some Common) st in
    logInfo "Console ready." (Some WebPack) st.

(** The console once rendered and mounted. *)
Definition mounted : State := componentDidMount (render constructor).

End Logging.

(** Blueprint's [TabId]: a string or a number. *)
Inductive TabId : Type :=
| tab_string (s : string)
| tab_number (n : Z).

Global Instance TabId_eq_dec : EqDecision TabId.
Proof. solve_decision. Defined.

(** xterm's own [Terminal.clear], as it acts on what the terminal has
    been asked to print. *)
Class Xterm : Type := {
  Terminal_clear : Terminal → Terminal;
}.

(** [clear] *)
Definition clear `{Xterm} (tabId : TabId) (st : State) : State :=
  if bool_decide (tabId = tab_string "common") then
    set_terminalCommon (Terminal_clear <$> _terminalCommon st) st
  else if bool_decide (tabId = tab_string "webpack") then
    set_terminalWebPack (Terminal_clear <$> _terminalWebPack st) st
  else st.

(** The engine's [Logger]: its three static functions, as far as they
    act on the console and on the standard output. *)
Record Logger : Type := mkLogger {
  Logger_Log : string → State → State;
  Logger_Warn : string → State → State;
  Logger_Error : string → State → State;
}.

(** [overrideLogger] *)
Definition overrideLogger `{JsString} (logger : Logger) : Logger :=
  let log := Logger_Log logger in
  let warn := Logger_Warn logger in
  let error := Logger_Error logger in
  mkLogger (λ m st, logInfo m None (log m st))
           (λ m st, logWarning m None (warn m st))
           (λ m st, logError m None (error m st)).

End Console.

(* ===================================================================== *)
(** * assets-browser/files/handlers/mesh.tsx *)
(* ===================================================================== *)

Module MeshItemHandler.

(** ** Values owned by the engine

    What the handler never inspects stays abstract: the numbers held
    by vectors and matrices, the content of every field it does not
    name, and the output of the engine's serializer. *)
Class Values : Type := {
  num : Type;
  num_add : num → num → num;
  Other : Type;
  Json : Type;
}.

Section Model.
Context `{Values}.

(** Objects are named by their position in the store of their class. *)
Abbreviation ref := nat.

Record Vector3 : Type := mkVector3 { x : num; y : num; z : num }.

Definition addInPlace (v otherVector : Vector3) : Vector3 :=
  mkVector3 (num_add (x v) (x otherVector))
            (num_add (y v) (y otherVector))
            (num_add (z v) (z otherVector)).

Record PickingInfo : Type := mkPick { pickedPoint : option Vector3 }.

(** [pick?.pickedPoint] *)
Definition picked (pick : option PickingInfo) : option Vector3 :=
  p ← pick; pickedPoint p.

(** The value stored under [metadata.originalSourceFile]. *)
Record SourceFile : Type := mkSourceFile {
  sf_id : option string;
  sf_name : option string;
  sceneFileName : string;
}.

(** A [metadata] object: the keys this handler reads or writes, and
    the other keys it may carry. *)
Record Metadata : Type := mkMetadata {
  editorDone : bool;                       (* truthiness of the key *)
  editorPath : option string;
  originalSourceFile : option SourceFile;
  basePoseMatrix : option (list num);
  originalId : option string;
  md_other : gmap string Other;
}.

(** The object literal [{}]. *)
Definition emptyMetadata : Metadata :=
  mkMetadata false None None None None ∅.

(** [o.metadata ??= {}] followed by a write through [o.metadata]. *)
Definition orEmpty (md : option Metadata) : Metadata := default emptyMetadata md.

Definition set_editorDone (b : bool) (md : Metadata) : Metadata :=
  mkMetadata b (editorPath md) (originalSourceFile md) (basePoseMatrix md)
             (originalId md) (md_other md).
Definition set_editorPath (p : string) (md : Metadata) : Metadata :=
  mkMetadata (editorDone md) (Some p) (originalSourceFile md) (basePoseMatrix md)
             (originalId md) (md_other md).
Definition set_originalSourceFile (s : SourceFile) (md : Metadata) : Metadata :=
  mkMetadata (editorDone md) (editorPath md) (Some s) (basePoseMatrix md)
             (originalId md) (md_other md).
Definition set_basePoseMatrix (a : list num) (md : Metadata) : Metadata :=
  mkMetadata (editorDone md) (editorPath md) (originalSourceFile md) (Some a)
             (originalId md) (md_other md).
Definition set_originalId (i : string) (md : Metadata) : Metadata :=
  mkMetadata (editorDone md) (editorPath md) (originalSourceFile md)
             (basePoseMatrix md) (Some i) (md_other md).

(** [o.metadata?.editorDone] *)
Definition isDone (md : option Metadata) : bool :=
  match md with Some m => editorDone m | None => false end.

(** Truthiness of a nullable string: [null], [undefined] and the
    empty string are falsy. *)
Definition truthy (s : option string) : bool :=
  match s with Some s => negb (bool_decide (s = EmptyString)) | None => false end.

Record Texture : Type := mkTexture {
  tex_name : string;
  tex_url : option string;
  tex_metadata : option Metadata;
  isRenderTarget : bool;
  isTextureOrCube : bool;     (* t instanceof Texture || t instanceof CubeTexture *)
  _mimeType : option string;
  tex_other : Other;
}.

Record Material : Type := mkMaterial {
  mat_name : option string;
  mat_id : option string;
  mat_metadata : option Metadata;
  isMultiMaterial : bool;                 (* material instanceof MultiMaterial *)
  subMaterials : list (option ref);       (* Nullable<Material>[] *)
  activeTextures : list ref;              (* material.getActiveTextures() *)
  mat_other : Other;
}.

Record Geometry : Type := mkGeometry {
  geo_id : string;
  geo_other : Other;
}.

Record AbstractMesh : Type := mkMesh {
  mesh_id : string;
  mesh_name : string;
  mesh_metadata : option Metadata;
  mesh_position : Vector3;
  mesh_parent : option ref;
  mesh_material : option ref;
  isMesh : bool;                          (* m instanceof Mesh *)
  geometry : option ref;
  mesh_other : Other;
}.

Record TransformNode : Type := mkTransformNode {
  tn_id : string;
  tn_position : Vector3;
  tn_parent : option ref;
  tn_other : Other;
}.

Record Bone : Type := mkBone {
  bone_id : string;
  bone_metadata : option Metadata;
  bone_other : Other;
}.

(** Skeleton ids are [any]: the handler assigns numbers, loaders may
    have left strings. *)
Inductive SkeletonId : Type :=
| NumberId (n : Z)
| StringId (s : string).

Record Skeleton : Type := mkSkeleton {
  skel_id : SkeletonId;
  skel_bones : list ref;                  (* s.bones *)
  skel_other : Other;
}.

Record IParticleSystem : Type := mkParticleSystem {
  ps_id : string;
  ps_other : Other;
}.

(** What [computePreview] renders. *)
#[warnings="-register-all"]
Inductive ReactNode : Type :=
| div (children : list ReactNode)
| Icon (src : string)
| Spinner (size : nat)
| img (src : string).

(** Synchronous calls made to collaborators whose effect lies
    outside this file. *)
Inductive Call : Type :=
| stopAllAnimations
| graph_refresh
| assets_refresh
| addWindowedPlugin (pluginName rootUrl name : string)
| setData (format data : string).

(** ** The store *)
Record Heap : Type := mkHeap {
  meshes : list AbstractMesh;
  transformNodes : list TransformNode;
  skeletons : list Skeleton;
  bones : list Bone;
  particleSystems : list IParticleSystem;
  materials : list Material;
  textures : list Texture;
  geometries : list Geometry;
  scene_skeletons : list ref;   (* scene.skeletons *)
  randomIds : nat;   (* how often Tools.RandomId has run *)
  previewImage : option ReactNode;   (* this.state.previewImage *)
  calls : list Call;   (* oldest first *)
}.

(** The result of [SceneLoader.ImportMeshAsync]. *)
Record ImportResult : Type := mkImportResult {
  res_meshes : list ref;
  res_particleSystems : list ref;
  res_skeletons : list ref;
  res_transformNodes : list ref;
}.

(** [this.props] *)
Record Props : Type := mkProps {
  absolutePath : string;
  relativePath : string;
}.

(** ** Synchronous code: state passing over the store *)
Definition M (X : Type) : Type := Heap → Heap * X.

#[global] Instance M_ret : MRet M := λ X x h, (h, x).
#[global] Instance M_bind : MBind M :=
  λ X Y f m h, let '(h', x) := m h in f x h'.

(** [array.forEach(body)], in any of the two monads of this file. *)
Fixpoint forEach {F : Type → Type} `{!MRet F, !MBind F} {X}
    (l : list X) (body : X → F unit) : F unit :=
  match l with
  | [] => mret tt
  | x :: l' => body x;; forEach l' body
  end.

Definition set_meshes (v : list AbstractMesh) (h : Heap) : Heap :=
  mkHeap v (transformNodes h) (skeletons h) (bones h) (particleSystems h)
         (materials h) (textures h) (geometries h) (scene_skeletons h)
         (randomIds h) (previewImage h) (calls h).
Definition set_transformNodes (v : list TransformNode) (h : Heap) : Heap :=
  mkHeap (meshes h) v (skeletons h) (bones h) (particleSystems h)
         (materials h) (textures h) (geometries h) (scene_skeletons h)
         (randomIds h) (previewImage h) (calls h).
Definition set_skeletons (v : list Skeleton) (h : Heap) : Heap :=
  mkHeap (meshes h) (transformNodes h) v (bones h) (particleSystems h)
         (materials h) (textures h) (geometries h) (scene_skeletons h)
         (randomIds h) (previewImage h) (calls h).
Definition set_bones (v : list Bone) (h : Heap) : Heap :=
  mkHeap (meshes h) (transformNodes h) (skeletons h) v (particleSystems h)
         (materials h) (textures h) (geometries h) (scene_skeletons h)
         (randomIds h) (previewImage h) (calls h).
Definition set_particleSystems (v : list IParticleSystem) (h : Heap) : Heap :=
  mkHeap (meshes h) (transformNodes h) (skeletons h) (bones h) v
         (materials h) (textures h) (geometries h) (scene_skeletons h)
         (randomIds h) (previewImage h) (calls h).
Definition set_materials (v : list Material) (h : Heap) : Heap :=
  mkHeap (meshes h) (transformNodes h) (skeletons h) (bones h)
         (particleSystems h) v (textures h) (geometries h)
         (scene_skeletons h) (randomIds h) (previewImage h) (calls h).
Definition set_textures (v : list Texture) (h : Heap) : Heap :=
  mkHeap (meshes h) (transformNodes h) (skeletons h) (bones h)
         (particleSystems h) (materials h) v (geometries h)
         (scene_skeletons h) (randomIds h) (previewImage h) (calls h).
Definition set_geometries (v : list Geometry) (h : Heap) : Heap :=
  mkHeap (meshes h) (transformNodes h) (skeletons h) (bones h)
         (particleSystems h) (materials h) (textures h) v
         (scene_skeletons h) (randomIds h) (previewImage h) (calls h).
Definition set_scene_skeletons (v : list ref) (h : Heap) : Heap :=
  mkHeap (meshes h) (transformNodes h) (skeletons h) (bones h)
         (particleSystems h) (materials h) (textures h) (geometries h) v
         (randomIds h) (previewImage h) (calls h).
Definition set_randomIds (v : nat) (h : Heap) : Heap :=
  mkHeap (meshes h) (transformNodes h) (skeletons h) (bones h)
         (particleSystems h) (materials h) (textures h) (geometries h)
         (scene_skeletons h) v (previewImage h) (calls h).
Definition set_previewImage (v : option ReactNode) (h : Heap) : Heap :=
  mkHeap (meshes h) (transformNodes h) (skeletons h) (bones h)
         (particleSystems h) (materials h) (textures h) (geometries h)
         (scene_skeletons h) (randomIds h) v (calls h).
Definition set_calls (v : list Call) (h : Heap) : Heap :=
  mkHeap (meshes h) (transformNodes h) (skeletons h) (bones h)
         (particleSystems h) (materials h) (textures h) (geometries h)
         (scene_skeletons h) (randomIds h) (previewImage h) v.

(** In-place updates of the object behind a reference.  A reference
    that names no object is left alone: the code never holds one. *)
Definition modifyMesh (r : ref) (f : AbstractMesh → AbstractMesh) : M unit :=
  λ h, (set_meshes (alter f r (meshes h)) h, tt).
Definition modifyTransformNode (r : ref) (f : TransformNode → TransformNode) : M unit :=
  λ h, (set_transformNodes (alter f r (transformNodes h)) h, tt).
Definition modifySkeleton (r : ref) (f : Skeleton → Skeleton) : M unit :=
  λ h, (set_skeletons (alter f r (skeletons h)) h, tt).
Definition modifyBone (r : ref) (f : Bone → Bone) : M unit :=
  λ h, (set_bones (alter f r (bones h)) h, tt).
Definition modifyParticleSystem (r : ref) (f : IParticleSystem → IParticleSystem) : M unit :=
  λ h, (set_particleSystems (alter f r (particleSystems h)) h, tt).
Definition modifyMaterial (r : ref) (f : Material → Material) : M unit :=
  λ h, (set_materials (alter f r (materials h)) h, tt).
Definition modifyTexture (r : ref) (f : Texture → Texture) : M unit :=
  λ h, (set_textures (alter f r (textures h)) h, tt).
Definition modifyGeometry (r : ref) (f : Geometry → Geometry) : M unit :=
  λ h, (set_geometries (alter f r (geometries h)) h, tt).

Definition readMesh (r : ref) : M (option AbstractMesh) := λ h, (h, meshes h !! r).
Definition readMaterial (r : ref) : M (option Material) := λ h, (h, materials h !! r).

Definition call (c : Call) : M unit := λ h, (set_calls (calls h ++ [c]) h, tt).

Definition setState_previewImage (n : ReactNode) : M unit :=
  λ h, (set_previewImage (Some n) h, tt).

(** Field assignments. *)
Definition set_tex_name (v : string) (t : Texture) : Texture :=
  mkTexture v (tex_url t) (tex_metadata t) (isRenderTarget t)
            (isTextureOrCube t) (_mimeType t) (tex_other t).
Definition set_tex_url (v : option string) (t : Texture) : Texture :=
  mkTexture (tex_name t) v (tex_metadata t) (isRenderTarget t)
            (isTextureOrCube t) (_mimeType t) (tex_other t).
Definition set_tex_metadata (v : option Metadata) (t : Texture) : Texture :=
  mkTexture (tex_name t) (tex_url t) v (isRenderTarget t)
            (isTextureOrCube t) (_mimeType t) (tex_other t).

Definition set_mat_id (v : option string) (m : Material) : Material :=
  mkMaterial (mat_name m) v (mat_metadata m) (isMultiMaterial m)
             (subMaterials m) (activeTextures m) (mat_other m).
Definition set_mat_metadata (v : option Metadata) (m : Material) : Material :=
  mkMaterial (mat_name m) (mat_id m) v (isMultiMaterial m)
             (subMaterials m) (activeTextures m) (mat_other m).

Definition set_geo_id (v : string) (g : Geometry) : Geometry :=
  mkGeometry v (geo_other g).

Definition set_mesh_id (v : string) (m : AbstractMesh) : AbstractMesh :=
  mkMesh v (mesh_name m) (mesh_metadata m) (mesh_position m) (mesh_parent m)
         (mesh_material m) (isMesh m) (geometry m) (mesh_other m).
Definition set_mesh_metadata (v : option Metadata) (m : AbstractMesh) : AbstractMesh :=
  mkMesh (mesh_id m) (mesh_name m) v (mesh_position m) (mesh_parent m)
         (mesh_material m) (isMesh m) (geometry m) (mesh_other m).
Definition set_mesh_position (v : Vector3) (m : AbstractMesh) : AbstractMesh :=
  mkMesh (mesh_id m) (mesh_name m) (mesh_metadata m) v (mesh_parent m)
         (mesh_material m) (isMesh m) (geometry m) (mesh_other m).

Definition set_tn_id (v : string) (n : TransformNode) : TransformNode :=
  mkTransformNode v (tn_position n) (tn_parent n) (tn_other n).
Definition set_tn_position (v : Vector3) (n : TransformNode) : TransformNode :=
  mkTransformNode (tn_id n) v (tn_parent n) (tn_other n).

Definition set_bone_id (v : string) (b : Bone) : Bone :=
  mkBone v (bone_metadata b) (bone_other b).
Definition set_bone_metadata (v : option Metadata) (b : Bone) : Bone :=
  mkBone (bone_id b) v (bone_other b).

Definition set_skel_id (v : SkeletonId) (s : Skeleton) : Skeleton :=
  mkSkeleton v (skel_bones s) (skel_other s).

Definition set_ps_id (v : string) (ps : IParticleSystem) : IParticleSystem :=
  mkParticleSystem v (ps_other ps).

(** A file of the disk: one written by [writeJSON], or any other. *)
Inductive File : Type :=
| JsonFile (object : Json) (spaces encoding : string)
| OtherFile (content : Other).

(** ** Collaborators

    Libraries and engine methods the handler calls: [filenamify],
    Node's [path], [String.prototype.toLowerCase], the editor's
    [Tools], the engine's serializer and scene loader, the writer of
    texture files, and the preview worker.  [randomId n] is what the
    [n]-th call of [Tools.RandomId] returns, and
    [TexturesToFiles_disk path textures h d] the disk that
    [GLTFTools.TexturesToFiles(path, textures)] makes of the disk [d]
    when the scene is [h]. *)
Class Externals : Type := {
  filenamify : string → string;
  join : string → string → string;
  dirname : string → string;
  basename : string → string;
  extname : string → string;
  toLowerCase : string → string;
  randomId : nat → string;
  GetExtensionFromMimeType : string → string;
  serialize : Heap → ref → Json;               (* material.serialize() *)
  getPoseMatrix : Heap → ref → list num;       (* m.getPoseMatrix().asArray() *)
  ImportMesh : string → string → string → Heap → Heap * ImportResult;
  ExecuteFunction_result : string → string → string;
  TexturesToFiles_disk :
    string → list ref → Heap → gmap string File → gmap string File;
}.

Context `{Externals}.

Definition RandomId : M string :=
  λ h, (set_randomIds (S (randomIds h)) h, randomId (randomIds h)).

(** ** Asynchronous code

    The operations the handler awaits. *)
Inductive IO : Type → Type :=
| pathExists (path : string) : IO bool
| writeJSON (file : string) (object : Json) (spaces encoding : string) : IO unit
| TexturesToFiles (path : string) (textures : list ref) : IO unit
| assetsBrowser_refresh : IO unit
| ExecuteFunction (functionName arg : string) : IO string
| ImportMeshAsync (meshNames rootUrl sceneFilename : string) : IO ImportResult.

(** An [async] function: synchronous stretches ([Sync]) separated
    by [await]s ([Await]); [Fork child k] calls the async function
    [child] without awaiting its promise and goes on with [k]. *)
Inductive Prog (A : Type) : Type :=
| Ret (a : A)
| Sync {X : Type} (m : M X) (k : X → Prog A)
| Await {X : Type} (io : IO X) (k : X → Prog A)
| Fork (child : Prog unit) (k : Prog A).
Arguments Ret {A} a.
Arguments Sync {A X} m k.
Arguments Await {A X} io k.
Arguments Fork {A} child k.

Fixpoint bind {A B} (p : Prog A) (f : A → Prog B) : Prog B :=
  match p with
  | Ret a => f a
  | Sync m k => Sync m (λ x, bind (k x) f)
  | Await io k => Await io (λ x, bind (k x) f)
  | Fork child k => Fork child (bind k f)
  end.

#[global] Instance Prog_ret : MRet Prog := @Ret.
#[global] Instance Prog_bind : MBind Prog := λ A B f p, bind p f.

Definition sync {X} (m : M X) : Prog X := Sync m Ret.
Definition await {X} (io : IO X) : Prog X := Await io Ret.
Definition fork (child : Prog unit) : Prog unit := Fork child (Ret tt).

(** ** Running asynchronous code

    A call of an async function runs synchronously up to its first
    [await].  [start p h] does that: it returns the store reached,
    whether [p] has returned or what it is waiting for, and the
    calls [p] made without awaiting them that are themselves
    waiting, in the order in which they began to wait. *)
Inductive Outcome (A : Type) : Type :=
| Returned (a : A)
| Waiting {X : Type} (io : IO X) (k : X → Prog A).
Arguments Returned {A} a.
Arguments Waiting {A X} io k.

(** A suspended call whose promise nobody in this file awaits. *)
Definition Task : Type := Outcome unit.

Definition pending (o : Outcome unit) : list Task :=
  match o with
  | Returned _ => []
  | Waiting _ _ => [o]
  end.

Fixpoint start {A} (p : Prog A) (h : Heap) : Heap * Outcome A * list Task :=
  match p with
  | Ret a => (h, Returned a, [])
  | Sync m k => let '(h', x) := m h in start (k x) h'
  | Await io k => (h, Waiting io k, [])
  | Fork child k =>
      let '(h1, o1, ts1) := start child h in
      let '(h2, o2, ts2) := start k h1 in
      (h2, o2, ts1 ++ pending o1 ++ ts2)
  end.

(** The store and the disk. *)
Record World : Type := mkWorld {
  heap : Heap;
  disk : gmap string File;
}.

(** How the environment answers an awaited operation.
    [assetsBrowser.refresh] acts on the user interface, which is not
    represented.

    Modelled from the spec: [GLTFTools.TexturesToFiles] is not under
    src/.  The spec leaves the extraction of the textures of a glTF
    asset to code outside the handler, and the handler calls it to
    write the files of the textures into the directory of the asset:
    the disk it leaves is the parameter [TexturesToFiles_disk], and it
    is taken to leave the objects of the scene as they are. *)
Definition answer {X} (io : IO X) (w : World) : World * X :=
  match io in IO X return World * X with
  | pathExists path => (w, bool_decide (is_Some (disk w !! path)))
  | writeJSON file object spaces encoding =>
      (mkWorld (heap w) (<[file := JsonFile object spaces encoding]> (disk w)), tt)
  | TexturesToFiles path textures =>
      (mkWorld (heap w) (TexturesToFiles_disk path textures (heap w) (disk w)), tt)
  | assetsBrowser_refresh => (w, tt)
  | ExecuteFunction functionName arg => (w, ExecuteFunction_result functionName arg)
  | ImportMeshAsync meshNames rootUrl sceneFilename =>
      let '(h, result) := ImportMesh meshNames rootUrl sceneFilename (heap w) in
      (mkWorld h (disk w), result)
  end.

(** The event loop: some waiting task gets its answer and runs up to
    its next [await]. *)
Record Config : Type := mkConfig {
  world : World;
  tasks : list Task;
}.

Inductive step : Config → Config → Prop :=
| step_resume w ts1 ts2 X (io : IO X) (k : X → Prog unit) w' x h' o ts :
    answer io w = (w', x) →
    start (k x) (heap w') = (h', o, ts) →
    step (mkConfig w (ts1 ++ Waiting io k :: ts2))
         (mkConfig (mkWorld h' (disk w')) (ts1 ++ ts2 ++ ts ++ pending o)).

(** The handler launches [p]. *)
Definition launch (p : Prog unit) (w : World) : Config :=
  let '(h, o, ts) := start p (heap w) in
  mkConfig (mkWorld h (disk w)) (ts ++ pending o).

(** One schedule among all: the task that has waited longest resumes
    first, [n] times or until no task waits. *)
Definition resumeFirst (c : Config) : option Config :=
  match tasks c with
  | Waiting io k :: ts =>
      let '(w', x) := answer io (world c) in
      let '(h', o, new) := start (k x) (heap w') in
      Some (mkConfig (mkWorld h' (disk w')) (ts ++ new ++ pending o))
  | _ => None
  end.

Fixpoint run (n : nat) (c : Config) : Config :=
  match n with
  | 0 => c
  | S n => match resumeFirst c with
           | Some c' => run n c'
           | None => c
           end
  end.

(** [exec p w] is the world in which the call [p] returns, and what
    it returns, when every operation [p] awaits is answered at once.
    The calls [p] makes without awaiting them have then run up to
    their first [await] and no further, as they would have. *)
Fixpoint exec {A} (p : Prog A) (w : World) : World * A :=
  match p with
  | Ret a => (w, a)
  | Sync m k => let '(h, x) := m (heap w) in exec (k x) (mkWorld h (disk w))
  | Await io k => let '(w', x) := answer io w in exec (k x) w'
  | Fork child k =>
      let '(h, _, _) := start child (heap w) in exec k (mkWorld h (disk w))
  end.

(** ** The handler *)
Section Handler.
Variable props : Props.

(** The tab character, the [spaces] option of [writeJSON]. *)
Definition tab : string := String (Ascii.ascii_of_nat 9) EmptyString.

(** Modelled from the spec: [Tools.GetMaterialMetadata] is not under
    src/.  The spec says the handler reassigns the [metadata] fields
    of the engine's objects, so the helper is taken to hand out the
    material's own [metadata], created empty when it has none. *)
Definition GetMaterialMetadata (m : Material) : Metadata := orEmpty (mat_metadata m).

(** Modelled from the spec: [Tools.GetMeshMetadata] is not under src/
    either, and is taken to do the same for a mesh. *)
Definition GetMeshMetadata (m : AbstractMesh) : Metadata := orEmpty (mesh_metadata m).

(** [computePreview] and [_computePreview] *)
Definition _computePreview : Prog unit :=
  path ← await (ExecuteFunction "createScenePreview" (absolutePath props));
  let previewImage := img path in
  sync (setState_previewImage previewImage).

Definition computePreview : Prog ReactNode :=
  fork _computePreview;;
  mret (div [Icon "logo-babylon.svg"; div [Spinner 24]]).

Definition onDoubleClick : M unit :=
  call (addWindowedPlugin "mesh-viewer"
          (join (dirname (absolutePath props)) "/")
          (basename (absolutePath props))).

Definition onDragStart : M unit :=
  call (setData "text" (absolutePath props)).

(** [_configureParticleSystems] *)
Definition _configureParticleSystems (particleSystems : list ref) : M unit :=
  forEach particleSystems (λ ps,
    id ← RandomId;
    modifyParticleSystem ps (set_ps_id id)).

(** [skeleton.id === id] for a number [id]. *)
Definition hasNumberId (h : Heap) (id : nat) (s : ref) : bool :=
  match skeletons h !! s with
  | Some sk => match skel_id sk with
               | NumberId n => bool_decide (n = Z.of_nat id)
               | StringId _ => false
               end
  | None => false
  end.

(** The engine's [scene.getSkeletonById(id)], called with a number:
    the first skeleton of [scene.skeletons] whose id [===] it. *)
Definition getSkeletonById (h : Heap) (id : nat) : option ref :=
  head (filter (λ s, hasNumberId h id s = true) (scene_skeletons h)).

(** The skeleton has a number not below [id] as id. *)
Definition hasNumberIdFrom (h : Heap) (id : nat) (s : ref) : bool :=
  match skeletons h !! s with
  | Some sk => match skel_id sk with
               | NumberId n => bool_decide (Z.of_nat id ≤ n)%Z
               | StringId _ => false
               end
  | None => false
  end.

(** How many skeletons of the scene the search below may still have
    to step over. *)
Definition idsFrom (h : Heap) (id : nat) : nat :=
  length (filter (λ s, hasNumberIdFrom h id s = true) (scene_skeletons h)).

(** [let id = 0; while (scene.getSkeletonById(id)) { id++; }],
    entered with the counter at [id]. *)
Equations? freeSkeletonId (h : Heap) (id : nat) : nat by wf (idsFrom h id) lt :=
  freeSkeletonId h id with Logic.inspect (getSkeletonById h id) := {
    | exist _ (Some _) found => freeSkeletonId h (S id)
    | exist _ None _ => id }.
Proof.
  clear freeSkeletonId. unfold getSkeletonById, idsFrom in *.
  assert (Hmono : ∀ s', hasNumberIdFrom h (S id) s' = true →
                        hasNumberIdFrom h id s' = true).
  { intros s'. unfold hasNumberIdFrom.
    destruct (skeletons h !! s') as [sk|]; [|done].
    destruct (skel_id sk); [|done].
    rewrite !bool_decide_eq_true. lia. }
  assert (Hle : ∀ l' : list ref,
             length (filter (λ s, hasNumberIdFrom h (S id) s = true) l')
             ≤ length (filter (λ s, hasNumberIdFrom h id s = true) l')).
  { induction l' as [|s' l' IHl']; [done|].
    rewrite !filter_cons.
    destruct (decide (hasNumberIdFrom h (S id) s' = true)) as [Hs'|Hs'],
             (decide (hasNumberIdFrom h id s' = true)) as [Ht|Ht];
      simpl; try lia.
    by destruct Ht; apply Hmono. }
  induction (scene_skeletons h) as [|s l IH]; [done|].
  rewrite filter_cons in found. rewrite !filter_cons.
  destruct (decide (hasNumberId h id s = true)) as [Hs|Hs].
  - assert (hasNumberIdFrom h id s = true ∧ hasNumberIdFrom h (S id) s ≠ true)
      as [Ha Hb].
    { revert Hs. unfold hasNumberId, hasNumberIdFrom.
      destruct (skeletons h !! s) as [sk|]; [|done].
      destruct (skel_id sk); [|done].
      rewrite !bool_decide_eq_true. lia. }
    rewrite (decide_True _ _ Ha), (decide_False _ _ Hb).
    simpl. specialize (Hle l). lia.
  - specialize (IH found).
    destruct (decide (hasNumberIdFrom h (S id) s = true)) as [Hs'|Hs'],
             (decide (hasNumberIdFrom h id s = true)) as [Ht|Ht];
      simpl; try lia.
    by destruct Ht; apply Hmono.
Qed.

(** [s.bones] *)
Definition bonesOf (s : ref) : M (list ref) :=
  λ h, (h, default [] (skel_bones <$> skeletons h !! s)).

(** [_configureSkeletons]; [scene] is the scene of the store. *)
Definition _configureSkeletons (skeletons : list ref) : M unit :=
  forEach skeletons (λ s,
    (* Skeleton Ids are not strings but numbers *)
    id ← (λ h, (h, freeSkeletonId h 0));
    modifySkeleton s (set_skel_id (NumberId (Z.of_nat id)));;
    bones ← bonesOf s;
    forEach bones (λ b,
      id ← RandomId;
      modifyBone b (λ b,
        let b := set_bone_id id b in
        set_bone_metadata
          (Some (set_originalId (bone_id b) (orEmpty (bone_metadata b)))) b))).

(** [_configureTransformNodes] *)
Definition _configureTransformNodes (transformNodes : list ref)
    (pick : option PickingInfo) : M unit :=
  forEach transformNodes (λ tn,
    id ← RandomId;
    modifyTransformNode tn (λ tn,
      let tn := set_tn_id id tn in
      match tn_parent tn, picked pick with
      | None, Some pickedPoint =>
          set_tn_position (addInPlace (tn_position tn) pickedPoint) tn
      | _, _ => tn
      end)).

(** [_configureMaterialTextures]: the textures it works on, *)
Definition textureIs (h : Heap) (p : Texture → bool) (t : ref) : bool :=
  default false (p <$> textures h !! t).

Definition texturesToConfigure (material : ref) : M (list ref) :=
  λ h,
    let active := default [] (activeTextures <$> materials h !! material) in
    (h, filter (λ t, textureIs h (λ t, negb (isDone (tex_metadata t))) t = true)
          (filter (λ t, textureIs h
                     (λ t, negb (isRenderTarget t) && isTextureOrCube t) t = true)
             active)).

(** what it does to each of them for a glTF file, *)
Definition configureGltfTexture (tex : Texture) : Texture :=
  let tex := set_tex_metadata
               (Some (set_editorDone true (orEmpty (tex_metadata tex)))) tex in
  let tex :=
    if truthy (_mimeType tex) then
      let existingExtension := extname (tex_name tex) in
      let targetExtension := GetExtensionFromMimeType (default EmptyString (_mimeType tex)) in
      let relativePath :=
        join (dirname (relativePath props)) (basename (tex_name tex)) in
      if bool_decide (existingExtension ≠ targetExtension)
      then set_tex_name (relativePath +:+ targetExtension) tex
      else set_tex_name relativePath tex
    else
      set_tex_name (join (dirname (relativePath props))
                         (basename (default (tex_name tex) (tex_url tex)))) tex in
  if truthy (tex_url tex) then set_tex_url (Some (tex_name tex)) tex else tex.

(** and for any other file. *)
Definition configureTexture (tex : Texture) : Texture :=
  let tex := set_tex_name (join (dirname (relativePath props))
                                (basename (tex_name tex))) tex in
  if truthy (tex_url tex) then set_tex_url (Some (tex_name tex)) tex else tex.

Definition _configureMaterialTextures (material : ref) (isGltf : bool) : Prog unit :=
  textures ← sync (texturesToConfigure material);
  if isGltf then
    sync (forEach textures (λ tex, modifyTexture tex configureGltfTexture));;
    await (TexturesToFiles (dirname (absolutePath props)) textures);;
    await assetsBrowser_refresh
  else
    sync (forEach textures (λ tex, modifyTexture tex configureTexture)).

(** [_createMaterialFile] *)
Definition _createMaterialFile (material : ref) : Prog bool :=
  materialFilename ← sync (
    m ← readMaterial material;
    let name := default (basename (absolutePath props)) (m ≫= mat_name) in
    id ← (match m ≫= mat_id with
          | Some id => mret id
          | None => RandomId
          end : M string);
    mret (filenamify (name +:+ "-" +:+ id +:+ ".material")));
  let materialPath := join (dirname (absolutePath props)) materialFilename in
  sync (modifyMaterial material (λ m,
    set_mat_metadata
      (Some (set_editorPath (join (dirname (relativePath props)) materialFilename)
                            (orEmpty (mat_metadata m)))) m));;
  exists_ ← await (pathExists materialPath);
  if exists_ : bool then mret false
  else
    object ← sync (λ h, (h, serialize h material));
    await (writeJSON materialPath object tab "utf-8");;
    mret true.

(** [metadata.originalSourceFile = metadata.originalSourceFile ?? {...}]
    on the metadata handed out by [Tools.GetMaterialMetadata]. *)
Definition recordOriginalSourceFile (m : Material) : Material :=
  let materialMetadata := GetMaterialMetadata m in
  set_mat_metadata
    (Some (set_originalSourceFile
             (default (mkSourceFile (mat_id m) (mat_name m) (relativePath props))
                      (originalSourceFile materialMetadata))
             materialMetadata)) m.

(** The [for (const m of material.subMaterials)] loop of
    [_configureMaterial]; [false] when the loop left the function
    through its [return]. *)
Fixpoint configureSubMaterials (material : ref) (isGltf : bool)
    (subMaterials : list (option ref)) : Prog bool :=
  match subMaterials with
  | [] => mret true
  | None :: _ => mret false
  | Some m :: rest =>
      fork (_configureMaterialTextures m isGltf);;
      created ← _createMaterialFile material;
      (if created : bool then
         sync (modifyMaterial m recordOriginalSourceFile);;
         id ← sync RandomId;
         sync (modifyMaterial m (set_mat_id (Some id)))
       else mret tt);;
      configureSubMaterials material isGltf rest
  end.

(** [_configureMaterial] *)
Definition _configureMaterial (material : ref) (isGltf : bool) : Prog unit :=
  m ← sync (readMaterial material);
  if isDone (m ≫= mat_metadata) then mret tt
  else
    sync (modifyMaterial material (λ m,
      set_mat_metadata (Some (set_editorDone true (orEmpty (mat_metadata m)))) m));;
    let isMulti := default false (isMultiMaterial <$> m) in
    (if negb isMulti then fork (_configureMaterialTextures material isGltf)
     else mret tt);;
    created ← _createMaterialFile material;
    if negb created then mret tt
    else
      sync (modifyMaterial material recordOriginalSourceFile);;
      id ← sync RandomId;
      sync (modifyMaterial material (set_mat_id (Some id)));;
      finished ← (if isMulti then
                    subs ← sync (λ h, (h, default []
                               (subMaterials <$> materials h !! material)));
                    configureSubMaterials material isGltf subs
                  else mret true);
      if finished : bool then fork (await assetsBrowser_refresh) else mret tt.

(** [_configureMeshes] *)
Definition _configureMeshes (meshes : list ref) (pick : option PickingInfo)
    (isGltf : bool) : Prog unit :=
  forEach meshes (λ m,
    sync (modifyMesh m (λ m,
      set_mesh_metadata (Some (orEmpty (mesh_metadata m))) m));;
    basePoseMatrix ← sync (λ h, (h, getPoseMatrix h m));
    sync (modifyMesh m (λ m,
      set_mesh_metadata
        (Some (set_basePoseMatrix basePoseMatrix (orEmpty (mesh_metadata m)))) m));;
    sync (modifyMesh m (λ m,
      match mesh_parent m, picked pick with
      | None, Some pickedPoint =>
          set_mesh_position (addInPlace (mesh_position m) pickedPoint) m
      | _, _ => m
      end));;
    o ← sync (readMesh m);
    match o ≫= mesh_material with
    | Some material => fork (_configureMaterial material isGltf)
    | None => mret tt
    end;;
    (if default false (isMesh <$> o) then
       sync (modifyMesh m (λ m,
         let meshMetadata := GetMeshMetadata m in
         set_mesh_metadata
           (Some (set_originalSourceFile
                    (mkSourceFile (Some (mesh_id m)) (Some (mesh_name m))
                                  (relativePath props))
                    meshMetadata)) m));;
       match o ≫= geometry with
       | Some g => id ← sync RandomId; sync (modifyGeometry g (set_geo_id id))
       | None => mret tt
       end
     else mret tt);;
    id ← sync RandomId;
    sync (modifyMesh m (set_mesh_id id))).

(** What [onDropInPreview] does with the result of the import. *)
Definition configureImported (result : ImportResult)
    (pick : option PickingInfo) (isGltf : bool) : Prog unit :=
  _configureMeshes (res_meshes result) pick isGltf;;
  sync (_configureTransformNodes (res_transformNodes result) pick);;
  sync (_configureSkeletons (res_skeletons result));;
  sync (_configureParticleSystems (res_particleSystems result));;
  sync (call graph_refresh);;
  sync (call assets_refresh).

(** [onDropInPreview] *)
Definition onDropInPreview (pick : option PickingInfo) : Prog unit :=
  sync (call stopAllAnimations);;
  let extension := toLowerCase (extname (absolutePath props)) in
  let isGltf := bool_decide (extension = ".glb")
                || bool_decide (extension = ".gltf") in
  result ← await (ImportMeshAsync EmptyString
                    (join (dirname (absolutePath props)) "/")
                    (basename (absolutePath props)));
  configureImported result pick isGltf.

End Handler.

End Model.

Abbreviation ref := nat.

Arguments Ret {_ A} a.
Arguments Sync {_ A X} m k.
Arguments Await {_ A X} io k.
Arguments Fork {_ A} child k.
Arguments Returned {_ A} a.
Arguments Waiting {_ A X} io k.

End MeshItemHandler.

(* ===================================================================== *)
(** * A concrete scene

    Simple stand-ins for the collaborators and a small store, on which
    the definitions above can be run. *)
(* ===================================================================== *)

Module Example.
Import MeshItemHandler.

(** A [String.prototype.trim] for messages in ASCII. *)
Fixpoint trimStart (s : string) : string :=
  match s with
  | String c s' => if Ascii.is_space c then trimStart s' else s
  | EmptyString => EmptyString
  end.

Definition trim (s : string) : string :=
  String.rev (trimStart (String.rev (trimStart s))).

#[global] Instance jsString : Console.JsString := {| Console.trim := trim |}.

#[global] Instance values : Values :=
  {| num := Z; num_add := Z.add; Other := string; Json := string |}.

(** [s] cut at the last [sep]. *)
Fixpoint splitLast (sep : Ascii.ascii) (s : string) : option (string * string) :=
  match s with
  | EmptyString => None
  | String c s' =>
      match splitLast sep s' with
      | Some (before, after) => Some (String c before, after)
      | None => if decide (c = sep) then Some (EmptyString, s') else None
      end
  end.

Definition slash : Ascii.ascii := Ascii.ascii_of_nat 47.
Definition dot : Ascii.ascii := Ascii.ascii_of_nat 46.

Definition basename (p : string) : string :=
  match splitLast slash p with Some (_, file) => file | None => p end.

Definition dirname (p : string) : string :=
  match splitLast slash p with Some (dir, _) => dir | None => "." end.

Definition extname (p : string) : string :=
  match splitLast dot (basename p) with
  | Some (_, ext) => String dot ext
  | None => EmptyString
  end.

Definition join (a b : string) : string := a +:+ "/" +:+ b.

Fixpoint mapString (f : Ascii.ascii → Ascii.ascii) (s : string) : string :=
  match s with
  | EmptyString => EmptyString
  | String c s' => String (f c) (mapString f s')
  end.

Definition toLowerCase : string → string :=
  mapString (λ c, let n := Ascii.nat_of_ascii c in
                  if bool_decide (65 ≤ n ≤ 90) then Ascii.ascii_of_nat (n + 32) else c).

(** Reserved characters become ["!"], and of the result the first
    100 characters are kept, the length at which the library cuts a
    file name. *)
Definition filenamify (s : string) : string :=
  String.substring 0 100
    (mapString (λ c, if bool_decide (Ascii.nat_of_ascii c
                                     ∈ [60; 62; 58; 34; 47; 92; 124; 63; 42])
                     then Ascii.ascii_of_nat 33 else c) s).

(** One file for each texture, named after the texture, in the
    directory [dir]. *)
Definition texturesToFiles (dir : string) (textures : list ref) (h : Heap)
    (d : gmap string File) : gmap string File :=
  foldr (λ t d, match MeshItemHandler.textures h !! t with
                | Some tex => <[join dir (basename (tex_name tex)) := OtherFile "image"]> d
                | None => d
                end) d textures.

Definition materialOf (h : Heap) (r : ref) : string :=
  match materials h !! r with
  | Some m => default EmptyString (mat_name m) +:+ "#" +:+ default EmptyString (mat_id m)
  | None => EmptyString
  end.

#[global] Instance externals : Externals := {|
  MeshItemHandler.filenamify := filenamify;
  MeshItemHandler.join := join;
  MeshItemHandler.dirname := dirname;
  MeshItemHandler.basename := basename;
  MeshItemHandler.extname := extname;
  MeshItemHandler.toLowerCase := toLowerCase;
  randomId := λ n, "id" +:+ String (Ascii.ascii_of_nat (48 + n)) EmptyString;
  GetExtensionFromMimeType := λ m, if bool_decide (m = "image/png") then ".png" else ".jpg";
  serialize := materialOf;
  getPoseMatrix := λ _ _, [1; 0; 0; 0; 0; 1; 0; 0; 0; 0; 1; 0; 0; 0; 0; 1]%Z;
  ImportMesh := λ _ _ _ h, (h, mkImportResult [0] [] [0; 1] [0]);
  ExecuteFunction_result := λ _ arg, arg +:+ ".png";
  TexturesToFiles_disk := texturesToFiles;
|}.

Definition props : Props :=
  mkProps "/project/assets/box.babylon" "assets/box.babylon".

Definition origin : Vector3 := mkVector3 0%Z 0%Z 0%Z.

(** A box with a wooden material, a child node, and two skeletons:
    one already numbered 0, one named by a loader. *)
Definition scene : Heap := {|
  meshes := [mkMesh "box" "Box" None origin None (Some 0) true (Some 0) "mesh"];
  transformNodes := [mkTransformNode "root" origin None "node"];
  skeletons := [mkSkeleton (NumberId 0) [0] "rig"; mkSkeleton (StringId "skin0") [1] "rig"];
  bones := [mkBone "hip" None "bone"; mkBone "knee" None "bone"];
  particleSystems := [];
  materials := [mkMaterial (Some "wood") (Some "m1") None false [] [0] "standard"];
  textures := [mkTexture "wood.png" (Some "wood.png") None false true None "tex"];
  geometries := [mkGeometry "g" "geo"];
  scene_skeletons := [0; 1];
  randomIds := 0;
  previewImage := None;
  calls := [];
|}.

(** A drop on the point (1, 2, 3). *)
Definition drop : option PickingInfo :=
  Some (mkPick (Some (mkVector3 1%Z 2%Z 3%Z))).

Definition emptyDisk : World := mkWorld scene ∅.

(** The disk once the material file of the box has been written. *)
Definition writtenDisk : World :=
  (exec (_createMaterialFile props 0) emptyDisk).1.

(** A fountain: a mesh whose material is a [MultiMaterial] of two
    sub-materials, and two particle systems. *)
Definition fountain : Heap := {|
  meshes := [mkMesh "fountain" "Fountain" None origin None (Some 0) true (Some 0) "mesh"];
  transformNodes := [];
  skeletons := [];
  bones := [];
  particleSystems := [mkParticleSystem "spray" "ps"; mkParticleSystem "mist" "ps"];
  materials := [mkMaterial (Some "stone") (Some "mm") None true [Some 1; Some 2] []
                           "multi";
                mkMaterial (Some "rim") (Some "a") None false [] [0] "standard";
                mkMaterial (Some "basin") (Some "b") None false [] [] "standard"];
  textures := [mkTexture "rim.png" None None false true None "tex"];
  geometries := [mkGeometry "g" "geo"];
  scene_skeletons := [];
  randomIds := 0;
  previewImage := None;
  calls := [];
|}.

(** The fountain and an empty disk. *)
Definition fountainOnDisk : World := mkWorld fountain ∅.
End Example.

(* ===================================================================== *)
(** * Properties of the console *)
(* ===================================================================== *)

Module ConsoleFacts.
Import Console.

(** The terminal [_addLog] selects is the one [getTerminalByType]
    returns for the layer, [Common] standing in for a missing layer. *)
Lemma selected_getTerminalByType st l :
  selected st l = getTerminalByType st (default Common l).
Proof. by destruct l as [[]|]. Qed.

Lemma selected_set_selected st l t :
  selected (set_selected l t st) l = Some t.
Proof. unfold selected, set_selected. by destruct (targetsCommon l). Qed.

Lemma selected_set_selected_other st l l' t :
  targetsCommon l' ≠ targetsCommon l →
  selected (set_selected l t st) l' = selected st l'.
Proof.
  unfold selected, set_selected.
  by destruct (targetsCommon l), (targetsCommon l').
Qed.

Lemma selected_emit st o l : selected (emit o st) l = selected st l.
Proof. done. Qed.

Lemma stdout_set_selected st l t : stdout (set_selected l t st) = stdout st.
Proof. unfold set_selected. by destruct (targetsCommon l). Qed.

(** [st'] is [st] after one more line on the terminal of [layer],
    which held [t], and one more call [o] on the standard output;
    the other terminal is as it was. *)
Definition one_line_and_mirror (st st' : State) (layer : option ConsoleLayer)
    (t : Terminal) (line : string) (o : StdOp) : Prop :=
  selected st' layer = Some (t ++ [writeln line])
  ∧ (∀ l, targetsCommon l ≠ targetsCommon layer → selected st' l = selected st l)
  ∧ stdout st' = stdout st ++ [o].

(** C2, as amended: when the terminal selected by the layer argument
    has been created, [logInfo], [logWarning] and [logError] each
    write exactly one line to it, the message after the prefix
    ["[INFO]: "], ["[WARN]: "] or ["[ERROR]: "], and pass the bare
    message to [console.info], [console.warn] or [console.error]. *)
Theorem log_writes_line_and_mirrors `{JsString} (st : State) (m : string)
    (layer : option ConsoleLayer) (t : Terminal)
    (Hcreated : selected st layer = Some t) :
  one_line_and_mirror st (logInfo m layer st) layer t ("[INFO]: " +:+ m) (console_info m)
  ∧ one_line_and_mirror st (logWarning m layer st) layer t ("[WARN]: " +:+ m) (console_warn m)
  ∧ one_line_and_mirror st (logError m layer st) layer t ("[ERROR]: " +:+ m) (console_error m).
Proof.
  unfold logInfo, logWarning, logError, _addLog, one_line_and_mirror; simpl.
  rewrite Hcreated.
  repeat split;
    first [ by rewrite selected_emit, selected_set_selected
          | by intros l Hl; rewrite selected_emit, selected_set_selected_other
          | by simpl; rewrite stdout_set_selected ].
Qed.

Lemma log_writes_line_and_mirrors_witness :
  selected mounted None = Some [writeln "[INFO]: Console ready."]
  ∧ stdout (logError "no scene" None mounted)
    = [console_info "Console ready."; console_info "Console ready.";
       console_error "no scene"]
  ∧ _terminalCommon (logError "no scene" None mounted)
    = Some [writeln "[INFO]: Console ready."; writeln "[ERROR]: no scene"].
Proof.
  assert (Hsel : selected mounted None = Some [writeln "[INFO]: Console ready."])
    by reflexivity.
  destruct (log_writes_line_and_mirrors mounted "no scene" None _ Hsel)
    as (_ & _ & Hline & _ & Hout).
  split; [exact Hsel|]. split; [exact Hout|exact Hline].
Defined.

(** C2 as stated fails before the terminals exist: a [logInfo] on the
    freshly constructed console prints nothing and mirrors nothing. *)
Lemma log_before_mount_counterexample :
  logInfo "hello" None constructor = constructor
  ∧ selected (logInfo "hello" None constructor) None = None
  ∧ console_info "hello" ∉ stdout (logInfo "hello" None constructor).
Proof. repeat split. by apply not_elem_of_nil. Qed.

(** [st'] is [st] after the entry [entry] has been added to the
    terminal of [Common], which held [t], and the call [o] to the
    standard output; the terminal of [WebPack] and the [div]s are as
    they were. *)
Definition routed_to_common (st st' : State) (t : Terminal) (entry : TerminalOp)
    (o : StdOp) : Prop :=
  _terminalCommon st' = Some (t ++ [entry])
  ∧ _terminalWebPack st' = _terminalWebPack st
  ∧ stdout st' = stdout st ++ [o]
  ∧ _terminalCommonDiv st' = _terminalCommonDiv st
  ∧ _terminalWebPackDiv st' = _terminalWebPackDiv st.

(** C8: a log call without a layer, of any of the four kinds, adds its
    entry to the terminal of [Common] when that terminal exists, and
    leaves the terminal of [WebPack] as it was, whether or not that one
    exists; it is the call made for the layer [Common].  And a log
    call, of any of the four kinds and for any layer argument, whose
    terminal has not been created changes neither a terminal nor the
    standard output. *)
Theorem omitted_layer_and_missing_terminal `{JsString} (st : State) (m : string)
    (layer : option ConsoleLayer) :
  (∀ t, getTerminalByType st Common = Some t →
     routed_to_common st (logInfo m None st) t
       (writeln ("[INFO]: " +:+ m)) (console_info m)
     ∧ routed_to_common st (logWarning m None st) t
         (writeln ("[WARN]: " +:+ m)) (console_warn m)
     ∧ routed_to_common st (logError m None st) t
         (writeln ("[ERROR]: " +:+ m)) (console_error m)
     ∧ routed_to_common st (logRaw m None st) t (write m) (console_log (trim m)))
  ∧ (selected st None = getTerminalByType st Common
     ∧ logInfo m None st = logInfo m (Some Common) st
     ∧ logWarning m None st = logWarning m (Some Common) st
     ∧ logError m None st = logError m (Some Common) st
     ∧ logRaw m None st = logRaw m (Some Common) st)
  ∧ (getTerminalByType st (default Common layer) = None →
     logInfo m layer st = st ∧ logWarning m layer st = st
     ∧ logError m layer st = st ∧ logRaw m layer st = st).
Proof.
  split; [|split; [done|]].
  - intros t Ht. simpl in Ht.
    unfold routed_to_common, logInfo, logWarning, logError, logRaw, _addLog.
    unfold selected, set_selected. simpl. rewrite Ht. by repeat split.
  - rewrite <- selected_getTerminalByType. intros Hnone.
    unfold logInfo, logWarning, logError, logRaw, _addLog; simpl.
    by rewrite Hnone.
Qed.

Lemma omitted_layer_and_missing_terminal_witness :
  getTerminalByType (render constructor) WebPack = None
  ∧ logRaw "compiling..." (Some WebPack) (render constructor) = render constructor
  ∧ _terminalCommon (logRaw " done " None mounted)
    = Some [writeln "[INFO]: Console ready."; write " done "]
  ∧ _terminalWebPack (logRaw " done " None mounted)
    = Some [writeln "[INFO]: Console ready."]
  ∧ stdout (logRaw " done " None mounted)
    = [console_info "Console ready."; console_info "Console ready.";
       console_log "done"].
Proof.
  assert (Hnone : getTerminalByType (render constructor)
                    (default Common (Some WebPack)) = None) by reflexivity.
  destruct (omitted_layer_and_missing_terminal (render constructor)
              "compiling..." (Some WebPack)) as (_ & _ & Hnoop).
  destruct (Hnoop Hnone) as (_ & _ & _ & Hraw).
  destruct (omitted_layer_and_missing_terminal mounted " done " None)
    as (Hrouted & _ & _).
  destruct (Hrouted [writeln "[INFO]: Console ready."] eq_refl)
    as (_ & _ & _ & Hc & Hw & Ho & _).
  split; [exact Hnone|]. split; [exact Hraw|].
  split; [exact Hc|]. split; [exact Hw|exact Ho].
Defined.

(** ** Sequences of logs *)

(** What a log prints on its terminal, and what it passes to the
    global [console]. *)
Definition printed (log : IConsoleLog) : TerminalOp :=
  match type log with
  | Info => writeln ("[INFO]: " +:+ message log)
  | Warning => writeln ("[WARN]: " +:+ message log)
  | Error => writeln ("[ERROR]: " +:+ message log)
  | Raw => write (message log)
  end.

Definition mirrored `{JsString} (log : IConsoleLog) : StdOp :=
  match type log with
  | Info => console_info (message log)
  | Warning => console_warn (message log)
  | Error => console_error (message log)
  | Raw => console_log (trim (message log))
  end.

(** The logs of a sequence that are addressed to a layer, a log without
    layer being addressed to [Common]; *)
Definition logsOf (l : ConsoleLayer) (logs : list IConsoleLog) : list IConsoleLog :=
  filter (λ log, default Common (layer log) = l) logs.

(** those whose terminal exists in [st]; *)
Definition shown (st : State) (logs : list IConsoleLog) : list IConsoleLog :=
  filter (λ log, is_Some (getTerminalByType st (default Common (layer log)))) logs.


Lemma addLog_terminal `{JsString} log st l :
  getTerminalByType (_addLog log st) l
  = (λ t, t ++ (printed <$> logsOf l [log])) <$> getTerminalByType st l.
Proof.
  unfold _addLog, logsOf, printed, selected, set_selected, targetsCommon.
  destruct log as [ty m [[]|]], l, st as [[tc|] [tw|] ? ? ?], ty; simpl;
    rewrite ?app_nil_r; try done.
Qed.

Lemma addLog_stdout `{JsString} log st :
  stdout (_addLog log st) = stdout st ++ (mirrored <$> shown st [log]).
Proof.
  unfold _addLog, shown, mirrored, selected, set_selected, targetsCommon.
  destruct log as [ty m [[]|]], st as [[tc|] [tw|] ? ? ?], ty; simpl;
    rewrite ?app_nil_r; try done.
Qed.



(** ** Mounting *)

(** X2: when both [div]s have been rendered, [componentDidMount]
    replaces both terminals by new ones, each showing the one line
    ["[INFO]: Console ready."] whatever it showed before, and passes
    the message twice to [console.info]; when either [div] is missing
    it creates no terminal and logs nothing, not even for the layer
    whose [div] is there. *)
Theorem componentDidMount_creates_both_or_none `{JsString} (st : State) :
  let st' := componentDidMount st in
  let ready := [writeln "[INFO]: Console ready."] in
  if _terminalCommonDiv st && _terminalWebPackDiv st then
    _terminalCommon st' = Some ready
    ∧ _terminalWebPack st' = Some ready
    ∧ stdout st' = stdout st ++ [console_info "Console ready.";
                                 console_info "Console ready."]
    ∧ _terminalCommonDiv st' = true ∧ _terminalWebPackDiv st' = true
  else st' = st.
Proof.
  destruct st as [tc tw [] [] out]; simpl; try done.
  unfold componentDidMount. simpl. repeat split. by rewrite <- app_assoc.
Qed.

(** ** Clearing *)

(** X4: [clear] leaves the standard output and the [div]s alone,
    neither creates nor removes a terminal, touches the terminal of
    [Common] only for the tab id ["common"] and that of [WebPack] only
    for ["webpack"], and for any other tab id, a number among them,
    changes nothing at all. *)
Theorem clear_touches_its_terminal_only `{Xterm} (tabId : TabId) (st : State) :
  let st' := clear tabId st in
  stdout st' = stdout st
  ∧ _terminalCommonDiv st' = _terminalCommonDiv st
  ∧ _terminalWebPackDiv st' = _terminalWebPackDiv st
  ∧ (is_Some (_terminalCommon st') ↔ is_Some (_terminalCommon st))
  ∧ (is_Some (_terminalWebPack st') ↔ is_Some (_terminalWebPack st))
  ∧ (tabId ≠ tab_string "common" → _terminalCommon st' = _terminalCommon st)
  ∧ (tabId ≠ tab_string "webpack" → _terminalWebPack st' = _terminalWebPack st)
  ∧ (tabId ≠ tab_string "common" → tabId ≠ tab_string "webpack" → st' = st).
Proof.
  unfold clear. repeat case_bool_decide; subst; simpl;
    rewrite ?fmap_is_Some; repeat split; try done.
Qed.

(** ** Overriding the engine's logger *)

(** A logging function of the engine leaves the terminals alone. *)
Definition keepsTerminals (f : string → State → State) : Prop :=
  ∀ m st, _terminalCommon (f m st) = _terminalCommon st
          ∧ _terminalWebPack (f m st) = _terminalWebPack st.

(** The function [overrideLogger] installs over [f] for logs of type [ty]. *)
Definition wrapped `{JsString} (ty : ConsoleLogType) (f : string → State → State)
    : string → State → State :=
  λ m st, _addLog (mkLog ty m None) (f m st).

(** [after] is the console [st] once a function installed by [n] calls
    of [overrideLogger] has run, [before] once the engine's own
    function has: the terminal of [Common], if it exists, has [n] more
    lines [line], that of [WebPack] is as it was, and the standard
    output has what the engine's function wrote followed by [n] calls
    [o], or by nothing when the terminal does not exist. *)
Definition overridden (n : nat) (st : State) (line : string) (o : StdOp)
    (before after : State) : Prop :=
  _terminalCommon after = (λ t, t ++ replicate n (writeln line)) <$> _terminalCommon st
  ∧ _terminalWebPack after = _terminalWebPack st
  ∧ stdout after = stdout before
                   ++ match _terminalCommon st with
                      | Some _ => replicate n o
                      | None => []
                      end.

Lemma overrideLogger_iter `{JsString} (n : nat) (L : Logger) :
  Logger_Log (Nat.iter n overrideLogger L) = Nat.iter n (wrapped Info) (Logger_Log L)
  ∧ Logger_Warn (Nat.iter n overrideLogger L)
    = Nat.iter n (wrapped Warning) (Logger_Warn L)
  ∧ Logger_Error (Nat.iter n overrideLogger L)
    = Nat.iter n (wrapped Error) (Logger_Error L).
Proof.
  induction n as [|n (IH1 & IH2 & IH3)]; [done|].
  simpl. by rewrite IH1, IH2, IH3.
Qed.

Lemma wrapped_iter `{JsString} (ty : ConsoleLogType) (f : string → State → State)
    (n : nat)
    (m : string) (st : State) :
  keepsTerminals f →
  let log := mkLog ty m None in
  let st' := Nat.iter n (wrapped ty) f m st in
  _terminalCommon st' = (λ t, t ++ replicate n (printed log)) <$> _terminalCommon st
  ∧ _terminalWebPack st' = _terminalWebPack st
  ∧ stdout st' = stdout (f m st)
                 ++ match _terminalCommon st with
                    | Some _ => replicate n (mirrored log)
                    | None => []
                    end.
Proof.
  intros Hf log st'. subst st'. induction n as [|n (IH1 & IH2 & IH3)].
  - simpl. destruct (Hf m st) as [-> ->].
    destruct (_terminalCommon st); simpl; by rewrite ?app_nil_r.
  - set (prev := Nat.iter n (wrapped ty) f m st) in *.
    assert (Hs : Nat.iter (S n) (wrapped ty) f m st = _addLog log prev) by reflexivity.
    rewrite Hs. clear Hs. clearbody prev.
    pose proof (addLog_terminal log prev Common) as Hc.
    pose proof (addLog_terminal log prev WebPack) as Hw.
    pose proof (addLog_stdout log prev) as Ho.
    change (getTerminalByType ?s Common) with (_terminalCommon s) in Hc.
    change (getTerminalByType ?s WebPack) with (_terminalWebPack s) in Hw.
    rewrite Hc, Hw, Ho, IH1, IH2, IH3.
    unfold shown, logsOf. rewrite !filter_cons, !filter_nil. simpl. rewrite IH1. clear.
    destruct (_terminalCommon st) as [t|]; simpl.
    + rewrite <- !app_assoc.
      change (?x :: replicate n ?x) with (replicate (S n) x).
      rewrite !replicate_S_end.
      split; [done|]. split; [|done].
      by destruct (_terminalWebPack st); simpl; rewrite ?app_nil_r.
    + rewrite !app_nil_r. split; [done|]. split; [|done].
      by destruct (_terminalWebPack st); simpl; rewrite ?app_nil_r.
Qed.

(** X3: [overrideLogger] wraps whatever [Logger.Log], [Logger.Warn] and
    [Logger.Error] are when it is called.  So when the engine's
    functions leave the terminals alone, after [n] calls of
    [overrideLogger] one call of [Logger.Log(m)] runs the engine's
    function once and then adds the line ["[INFO]: " + m] to the
    terminal of [Common] [n] times, mirrored [n] times to
    [console.info]; likewise [Logger.Warn] and [Logger.Error] with
    their prefixes.  The terminal of [WebPack] is never written. *)
Theorem overrideLogger_adds_a_line_per_call `{JsString} (L : Logger) (n : nat)
    (m : string)
    (st : State)
    (Hlog : keepsTerminals (Logger_Log L))
    (Hwarn : keepsTerminals (Logger_Warn L))
    (Herror : keepsTerminals (Logger_Error L)) :
  let L' := Nat.iter n overrideLogger L in
  overridden n st ("[INFO]: " +:+ m) (console_info m)
             (Logger_Log L m st) (Logger_Log L' m st)
  ∧ overridden n st ("[WARN]: " +:+ m) (console_warn m)
               (Logger_Warn L m st) (Logger_Warn L' m st)
  ∧ overridden n st ("[ERROR]: " +:+ m) (console_error m)
               (Logger_Error L m st) (Logger_Error L' m st).
Proof.
  intros L'. subst L'. unfold overridden.
  destruct (overrideLogger_iter n L) as (-> & -> & ->).
  split; [|split].
  - exact (wrapped_iter Info _ n m st Hlog).
  - exact (wrapped_iter Warning _ n m st Hwarn).
  - exact (wrapped_iter Error _ n m st Herror).
Qed.

(** A stand-in for the engine's logger before any override: it prints
    to the standard output and knows nothing of the console. *)
Definition engineLogger : Logger :=
  mkLogger (λ m, emit (console_log ("BJS - " +:+ m)))
           (λ m, emit (console_warn ("BJS - " +:+ m)))
           (λ m, emit (console_error ("BJS - " +:+ m))).

Lemma overrideLogger_adds_a_line_per_call_witness :
  (let L' := overrideLogger (overrideLogger engineLogger) in
   _terminalCommon (Logger_Warn L' "no light" mounted)
   = Some [writeln "[INFO]: Console ready.";
           writeln "[WARN]: no light"; writeln "[WARN]: no light"])
  ∧ (let L' := overrideLogger (overrideLogger engineLogger) in
     stdout (Logger_Warn L' "no light" mounted)
     = [console_info "Console ready."; console_info "Console ready.";
        console_warn "BJS - no light"; console_warn "no light";
        console_warn "no light"]).
Proof.
  assert (Hkeeps : ∀ o : string → StdOp, keepsTerminals (λ m, emit (o m))) by done.
  destruct (overrideLogger_adds_a_line_per_call engineLogger 2 "no light" mounted
              (Hkeeps _) (Hkeeps _) (Hkeeps _)) as (_ & (Hc & _ & Ho) & _).
  split; [exact Hc|exact Ho].
Defined.

End ConsoleFacts.

(* ===================================================================== *)
(** * Properties of the mesh handler *)
(* ===================================================================== *)

Module MeshFacts.
Import MeshItemHandler.

Section Facts.
Context `{V : Values} `{E : !Externals}.

(** ** Running a sequence *)

Lemma exec_bind {A B} (p : Prog A) (f : A → Prog B) (w : World) :
  exec (p ≫= f) w = exec (f (exec p w).2) (exec p w).1.
Proof.
  revert B f w.
  induction p as [A a|A X m k IH|A X io k IH|A child _ k IH]; intros B f w;
    simpl; unfold mbind, Prog_bind in *; simpl.
  - done.
  - destruct (m (heap w)) as [h x]. apply IH.
  - destruct (answer io w) as [w' x]. apply IH.
  - destruct (start child (heap w)) as [[h o] ts]. apply IH.
Qed.

Lemma run_bind {X Y} (m : M X) (f : X → M Y) (h : Heap) :
  (m ≫= f) h = f (m h).2 (m h).1.
Proof. unfold mbind, M_bind. by destruct (m h). Qed.

Lemma run_ret {X} (x : X) (h : Heap) : (mret x : M X) h = (h, x).
Proof. done. Qed.

Lemma exec_ret {A} (a : A) (w : World) : exec (mret a) w = (w, a).
Proof. done. Qed.

Lemma exec_sync {X} (m : M X) (w : World) :
  exec (sync m) w = (mkWorld (m (heap w)).1 (disk w), (m (heap w)).2).
Proof. simpl. by destruct (m (heap w)). Qed.

Lemma exec_fork (child : Prog unit) (w : World) :
  exec (fork child) w = (mkWorld (start child (heap w)).1.1 (disk w), tt).
Proof. simpl. by destruct (start child (heap w)) as [[h o] ts]. Qed.

(** For a program that awaits every call it makes, [exec] follows one
    of the runs of the event loop, to a state where nothing waits. *)
Inductive awaitsAll : ∀ A, Prog A → Prop :=
| aa_ret {A} (a : A) : awaitsAll A (Ret a)
| aa_sync {A X} (m : M X) (k : X → Prog A) :
    (∀ x, awaitsAll A (k x)) → awaitsAll A (Sync m k)
| aa_await {A X} (io : IO X) (k : X → Prog A) :
    (∀ x, awaitsAll A (k x)) → awaitsAll A (Await io k).

Lemma exec_is_a_run {A} (p : Prog A) (w : World) :
  awaitsAll A p →
  rtc step (launch (p ≫= λ _, mret tt) w) (mkConfig (exec p w).1 []).
Proof.
  intros Hp. revert w.
  induction Hp as [A a|A X m k _ IH|A X io k _ IH]; intros w.
  - destruct w as [h d]. apply rtc_refl.
  - specialize (IH (m (heap w)).2 (mkWorld (m (heap w)).1 (disk w))).
    unfold launch, mbind, Prog_bind in *. simpl in *.
    by destruct (m (heap w)).
  - destruct (answer io w) as [w' x] eqn:Hans.
    assert (Hexec : exec (Await io k) w = exec (k x) w') by (simpl; by rewrite Hans).
    rewrite Hexec. eapply rtc_l; [|apply (IH x w')].
    unfold launch, mbind, Prog_bind. simpl.
    destruct (start (bind (k x) _) (heap w')) as [[h' o] ts] eqn:Hstart.
    apply (step_resume _ [] [] _ io _ w' x h' o ts); [|done].
    by destruct w.
Qed.

Lemma resumeFirst_step (c c' : Config) : resumeFirst c = Some c' → step c c'.
Proof.
  destruct c as [w ts]. unfold resumeFirst. simpl.
  destruct ts as [|[u|X io k] ts]; [done|done|].
  destruct (answer io w) as [w' x] eqn:Hans.
  destruct (start (k x) (heap w')) as [[h' o] new] eqn:Hstart.
  intros [= <-]. by apply (step_resume w [] ts X io k w' x h' o new).
Qed.

Lemma run_steps (n : nat) (c : Config) : rtc step c (run n c).
Proof.
  revert c. induction n as [|n IH]; intros c; simpl; [done|].
  destruct (resumeFirst c) as [c'|] eqn:Hc; [|done].
  eapply rtc_l; [by apply resumeFirst_step|apply IH].
Qed.

(** ** Relations between two stores, class by class *)

Record Rels : Type := mkRels {
  Rmesh : relation AbstractMesh;
  Rnode : relation TransformNode;
  Rskel : relation Skeleton;
  Rbone : relation Bone;
  Rps : relation IParticleSystem;
  Rmat : relation Material;
  Rtex : relation Texture;
  Rgeo : relation Geometry;
  Rscene : relation (list ref);
  Rrand : relation nat;
  Rpreview : relation (option ReactNode);
  Rcalls : relation (list Call);
}.

Record related (R : Rels) (h h' : Heap) : Prop := mkRelated {
  rel_meshes : Forall2 (Rmesh R) (meshes h) (meshes h');
  rel_transformNodes : Forall2 (Rnode R) (transformNodes h) (transformNodes h');
  rel_skeletons : Forall2 (Rskel R) (skeletons h) (skeletons h');
  rel_bones : Forall2 (Rbone R) (bones h) (bones h');
  rel_particleSystems : Forall2 (Rps R) (particleSystems h) (particleSystems h');
  rel_materials : Forall2 (Rmat R) (materials h) (materials h');
  rel_textures : Forall2 (Rtex R) (textures h) (textures h');
  rel_geometries : Forall2 (Rgeo R) (geometries h) (geometries h');
  rel_scene : Rscene R (scene_skeletons h) (scene_skeletons h');
  rel_rand : Rrand R (randomIds h) (randomIds h');
  rel_preview : Rpreview R (previewImage h) (previewImage h');
  rel_calls : Rcalls R (calls h) (calls h');
}.

Class Preorders (R : Rels) : Prop := {
  po_mesh :: PreOrder (Rmesh R);
  po_node :: PreOrder (Rnode R);
  po_skel :: PreOrder (Rskel R);
  po_bone :: PreOrder (Rbone R);
  po_ps :: PreOrder (Rps R);
  po_mat :: PreOrder (Rmat R);
  po_tex :: PreOrder (Rtex R);
  po_geo :: PreOrder (Rgeo R);
  po_scene :: PreOrder (Rscene R);
  po_rand :: PreOrder (Rrand R);
  po_preview :: PreOrder (Rpreview R);
  po_calls :: PreOrder (Rcalls R);
}.

#[global] Instance related_po R `{!Preorders R} : PreOrder (related R).
Proof.
  split.
  - intros h. by split.
  - intros h1 h2 h3 [] []. split; by etrans.
Qed.

Lemma Forall2_alter_self {A} (R : relation A) `{!Reflexive R} (f : A → A) i l :
  (∀ x, R x (f x)) → Forall2 R l (alter f i l).
Proof.
  intros Hf. revert i. induction l as [|x l IH]; intros i.
  - destruct i; constructor.
  - destruct i as [|i]; simpl.
    + constructor; [apply Hf|]. clear IH. induction l; by constructor.
    + constructor; [done|apply IH].
Qed.

(** ** What every synchronous stretch of a program guarantees

    [G] relates the store before a stretch to the store after it.
    When every stretch of every task keeps to a preorder [G], so
    does any run, whatever the order in which the tasks resume. *)
Definition Mguar {X} (G : relation Heap) (m : M X) : Prop :=
  ∀ h, G h (m h).1.

(** The awaited operations that leave the store alone. *)
Definition keepsHeap {X} (io : IO X) : Prop :=
  ∀ w, heap (answer io w).1 = heap w.

Inductive guarantees (G : relation Heap) : ∀ A, Prog A → Prop :=
| g_ret {A} (a : A) : guarantees G A (Ret a)
| g_sync {A X} (m : M X) (k : X → Prog A) :
    Mguar G m → (∀ x, guarantees G A (k x)) → guarantees G A (Sync m k)
| g_await {A X} (io : IO X) (k : X → Prog A) :
    keepsHeap io → (∀ x, guarantees G A (k x)) → guarantees G A (Await io k)
| g_fork {A} (child : Prog unit) (k : Prog A) :
    guarantees G unit child → guarantees G A k → guarantees G A (Fork child k).
Arguments guarantees G {A} p.

Definition outcome_ok (G : relation Heap) {A} (o : Outcome A) : Prop :=
  match o with
  | Returned _ => True
  | Waiting io k => keepsHeap io ∧ ∀ x, guarantees G (k x)
  end.

Section Guarantee.
Context (G : relation Heap) `{!PreOrder G}.

Lemma Mguar_ret {X} (x : X) : Mguar G (mret x).
Proof. intros h. simpl. reflexivity. Qed.

Lemma Mguar_read {X} (f : Heap → X) : Mguar G (λ h, (h, f h)).
Proof. intros h. simpl. reflexivity. Qed.

Lemma Mguar_bind {X Y} (m : M X) (f : X → M Y) :
  Mguar G m → (∀ x, Mguar G (f x)) → Mguar G (m ≫= f).
Proof.
  intros Hm Hf h. unfold mbind, M_bind.
  specialize (Hm h). destruct (m h) as [h' x]. simpl in *.
  etrans; [exact Hm|apply Hf].
Qed.

Lemma Mguar_forEach {X} (l : list X) (body : X → M unit) :
  (∀ x, Mguar G (body x)) → Mguar G (forEach l body).
Proof.
  intros Hb. induction l as [|x l IH]; simpl.
  - apply Mguar_ret.
  - apply Mguar_bind; auto.
Qed.

Lemma guarantees_bind {A B} (p : Prog A) (f : A → Prog B) :
  guarantees G p → (∀ a, guarantees G (f a)) → guarantees G (p ≫= f).
Proof.
  intros Hp Hf. unfold mbind, Prog_bind.
  induction Hp; simpl; try constructor; auto.
Qed.

Lemma guarantees_sync {X} (m : M X) : Mguar G m → guarantees G (sync m).
Proof. intros. constructor; [done|]. intros; constructor. Qed.

Lemma guarantees_await {X} (io : IO X) : keepsHeap io → guarantees G (await io).
Proof. intros. constructor; [done|]. intros; constructor. Qed.

Lemma guarantees_fork (child : Prog unit) :
  guarantees G child → guarantees G (fork child).
Proof. intros. constructor; [done|]. constructor. Qed.

Lemma guarantees_forEach {X} (l : list X) (body : X → Prog unit) :
  (∀ x, guarantees G (body x)) → guarantees G (forEach l body).
Proof.
  intros Hb. induction l as [|x l IH]; simpl.
  - constructor.
  - apply guarantees_bind; auto.
Qed.

(** Up to the first [await], *)
Lemma guarantees_start {A} (p : Prog A) (h : Heap) :
  guarantees G p →
  G h (start p h).1.1
  ∧ outcome_ok G (start p h).1.2
  ∧ Forall (outcome_ok G) (start p h).2.
Proof.
  intros Hp. revert h.
  induction Hp as [A a|A X m k Hm _ IH|A X io k Hio Hk _|A child k _ IHc _ IHk];
    intros h; simpl.
  - split; [reflexivity|]. by split.
  - specialize (Hm h). destruct (m h) as [h' x]. simpl in Hm.
    destruct (IH x h') as (H1 & H2 & H3).
    split; [by etrans|]. by split.
  - split; [reflexivity|]. split; [by split|constructor].
  - destruct (IHc h) as (Hc1 & Hc2 & Hc3).
    destruct (start child h) as [[h1 o1] ts1]. simpl in *.
    destruct (IHk h1) as (Hk1 & Hk2 & Hk3).
    destruct (start k h1) as [[h2 o2] ts2]. simpl in *.
    split; [by etrans|]. split; [done|].
    rewrite !Forall_app. split; [done|]. split; [|done].
    destruct o1; simpl; by constructor.
Qed.

(** to the return of the call, *)
Lemma guarantees_exec {A} (p : Prog A) (w : World) :
  guarantees G p → G (heap w) (heap (exec p w).1).
Proof.
  intros Hp. revert w.
  induction Hp as [A a|A X m k Hm _ IH|A X io k Hio _ IH|A child k Hc _ _ IHk];
    intros w; simpl.
  - reflexivity.
  - specialize (Hm (heap w)). destruct (m (heap w)) as [h x]. simpl in Hm.
    etrans; [exact Hm|]. apply (IH x (mkWorld h (disk w))).
  - specialize (Hio w). destruct (answer io w) as [w' x]. simpl in Hio.
    rewrite <- Hio. apply IH.
  - destruct (guarantees_start child (heap w) Hc) as [Hh _].
    destruct (start child (heap w)) as [[h o] ts]. simpl in Hh.
    etrans; [exact Hh|apply (IHk (mkWorld h (disk w)))].
Qed.

(** and under any schedule. *)
Lemma guarantees_step (c c' : Config) :
  Forall (outcome_ok G) (tasks c) → step c c' →
  G (heap (world c)) (heap (world c')) ∧ Forall (outcome_ok G) (tasks c').
Proof.
  intros Hts Hstep.
  destruct Hstep as [w ts1 ts2 X io k w' x h' o ts Hans Hstart]. simpl in *.
  rewrite Forall_app, Forall_cons in Hts. destruct Hts as (Hts1 & [Hio Hk] & Hts2).
  pose proof (Hio w) as Hsame. rewrite Hans in Hsame. simpl in Hsame.
  destruct (guarantees_start (k x) (heap w') (Hk x)) as (H1 & H2 & H3).
  rewrite Hstart in H1, H2, H3. simpl in *.
  split; [by rewrite <- Hsame|].
  rewrite !Forall_app. repeat split; try done.
  destruct o; simpl; by constructor.
Qed.

Lemma guarantees_run (p : Prog unit) (w : World) (c : Config) :
  guarantees G p → rtc step (launch p w) c →
  G (heap w) (heap (world c)).
Proof.
  intros Hp Hrun.
  assert (G (heap w) (heap (world c)) ∧ Forall (outcome_ok G) (tasks c)) as [? _];
    [|done].
  revert c Hrun. apply rtc_ind_r.
  - destruct (guarantees_start p (heap w) Hp) as (H1 & H2 & H3).
    unfold launch. destruct (start p (heap w)) as [[h o] ts]. simpl in *.
    split; [done|]. rewrite Forall_app. split; [done|].
    destruct o; simpl; by constructor.
  - intros c c' _ Hstep [IH1 IH2].
    destruct (guarantees_step _ _ IH2 Hstep) as [H1 H2].
    split; [by etrans|done].
Qed.
End Guarantee.

(** The primitive updates, for a relation given class by class. *)
Section Related.
Context (R : Rels) `{!Preorders R}.

Lemma related_modifyMesh r f :
  (∀ x, Rmesh R x (f x)) → Mguar (related R) (modifyMesh r f).
Proof.
  intros Hf h. split; simpl; try reflexivity.
  apply Forall2_alter_self; [apply _|exact Hf].
Qed.

Lemma related_modifyTransformNode r f :
  (∀ x, Rnode R x (f x)) → Mguar (related R) (modifyTransformNode r f).
Proof.
  intros Hf h. split; simpl; try reflexivity.
  apply Forall2_alter_self; [apply _|exact Hf].
Qed.

Lemma related_modifySkeleton r f :
  (∀ x, Rskel R x (f x)) → Mguar (related R) (modifySkeleton r f).
Proof.
  intros Hf h. split; simpl; try reflexivity.
  apply Forall2_alter_self; [apply _|exact Hf].
Qed.

Lemma related_modifyBone r f :
  (∀ x, Rbone R x (f x)) → Mguar (related R) (modifyBone r f).
Proof.
  intros Hf h. split; simpl; try reflexivity.
  apply Forall2_alter_self; [apply _|exact Hf].
Qed.

Lemma related_modifyParticleSystem r f :
  (∀ x, Rps R x (f x)) → Mguar (related R) (modifyParticleSystem r f).
Proof.
  intros Hf h. split; simpl; try reflexivity.
  apply Forall2_alter_self; [apply _|exact Hf].
Qed.

Lemma related_modifyMaterial r f :
  (∀ x, Rmat R x (f x)) → Mguar (related R) (modifyMaterial r f).
Proof.
  intros Hf h. split; simpl; try reflexivity.
  apply Forall2_alter_self; [apply _|exact Hf].
Qed.

Lemma related_modifyTexture r f :
  (∀ x, Rtex R x (f x)) → Mguar (related R) (modifyTexture r f).
Proof.
  intros Hf h. split; simpl; try reflexivity.
  apply Forall2_alter_self; [apply _|exact Hf].
Qed.

Lemma related_modifyGeometry r f :
  (∀ x, Rgeo R x (f x)) → Mguar (related R) (modifyGeometry r f).
Proof.
  intros Hf h. split; simpl; try reflexivity.
  apply Forall2_alter_self; [apply _|exact Hf].
Qed.

Lemma related_RandomId :
  (∀ n, Rrand R n (S n)) → Mguar (related R) RandomId.
Proof. intros Hf h. split; simpl; try reflexivity. apply Hf. Qed.

Lemma related_call c :
  (∀ l, Rcalls R l (l ++ [c])) → Mguar (related R) (call c).
Proof. intros Hf h. split; simpl; try reflexivity. apply Hf. Qed.

Lemma related_setState_previewImage n :
  (∀ o, Rpreview R o (Some n)) → Mguar (related R) (setState_previewImage n).
Proof. intros Hf h. split; simpl; try reflexivity. apply Hf. Qed.
End Related.

End Facts.

Arguments guarantees {_ _} G {A} p.

(** Breaks a program into its synchronous stretches and those into
    their assignments; what is left to show is that each assignment
    respects the relation of its class. *)
Ltac guar_apply lem := apply lem; try (apply _); intros.

Ltac guar_step :=
  lazymatch goal with
  | |- guarantees _ (mbind _ _) => guar_apply guarantees_bind
  | |- guarantees _ (sync _) => guar_apply guarantees_sync
  | |- guarantees _ (await _) => guar_apply guarantees_await; [done]
  | |- guarantees _ (fork _) => guar_apply guarantees_fork
  | |- guarantees _ (forEach _ _) => guar_apply guarantees_forEach
  | |- guarantees _ (mret _) => apply g_ret
  | |- guarantees _ (Ret _) => apply g_ret
  | |- guarantees _ (Sync _ _) => apply g_sync; intros
  | |- guarantees _ (Await _ _) => apply g_await; [done|intros]
  | |- guarantees _ (Fork _ _) => apply g_fork
  | |- guarantees _ (if ?b then _ else _) => destruct b
  | |- guarantees _ (match ?o with _ => _ end) => destruct o
  | |- Mguar _ (mbind _ _) => guar_apply Mguar_bind
  | |- Mguar _ (forEach _ _) => guar_apply Mguar_forEach
  | |- Mguar _ (mret _) => guar_apply Mguar_ret
  | |- Mguar _ (modifyMesh _ _) => guar_apply related_modifyMesh
  | |- Mguar _ (modifyTransformNode _ _) => guar_apply related_modifyTransformNode
  | |- Mguar _ (modifySkeleton _ _) => guar_apply related_modifySkeleton
  | |- Mguar _ (modifyBone _ _) => guar_apply related_modifyBone
  | |- Mguar _ (modifyParticleSystem _ _) => guar_apply related_modifyParticleSystem
  | |- Mguar _ (modifyMaterial _ _) => guar_apply related_modifyMaterial
  | |- Mguar _ (modifyTexture _ _) => guar_apply related_modifyTexture
  | |- Mguar _ (modifyGeometry _ _) => guar_apply related_modifyGeometry
  | |- Mguar _ RandomId => guar_apply related_RandomId
  | |- Mguar _ (call _) => guar_apply related_call
  | |- Mguar _ (setState_previewImage _) => guar_apply related_setState_previewImage
  | |- Mguar _ (if ?b then _ else _) => destruct b
  | |- Mguar _ (match ?o with _ => _ end) => destruct o
  | |- Mguar _ (λ h, (h, _)) => guar_apply Mguar_read
  end.

Ltac guar := repeat guar_step.

Ltac preorders :=
  split; (split; [intros ?|intros ? ? ?]); simpl;
    try done; intuition (try congruence); etrans; eauto.

Section Claims.
Context `{V : Values} `{E : !Externals}.
Variable props : Props.

(** ** What the configuration pass leaves alone

    Object by object, the fields other than [id], [name] and
    [metadata] keep their value, but for two: the position of a
    mesh or transform node may move when it has no parent and the
    drop has a picked point, and the url of a texture may change
    when it is truthy. *)
Definition moves {A} (parent : option A) (pick : option PickingInfo) : Prop :=
  parent = None ∧ is_Some (picked pick).

Definition frame (pick : option PickingInfo) : Rels := {|
  Rmesh m m' :=
    mesh_parent m' = mesh_parent m ∧ mesh_material m' = mesh_material m
    ∧ isMesh m' = isMesh m ∧ geometry m' = geometry m
    ∧ mesh_other m' = mesh_other m
    ∧ (¬ moves (mesh_parent m) pick → mesh_position m' = mesh_position m);
  Rnode n n' :=
    tn_parent n' = tn_parent n ∧ tn_other n' = tn_other n
    ∧ (¬ moves (tn_parent n) pick → tn_position n' = tn_position n);
  Rskel s s' := skel_bones s' = skel_bones s ∧ skel_other s' = skel_other s;
  Rbone b b' := bone_other b' = bone_other b;
  Rps p p' := ps_other p' = ps_other p;
  Rmat m m' :=
    isMultiMaterial m' = isMultiMaterial m ∧ subMaterials m' = subMaterials m
    ∧ activeTextures m' = activeTextures m ∧ mat_other m' = mat_other m;
  Rtex t t' :=
    isRenderTarget t' = isRenderTarget t ∧ isTextureOrCube t' = isTextureOrCube t
    ∧ _mimeType t' = _mimeType t ∧ tex_other t' = tex_other t
    ∧ (truthy (tex_url t) = false → tex_url t' = tex_url t);
  Rgeo g g' := geo_other g' = geo_other g;
  Rscene := eq;
  Rrand := λ _ _, True;
  Rpreview := eq;
  Rcalls := λ _ _, True;
|}.

#[local] Instance frame_preorders pick : Preorders (frame pick).
Proof.
  preorders.
  match goal with
  | Hxy : tex_url ?y = tex_url ?x, Hyz : truthy (tex_url ?y) = false → _ |- _ =>
      rewrite <- Hxy; apply Hyz; by rewrite Hxy
  end.
Qed.

Lemma frame_configureParticleSystems pick l :
  Mguar (related (frame pick)) (_configureParticleSystems l).
Proof. unfold _configureParticleSystems. guar; done. Qed.

Lemma frame_configureTransformNodes pick l :
  Mguar (related (frame pick)) (_configureTransformNodes l pick).
Proof.
  unfold _configureTransformNodes. guar; try done.
  simpl. unfold moves. repeat case_match; simpl; naive_solver.
Qed.

Lemma frame_configureSkeletons pick l :
  Mguar (related (frame pick)) (_configureSkeletons l).
Proof. unfold _configureSkeletons, bonesOf. guar; done. Qed.

Lemma frame_configureGltfTexture pick t :
  Rtex (frame pick) t (configureGltfTexture props t).
Proof.
  unfold configureGltfTexture. simpl.
  repeat case_match; simpl in *; repeat split; try done; congruence.
Qed.

Lemma frame_configureTexture pick t :
  Rtex (frame pick) t (configureTexture props t).
Proof.
  unfold configureTexture. simpl.
  repeat case_match; simpl in *; repeat split; try done; congruence.
Qed.

Lemma keepsHeap_TexturesToFiles path l : keepsHeap (TexturesToFiles path l).
Proof. done. Qed.

Lemma keepsHeap_assetsBrowser_refresh : keepsHeap assetsBrowser_refresh.
Proof. done. Qed.

Lemma keepsHeap_pathExists path : keepsHeap (pathExists path).
Proof. done. Qed.

Lemma keepsHeap_writeJSON path o sp enc : keepsHeap (writeJSON path o sp enc).
Proof. done. Qed.

Lemma frame_configureMaterialTextures pick material isGltf :
  guarantees (related (frame pick)) (_configureMaterialTextures props material isGltf).
Proof.
  unfold _configureMaterialTextures, texturesToConfigure. guar;
    auto using frame_configureGltfTexture, frame_configureTexture.
Qed.

Lemma frame_createMaterialFile pick material :
  guarantees (related (frame pick)) (_createMaterialFile props material).
Proof. unfold _createMaterialFile, readMaterial. guar; done. Qed.

Lemma frame_configureSubMaterials pick material isGltf subs :
  guarantees (related (frame pick)) (configureSubMaterials props material isGltf subs).
Proof.
  induction subs as [|[m|] subs IH]; cbn [configureSubMaterials];
    [apply g_ret| |apply g_ret].
  guar; auto using frame_configureMaterialTextures, frame_createMaterialFile; done.
Qed.

Lemma frame_configureMaterial pick material isGltf :
  guarantees (related (frame pick)) (_configureMaterial props material isGltf).
Proof.
  unfold _configureMaterial, readMaterial.
  guar; auto using frame_configureMaterialTextures, frame_createMaterialFile,
                   frame_configureSubMaterials; done.
Qed.

Lemma frame_configureMeshes pick l isGltf :
  guarantees (related (frame pick)) (_configureMeshes props l pick isGltf).
Proof.
  unfold _configureMeshes, readMesh.
  guar; auto using frame_configureMaterial; try done.
  simpl. unfold moves. repeat case_match; simpl; naive_solver.
Qed.

Lemma frame_configureImported pick result isGltf :
  guarantees (related (frame pick)) (configureImported props result pick isGltf).
Proof.
  unfold configureImported.
  guar; auto using frame_configureMeshes, frame_configureTransformNodes,
                   frame_configureSkeletons, frame_configureParticleSystems; done.
Qed.

(** ** The preview *)

Lemma start_sync_bind {X A} (m : M X) (f : X → Prog A) (h : Heap) :
  start (sync m ≫= f) h = start (f (m h).2) (m h).1.
Proof. simpl. by destruct (m h). Qed.

Lemma exec_sync_bind {X A} (m : M X) (f : X → Prog A) (w : World) :
  exec (sync m ≫= f) w = exec (f (m (heap w)).2) (mkWorld (m (heap w)).1 (disk w)).
Proof. simpl. by destruct (m (heap w)). Qed.

(** C7: a call of [computePreview] returns the placeholder, logo
    and spinner, with the component untouched, and leaves exactly
    one operation waiting: the worker's [createScenePreview] on the
    absolute path of the asset.  When the worker answers with a
    path, the image at that path becomes [state.previewImage] and
    nothing else is started. *)
Theorem computePreview_placeholder_and_one_worker_call (h : Heap) :
  ∃ k : string → Prog unit,
    start (computePreview props) h
    = (h, Returned (div [Icon "logo-babylon.svg"; div [Spinner 24]]),
       [Waiting (ExecuteFunction "createScenePreview" (absolutePath props)) k])
    ∧ ∀ (path : string) (h' : Heap),
        start (k path) h' = (set_previewImage (Some (img path)) h', Returned tt, []).
Proof. eexists. split; [reflexivity|]. done. Qed.

(** ** Material files *)

(** The name the material file is to have, for a material read as
    [m] from the store [h], [None] standing for a missing object. *)
Definition materialFileName (h : Heap) (m : option Material) : string :=
  filenamify (default (basename (absolutePath props)) (m ≫= mat_name)
              +:+ "-" +:+ default (randomId (randomIds h)) (m ≫= mat_id)
              +:+ ".material").

Definition materialFilePath (h : Heap) (m : option Material) : string :=
  join (dirname (absolutePath props)) (materialFileName h m).

(** The store [_createMaterialFile] has produced when it asks
    whether the file exists. *)
Definition beforeCheck (material : ref) (h : Heap) : Heap :=
  (start (_createMaterialFile props material) h).1.1.

Lemma start_createMaterialFile material h :
  ∃ k : bool → Prog bool,
    start (_createMaterialFile props material) h
    = (beforeCheck material h,
       Waiting (pathExists (materialFilePath h (materials h !! material))) k, [])
    ∧ (∀ h', start (k true) h' = (h', Returned false, []))
    ∧ (∀ h', ∃ k' : unit → Prog bool,
          start (k false) h'
          = (h', Waiting (writeJSON (materialFilePath h (materials h !! material))
                                    (serialize h' material) tab "utf-8") k', [])
          ∧ ∀ h'', start (k' tt) h'' = (h'', Returned true, [])).
Proof.
  unfold beforeCheck, materialFilePath, materialFileName, _createMaterialFile.
  simpl. rewrite !run_bind. unfold readMaterial, RandomId. simpl.
  destruct (materials h !! material ≫= mat_id); simpl;
    (eexists; split; [reflexivity|]; split; [done|]);
    intros h'; eexists; (split; [reflexivity|done]).
Qed.

Lemma exec_createMaterialFile material w :
  let h' := beforeCheck material (heap w) in
  let path := materialFilePath (heap w) (materials (heap w) !! material) in
  exec (_createMaterialFile props material) w
  = if bool_decide (is_Some (disk w !! path))
    then (mkWorld h' (disk w), false)
    else (mkWorld h' (<[path := JsonFile (serialize h' material) tab "utf-8"]> (disk w)),
          true).
Proof.
  unfold beforeCheck, materialFilePath, materialFileName, _createMaterialFile.
  simpl. rewrite !run_bind. unfold readMaterial, RandomId. simpl.
  destruct (materials (heap w) !! material ≫= mat_id); simpl;
    by case_bool_decide.
Qed.

(** [_createMaterialFile] awaits all it calls, so [exec] follows a run
    of the event loop. *)
Lemma createMaterialFile_run material w :
  rtc step (launch (_createMaterialFile props material ≫= λ _, mret tt) w)
           (mkConfig (exec (_createMaterialFile props material) w).1 []).
Proof.
  apply exec_is_a_run.
  unfold _createMaterialFile, mbind, Prog_bind, sync, await. simpl.
  repeat first
    [ constructor; intros
    | match goal with |- awaitsAll _ (if ?b then _ else _) => destruct b end ].
Qed.

(** C1, as amended: when [_createMaterialFile] writes a file for a
    material, the file did not exist and is the one change to the
    disk; it lies in the directory of the asset and its name is
    [filenamify] applied to the whole of the material's name, a dash,
    the material's id and [.material], the extension included, with
    the base name of the asset for a missing name and the next
    identifier of [Tools.RandomId] for a missing id. *)
Theorem created_file_is_named_after_material (material : ref) (w : World)
    (m : Material)
    (Hm : materials (heap w) !! material = Some m)
    (Hwritten : (exec (_createMaterialFile props material) w).2 = true) :
  let name := default (basename (absolutePath props)) (mat_name m) in
  let id := default (randomId (randomIds (heap w))) (mat_id m) in
  let materialFilename := filenamify (name +:+ "-" +:+ id +:+ ".material") in
  let materialPath := join (dirname (absolutePath props)) materialFilename in
  disk w !! materialPath = None
  ∧ ∃ file, disk (exec (_createMaterialFile props material) w).1
            = <[materialPath := file]> (disk w).
Proof.
  intros name id materialFilename materialPath.
  rewrite exec_createMaterialFile in Hwritten |- *.
  unfold materialFilePath, materialFileName in *. rewrite Hm in *. simpl in *.
  fold name id materialFilename materialPath in Hwritten |- *.
  case_bool_decide as Hex; [done|]. simpl. split; [|by eexists].
  by apply eq_None_not_Some.
Qed.

(** C6: a file written by [_createMaterialFile] is the JSON of
    [material.serialize()], taken on the store as it is at the
    write, with a tab as indentation and utf-8 as encoding. *)
Theorem written_file_is_serialized_material (material : ref) (w : World)
    (Hwritten : (exec (_createMaterialFile props material) w).2 = true) :
  let w' := (exec (_createMaterialFile props material) w).1 in
  ∃ path,
    disk w !! path = None
    ∧ disk w' = <[path := JsonFile (serialize (heap w') material)
                                   (String (Ascii.ascii_of_nat 9) EmptyString)
                                   "utf-8"]> (disk w).
Proof.
  cbv zeta. rewrite exec_createMaterialFile in Hwritten |- *.
  case_bool_decide as Hex; [done|]. simpl.
  eexists. split; [|reflexivity]. by apply eq_None_not_Some.
Qed.

(** C3: [_createMaterialFile] first asks whether the file it is
    about to write exists, with nothing else pending; answered
    yes, it returns [false] without asking for any write.  So when
    the file is on the disk the call returns [false] and leaves the
    disk as it is, and in every case each file already on the disk
    keeps its content. *)
Theorem existing_file_is_not_overwritten (material : ref) (w : World) :
  let path := materialFilePath (heap w) (materials (heap w) !! material) in
  let p := _createMaterialFile props material in
  (∃ k : bool → Prog bool,
      (start p (heap w)).1.2 = Waiting (pathExists path) k
      ∧ (start p (heap w)).2 = []
      ∧ ∀ h', start (k true) h' = (h', Returned false, []))
  ∧ (is_Some (disk w !! path) →
     (exec p w).2 = false ∧ disk (exec p w).1 = disk w)
  ∧ (∀ file content, disk w !! file = Some content →
                     disk (exec p w).1 !! file = Some content).
Proof.
  intros path p. repeat split.
  - destruct (start_createMaterialFile material (heap w)) as (k & Hk & Htrue & _).
    exists k. subst p. by rewrite Hk.
  - subst p. rewrite exec_createMaterialFile. fold path. by rewrite bool_decide_true.
  - subst p. rewrite exec_createMaterialFile. fold path. by rewrite bool_decide_true.
  - intros file content Hfile. subst p. rewrite exec_createMaterialFile. fold path.
    case_bool_decide as Hex; simpl; [done|].
    rewrite lookup_insert_ne; [done|]. intros <-. apply Hex. by eexists.
Qed.

(** ** Configuring a material *)

(** [_configureMaterialTextures] touches textures only. *)
Definition onlyTextures : Rels := {|
  Rmesh := eq; Rnode := eq; Rskel := eq; Rbone := eq; Rps := eq; Rmat := eq;
  Rtex := λ _ _, True;
  Rgeo := eq; Rscene := eq; Rrand := eq; Rpreview := eq; Rcalls := eq;
|}.

#[local] Instance onlyTextures_preorders : Preorders onlyTextures.
Proof. preorders. Qed.

Lemma onlyTextures_configureMaterialTextures material isGltf :
  guarantees (related onlyTextures) (_configureMaterialTextures props material isGltf).
Proof. unfold _configureMaterialTextures, texturesToConfigure. guar; done. Qed.

Lemma start_configureMaterialTextures material isGltf h :
  let h' := (start (_configureMaterialTextures props material isGltf) h).1.1 in
  materials h' = materials h ∧ randomIds h' = randomIds h.
Proof.
  destruct (guarantees_start _ _ h
              (onlyTextures_configureMaterialTextures material isGltf))
    as [[_ _ _ _ _ Hmats _ _ _ Hrand _ _] _].
  split; [symmetry; by apply list_eq_Forall2|done].
Qed.

Lemma beforeCheck_spec material h :
  let file := materialFileName h (materials h !! material) in
  materials (beforeCheck material h)
  = alter (λ m, set_mat_metadata
                  (Some (set_editorPath (join (dirname (relativePath props)) file)
                                        (orEmpty (mat_metadata m)))) m)
          material (materials h)
  ∧ randomIds h ≤ randomIds (beforeCheck material h).
Proof.
  unfold beforeCheck, materialFileName, _createMaterialFile.
  simpl. rewrite !run_bind. unfold readMaterial, RandomId. simpl.
  destruct (materials h !! material ≫= mat_id); simpl; split; done || lia.
Qed.

(** [_configureMaterial] from the call of [_configureMaterialTextures]
    on, that is once [metadata.editorDone] has been set. *)
Definition configureMarked (material : ref) (isGltf isMulti : bool) : Prog unit :=
  (if negb isMulti then fork (_configureMaterialTextures props material isGltf)
   else mret tt);;
  created ← _createMaterialFile props material;
  if negb created then mret tt
  else
    sync (modifyMaterial material (recordOriginalSourceFile props));;
    id ← sync RandomId;
    sync (modifyMaterial material (set_mat_id (Some id)));;
    finished ← (if isMulti then
                  subs ← sync (λ h, (h, default []
                             (subMaterials <$> materials h !! material)));
                  configureSubMaterials props material isGltf subs
                else mret true);
    if finished : bool then fork (await assetsBrowser_refresh) else mret tt.

Definition markDone (m : Material) : Material :=
  set_mat_metadata (Some (set_editorDone true (orEmpty (mat_metadata m)))) m.

Lemma configureMaterial_unfold material isGltf :
  _configureMaterial props material isGltf
  = (m ← sync (readMaterial material);
     if isDone (m ≫= mat_metadata) then mret tt
     else sync (modifyMaterial material markDone);;
          configureMarked material isGltf (default false (isMultiMaterial <$> m))).
Proof. reflexivity. Qed.

Lemma exec_configureMaterial_done material isGltf w m :
  materials (heap w) !! material = Some m →
  isDone (mat_metadata m) = true →
  exec (_configureMaterial props material isGltf) w = (w, tt).
Proof.
  intros Hm Hdone. rewrite configureMaterial_unfold, exec_sync_bind.
  unfold readMaterial. cbn [fst snd heap disk]. rewrite Hm. simpl.
  rewrite Hdone. by destruct w.
Qed.

Lemma exec_configureMaterial_todo material isGltf w m :
  materials (heap w) !! material = Some m →
  isDone (mat_metadata m) = false →
  exec (_configureMaterial props material isGltf) w
  = exec (configureMarked material isGltf (isMultiMaterial m))
         (mkWorld (set_materials (alter markDone material (materials (heap w)))
                                 (heap w))
                  (disk w)).
Proof.
  intros Hm Hdone. rewrite configureMaterial_unfold, exec_sync_bind.
  unfold readMaterial. cbn [fst snd heap disk]. rewrite Hm.
  cbn [mbind option_bind]. rewrite Hdone. by rewrite exec_sync_bind.
Qed.

(** C4: when the file of a material is on the disk,
    [_configureMaterial] returns with the disk as it was, the id of
    the material as it was, and [metadata.originalSourceFile] as it
    was: not recorded if it was not there. *)
Theorem existing_file_ends_configuration (material : ref) (isGltf : bool)
    (w : World) (m : Material) (content : File)
    (Hm : materials (heap w) !! material = Some m)
    (Hexists : disk w !! materialFilePath (heap w) (Some m) = Some content) :
  let w' := (exec (_configureMaterial props material isGltf) w).1 in
  disk w' = disk w
  ∧ ∃ m', materials (heap w') !! material = Some m'
          ∧ mat_id m' = mat_id m
          ∧ mat_metadata m' ≫= originalSourceFile
            = mat_metadata m ≫= originalSourceFile.
Proof.
  intros w'. subst w'.
  destruct (isDone (mat_metadata m)) eqn:Hdone.
  { rewrite (exec_configureMaterial_done _ _ _ m) by done. simpl. eauto. }
  rewrite (exec_configureMaterial_todo _ _ _ m) by done.
  set (w1 := mkWorld _ _).
  assert (Hm1 : materials (heap w1) !! material = Some (markDone m)).
  { subst w1. cbn [heap materials set_materials].
    by rewrite list_lookup_alter_eq, Hm. }
  assert (Hr1 : randomIds (heap w1) = randomIds (heap w)) by done.
  assert (Hd1 : disk w1 = disk w) by done.
  clearbody w1. unfold configureMarked. rewrite exec_bind.
  set (w2 := (exec _ w1).1).
  assert (materials (heap w2) = materials (heap w1)
          ∧ randomIds (heap w2) = randomIds (heap w1)
          ∧ disk w2 = disk w1) as (Hm2 & Hr2 & Hd2).
  { subst w2. destruct (negb _); [|done].
    rewrite exec_fork. cbn [fst heap disk].
    destruct (start_configureMaterialTextures material isGltf (heap w1)) as [? ?].
    done. }
  clearbody w2. rewrite exec_bind, exec_createMaterialFile.
  rewrite Hm2, Hm1.
  assert (Hpath : materialFilePath (heap w2) (Some (markDone m))
                  = materialFilePath (heap w) (Some m)).
  { unfold materialFilePath, materialFileName. simpl. by rewrite Hr2, Hr1. }
  rewrite Hpath. rewrite bool_decide_true by (rewrite Hd2, Hd1, Hexists; eauto).
  cbn [fst snd negb]. rewrite exec_ret. cbn [fst heap disk].
  split; [congruence|].
  destruct (beforeCheck_spec material (heap w2)) as [-> _].
  rewrite list_lookup_alter_eq, Hm2, Hm1.
  eexists. split; [reflexivity|]. simpl.
  split; [done|]. by destruct (mat_metadata m).
Qed.

(** Once set, [metadata.editorDone] stays set. *)
Definition doneKept : Rels := {|
  Rmesh := λ _ _, True; Rnode := λ _ _, True; Rskel := λ _ _, True;
  Rbone := λ _ _, True; Rps := λ _ _, True;
  Rmat m m' := isDone (mat_metadata m) = true → isDone (mat_metadata m') = true;
  Rtex := λ _ _, True; Rgeo := λ _ _, True; Rscene := λ _ _, True;
  Rrand := λ _ _, True; Rpreview := λ _ _, True; Rcalls := λ _ _, True;
|}.

#[local] Instance doneKept_preorders : Preorders doneKept.
Proof. preorders. Qed.

Lemma doneKept_lookup h h' material m :
  related doneKept h h' → materials h !! material = Some m →
  isDone (mat_metadata m) = true →
  ∃ m', materials h' !! material = Some m' ∧ isDone (mat_metadata m') = true.
Proof.
  intros [_ _ _ _ _ Hmats _ _ _ _ _ _] Hm Hdone.
  destruct (Forall2_lookup_l _ _ _ _ _ Hmats Hm) as (m' & Hm' & Hkept).
  exists m'. split; [done|by apply Hkept].
Qed.

Lemma doneKept_configureMarked material isGltf isMulti :
  guarantees (related doneKept) (configureMarked material isGltf isMulti).
Proof.
  assert (Htex : ∀ r, guarantees (related doneKept)
                        (_configureMaterialTextures props r isGltf)).
  { intros r. unfold _configureMaterialTextures, texturesToConfigure. guar; done. }
  assert (Hfile : guarantees (related doneKept) (_createMaterialFile props material)).
  { unfold _createMaterialFile, readMaterial. guar; try done.
    simpl. by destruct (mat_metadata _). }
  assert (Hrecord : ∀ x, Rmat doneKept x (recordOriginalSourceFile props x)).
  { intros x. simpl. unfold GetMaterialMetadata. by destruct (mat_metadata x). }
  assert (Hsubs : ∀ subs, guarantees (related doneKept)
                            (configureSubMaterials props material isGltf subs)).
  { induction subs as [|[r|] subs IH]; cbn [configureSubMaterials];
      [apply g_ret| |apply g_ret].
    guar; auto; by simpl. }
  unfold configureMarked. guar; auto; by simpl.
Qed.

Lemma start_ret {A} (a : A) (h : Heap) : start (mret a) h = (h, Returned a, []).
Proof. done. Qed.

(** C9: a call of [_configureMaterial] sets [metadata.editorDone] on
    the material, before its first [await]; a call on a material
    that has it set returns at once, with nothing pending and the
    store and the disk as they were; so a second call after a
    first changes nothing. *)
Theorem configureMaterial_idempotent (material : ref) (isGltf : bool)
    (w : World) (m : Material)
    (Hm : materials (heap w) !! material = Some m) :
  let p := _configureMaterial props material isGltf in
  (∃ m', materials (start p (heap w)).1.1 !! material = Some m'
         ∧ isDone (mat_metadata m') = true)
  ∧ (isDone (mat_metadata m) = true →
     start p (heap w) = (heap w, Returned tt, []) ∧ exec p w = (w, tt))
  ∧ exec p (exec p w).1 = ((exec p w).1, tt).
Proof.
  intros p. subst p.
  assert (Hmark : materials (set_materials (alter markDone material
                                              (materials (heap w))) (heap w))
                  !! material = Some (markDone m)).
  { cbn [materials set_materials]. by rewrite list_lookup_alter_eq, Hm. }
  split; [|split].
  - rewrite configureMaterial_unfold, start_sync_bind.
    unfold readMaterial. cbn [fst snd]. rewrite Hm. cbn [mbind option_bind].
    destruct (isDone (mat_metadata m)) eqn:Hdone; [by rewrite start_ret; eauto|].
    rewrite start_sync_bind.
    destruct (guarantees_start (related doneKept) _
                (modifyMaterial material markDone (heap w)).1
                (doneKept_configureMarked material isGltf
                   (default false (isMultiMaterial <$> Some m)))) as [Hrel _].
    by eapply doneKept_lookup.
  - intros Hdone. split; [|by eapply exec_configureMaterial_done].
    rewrite configureMaterial_unfold, start_sync_bind.
    unfold readMaterial. cbn [fst snd]. rewrite Hm. cbn [mbind option_bind].
    by rewrite Hdone.
  - assert (∃ m', materials (heap (exec (_configureMaterial props material isGltf)
                                        w).1) !! material = Some m'
                  ∧ isDone (mat_metadata m') = true) as (m' & Hm' & Hdone').
    { destruct (isDone (mat_metadata m)) eqn:Hdone.
      - rewrite (exec_configureMaterial_done _ _ _ m) by done. eauto.
      - rewrite (exec_configureMaterial_todo _ _ _ m) by done.
        eapply doneKept_lookup; [|exact Hmark|done].
        apply (guarantees_exec (related doneKept) _ (mkWorld _ _)).
        apply doneKept_configureMarked. }
    by eapply exec_configureMaterial_done.
Qed.

(** ** The configuration pass *)

(** C5, as amended: under every schedule of the calls it leaves
    pending, the configuration pass run on the result of an import
    changes, on every object of the scene, only [id], [name] and
    [metadata], but for the position of a mesh or transform node
    without parent, which may move when the drop has a picked
    point, and the url of a texture that has a truthy one, which
    may be replaced; the other fields, the position of any other
    node among them, are as they were. *)
Theorem configuration_keeps_other_fields (result : ImportResult)
    (pick : option PickingInfo) (isGltf : bool) (w : World) (c : Config)
    (Hrun : rtc step (launch (configureImported props result pick isGltf) w) c) :
  related (frame pick) (heap w) (heap (world c)).
Proof.
  exact (guarantees_run (related (frame pick)) _ w c
           (frame_configureImported pick result isGltf) Hrun).
Qed.

(** The same at the return of the pass, its awaits answered at once. *)
Lemma configuration_keeps_other_fields_exec result pick isGltf w :
  related (frame pick) (heap w)
          (heap (exec (configureImported props result pick isGltf) w).1).
Proof.
  exact (guarantees_exec (related (frame pick)) _ w
           (frame_configureImported pick result isGltf)).
Qed.

(** ** Skeletons *)

(** A number is in use when a skeleton of the scene has it as id. *)
Definition inUse (h : Heap) (n : nat) : Prop :=
  ∃ s sk, s ∈ scene_skeletons h ∧ skeletons h !! s = Some sk
          ∧ skel_id sk = NumberId (Z.of_nat n).

(** The smallest non-negative integer not in use. *)
Definition leastFreeId (h : Heap) (n : nat) : Prop :=
  ¬ inUse h n ∧ ∀ i, i < n → inUse h i.

(** A bone as the pass leaves it: [metadata.originalId] is its id, and
    its id was drawn from [Tools.RandomId] from the [lo]-th call on and
    before the [hi]-th. *)
Definition fresh (lo hi : nat) (b : Bone) : Prop :=
  bone_metadata b ≫= originalId = Some (bone_id b)
  ∧ ∃ k, lo ≤ k < hi ∧ bone_id b = randomId k.

Lemma hasNumberId_spec h n s :
  hasNumberId h n s = true
  ↔ ∃ sk, skeletons h !! s = Some sk ∧ skel_id sk = NumberId (Z.of_nat n).
Proof.
  unfold hasNumberId. destruct (skeletons h !! s) as [sk|].
  - destruct (skel_id sk) as [z|str] eqn:Hid.
    + rewrite bool_decide_eq_true. split.
      * intros ->. by exists sk.
      * intros (sk' & [= <-] & Hid'). congruence.
    + split; [done|]. intros (sk' & [= <-] & Hid'). congruence.
  - split; [done|]. by intros (sk' & ? & _).
Qed.

Lemma inUse_getSkeletonById h n : inUse h n ↔ is_Some (getSkeletonById h n).
Proof.
  unfold inUse, getSkeletonById. split.
  - intros (s & sk & Hin & Hsk & Hid).
    assert (Hs : s ∈ filter (λ s, hasNumberId h n s = true) (scene_skeletons h)).
    { apply list_elem_of_filter. split; [|done]. apply hasNumberId_spec. eauto. }
    destruct (filter _ _) as [|x l]; [by apply elem_of_nil in Hs|]. by eexists.
  - intros [s Hs]. apply head_Some_elem_of in Hs.
    apply list_elem_of_filter in Hs as [Hhas Hin].
    apply hasNumberId_spec in Hhas as (sk & ? & ?). eauto.
Qed.

(** The search stops at the first number from [id] on that is free. *)
Lemma freeSkeletonId_spec h id :
  id ≤ freeSkeletonId h id
  ∧ ¬ inUse h (freeSkeletonId h id)
  ∧ ∀ i, id ≤ i < freeSkeletonId h id → inUse h i.
Proof.
  funelim (freeSkeletonId h id).
  - match goal with IH : _ ≤ freeSkeletonId _ _ ∧ _ |- _ =>
      destruct IH as (Hle & Hfree & Hbelow) end.
    split; [lia|]. split; [done|].
    intros i Hi. destruct (decide (i = id)) as [->|].
    + apply inUse_getSkeletonById. by eexists.
    + apply Hbelow. lia.
  - split; [done|]. split; [|lia].
    rewrite inUse_getSkeletonById.
    match goal with Hnone : getSkeletonById _ _ = None |- _ => rewrite Hnone end.
    by intros [? ?].
Qed.

Lemma freeSkeletonId_least h : leastFreeId h (freeSkeletonId h 0).
Proof.
  destruct (freeSkeletonId_spec h 0) as (_ & Hfree & Hbelow).
  split; [done|]. intros i Hi. apply Hbelow. lia.
Qed.

(** The two loop bodies of [_configureSkeletons]. *)
Definition assignBone (id : string) (b : Bone) : Bone :=
  let b := set_bone_id id b in
  set_bone_metadata (Some (set_originalId (bone_id b) (orEmpty (bone_metadata b)))) b.

Definition boneStep (b : ref) : M unit :=
  id ← RandomId; modifyBone b (assignBone id).

Definition skeletonStep (s : ref) : M unit :=
  id ← (λ h, (h, freeSkeletonId h 0));
  modifySkeleton s (set_skel_id (NumberId (Z.of_nat id)));;
  bones ← bonesOf s;
  forEach bones boneStep.

Lemma configureSkeletons_unfold l : _configureSkeletons l = forEach l skeletonStep.
Proof. reflexivity. Qed.

Lemma forEach_cons {X} (x : X) (l : list X) (body : X → M unit) (h : Heap) :
  forEach (x :: l) body h = forEach l body (body x h).1.
Proof. cbn [forEach]. by rewrite run_bind. Qed.

Lemma forEach_nil {X} (body : X → M unit) (h : Heap) : forEach [] body h = (h, tt).
Proof. done. Qed.

Lemma fresh_widen lo hi lo' hi' b :
  fresh lo hi b → lo' ≤ lo → hi ≤ hi' → fresh lo' hi' b.
Proof. intros [Horig (k & Hk & Hid)] ??. split; [done|]. exists k. split; [lia|done]. Qed.

Lemma fresh_assignBone n b : fresh n (S n) (assignBone (randomId n) b).
Proof. split; [done|]. exists n. split; [lia|done]. Qed.

Lemma bones_loop (bs : list ref) (h : Heap) :
  let h' := (forEach bs boneStep h).1 in
  skeletons h' = skeletons h
  ∧ scene_skeletons h' = scene_skeletons h
  ∧ randomIds h ≤ randomIds h'
  ∧ ∀ b, (b ∉ bs → bones h' !! b = bones h !! b)
         ∧ (b ∈ bs → ∀ bone, bones h' !! b = Some bone →
                             fresh (randomIds h) (randomIds h') bone).
Proof.
  revert h. induction bs as [|a bs IH]; intros h.
  - simpl. split; [done|]. split; [done|]. split; [done|].
    intros b. split; [done|]. by intros ?%elem_of_nil.
  - cbn zeta. rewrite forEach_cons.
    set (h1 := (boneStep a h).1).
    assert (Hsk1 : skeletons h1 = skeletons h) by done.
    assert (Hsc1 : scene_skeletons h1 = scene_skeletons h) by done.
    assert (Hr1 : randomIds h1 = S (randomIds h)) by done.
    assert (Hb1 : bones h1 = alter (assignBone (randomId (randomIds h))) a (bones h))
      by done.
    clearbody h1.
    destruct (IH h1) as (Hsk & Hsc & Hr & Hb).
    split; [congruence|]. split; [congruence|]. split; [lia|].
    intros b. destruct (Hb b) as [Hout Hin]. split.
    + intros Hnotin. apply not_elem_of_cons in Hnotin as [Hne Hnotin].
      rewrite Hout, Hb1 by done. by rewrite list_lookup_alter_ne.
    + intros Hb' bone Hbone. destruct (decide (b ∈ bs)) as [Hbs|Hbs].
      * eapply fresh_widen; [by apply Hin|lia|lia].
      * apply elem_of_cons in Hb' as [->|?]; [|done].
        rewrite Hout, Hb1, list_lookup_alter_eq in Hbone by done.
        destruct (bones h !! a) as [bone0|]; [|done].
        injection Hbone as <-.
        eapply fresh_widen; [apply fresh_assignBone|lia|lia].
Qed.

Lemma skeletonStep_spec (s : ref) (h : Heap) :
  let h' := (skeletonStep s h).1 in
  let bs := default [] (skel_bones <$> skeletons h !! s) in
  skeletons h' = alter (set_skel_id (NumberId (Z.of_nat (freeSkeletonId h 0)))) s
                       (skeletons h)
  ∧ scene_skeletons h' = scene_skeletons h
  ∧ randomIds h ≤ randomIds h'
  ∧ ∀ b, (b ∉ bs → bones h' !! b = bones h !! b)
         ∧ (b ∈ bs → ∀ bone, bones h' !! b = Some bone →
                             fresh (randomIds h) (randomIds h') bone).
Proof.
  intros h' bs.
  set (h1 := set_skeletons
               (alter (set_skel_id (NumberId (Z.of_nat (freeSkeletonId h 0)))) s
                      (skeletons h)) h).
  assert (Hbs : default [] (skel_bones <$> skeletons h1 !! s) = bs).
  { subst h1 bs. cbn [skeletons set_skeletons].
    rewrite list_lookup_alter_eq. by destruct (skeletons h !! s). }
  assert (Hstep : h' = (forEach bs boneStep h1).1).
  { subst h'. unfold skeletonStep. rewrite !run_bind.
    unfold bonesOf, modifySkeleton. cbn [fst snd]. fold h1. by rewrite Hbs. }
  rewrite Hstep.
  destruct (bones_loop bs h1) as (Hsk & Hsc & Hr & Hb).
  split; [by rewrite Hsk|]. split; [by rewrite Hsc|]. split; done.
Qed.

Lemma lookup_alter_skel_bones f s s' (l : list Skeleton) :
  (∀ sk, skel_bones (f sk) = skel_bones sk) →
  skel_bones <$> alter f s l !! s' = skel_bones <$> l !! s'.
Proof.
  intros Hf. destruct (decide (s = s')) as [->|Hne].
  - rewrite list_lookup_alter_eq. destruct (l !! s'); simpl; by rewrite ?Hf.
  - by rewrite list_lookup_alter_ne.
Qed.

Lemma skeleton_loop (l : list ref) (h : Heap) :
  let h' := (forEach l skeletonStep h).1 in
  scene_skeletons h' = scene_skeletons h
  ∧ randomIds h ≤ randomIds h'
  ∧ (∀ s, s ∉ l → skeletons h' !! s = skeletons h !! s)
  ∧ (∀ s, skel_bones <$> skeletons h' !! s = skel_bones <$> skeletons h !! s)
  ∧ (∀ b bone, bones h' !! b = Some bone →
               bones h !! b = Some bone ∨ fresh (randomIds h) (randomIds h') bone)
  ∧ (∀ s sk b bone, s ∈ l → skeletons h !! s = Some sk → b ∈ skel_bones sk →
                    bones h' !! b = Some bone →
                    fresh (randomIds h) (randomIds h') bone).
Proof.
  revert h. induction l as [|a l IH]; intros h.
  - simpl. split; [done|]. split; [done|]. split; [done|]. split; [done|].
    split; [by left|]. by intros ???? ?%elem_of_nil.
  - cbn zeta. rewrite forEach_cons.
    destruct (skeletonStep_spec a h) as (Hsk1 & Hsc1 & Hr1 & Hb1).
    set (h1 := (skeletonStep a h).1) in *. clearbody h1.
    assert (Hbones1 : ∀ s, skel_bones <$> skeletons h1 !! s
                           = skel_bones <$> skeletons h !! s).
    { intros s. rewrite Hsk1. by apply lookup_alter_skel_bones. }
    destruct (IH h1) as (Hsc & Hr & Hout & Hbones & Hany & Hin).
    split; [congruence|]. split; [lia|]. split; [|split; [|split]].
    + intros s [Hne Hnotin]%not_elem_of_cons.
      rewrite Hout, Hsk1 by done. by rewrite list_lookup_alter_ne.
    + intros s. by rewrite Hbones, Hbones1.
    + intros b bone Hbone. destruct (Hany b bone Hbone) as [Hsame|Hfresh].
      * destruct (decide (b ∈ default [] (skel_bones <$> skeletons h !! a)))
          as [Hb|Hb].
        -- right. eapply fresh_widen; [by apply (Hb1 b)|lia|lia].
        -- left. destruct (Hb1 b) as [<- _]; done.
      * right. eapply fresh_widen; [done|lia|lia].
    + intros s sk b bone Hs Hsk Hb Hbone.
      destruct (decide (s ∈ l)) as [Hl|Hl].
      * pose proof (Hbones1 s) as Hs1. rewrite Hsk in Hs1.
        destruct (skeletons h1 !! s) as [sk1|] eqn:Hsk1'; [|done].
        injection Hs1 as Hs1.
        eapply fresh_widen; [eapply (Hin s sk1 b bone); by rewrite ?Hs1|lia|lia].
      * apply elem_of_cons in Hs as [->|?]; [|done].
        assert (Hba : b ∈ default [] (skel_bones <$> skeletons h !! a))
          by by rewrite Hsk.
        destruct (Hany b bone Hbone) as [Hsame|Hfresh].
        -- eapply fresh_widen; [by apply (Hb1 b)|lia|lia].
        -- eapply fresh_widen; [done|lia|lia].
Qed.

Lemma skeleton_loop_ids (l : list ref) (h : Heap) :
  NoDup l → (∀ s, s ∈ l → is_Some (skeletons h !! s)) →
  ∀ i s, l !! i = Some s →
    skel_id <$> skeletons (forEach l skeletonStep h).1 !! s
    = Some (NumberId (Z.of_nat
              (freeSkeletonId (forEach (take i l) skeletonStep h).1 0))).
Proof.
  revert h. induction l as [|a l IH]; intros h Hnd Hvalid i s Hi; [done|].
  apply NoDup_cons in Hnd as [Ha Hnd]. rewrite forEach_cons.
  destruct (skeletonStep_spec a h) as (Hsk1 & _).
  set (h1 := (skeletonStep a h).1) in *.
  destruct i as [|i]; simpl in Hi.
  - injection Hi as <-. cbn [take]. rewrite forEach_nil. cbn [fst].
    destruct (skeleton_loop l h1) as (_ & _ & Hout & _).
    rewrite Hout, Hsk1, list_lookup_alter_eq by done.
    destruct (Hvalid a) as [sk ->]; [by left|]. done.
  - cbn [take]. rewrite forEach_cons. fold h1. apply IH; [done| |done].
    intros s' Hs'. rewrite Hsk1.
    destruct (Hvalid s') as [sk Hsk]; [by right|].
    destruct (decide (a = s')) as [->|Hne].
    + rewrite list_lookup_alter_eq, Hsk. by eexists.
    + rewrite list_lookup_alter_ne, Hsk by done. by eexists.
Qed.

(** C10: let the imported skeletons be distinct objects registered in
    the scene.  After [_configureSkeletons], each of them has as id the
    smallest number that no skeleton of the scene had as id when the
    loop reached it; these ids are pairwise distinct; and each bone of
    each of them has [metadata.originalId] equal to its id, an
    identifier drawn from [Tools.RandomId] during the call. *)
Theorem configureSkeletons_ids_and_bones (imported : list ref) (h : Heap)
    (Hdistinct : NoDup imported)
    (Hscene : ∀ s, s ∈ imported →
                   s ∈ scene_skeletons h ∧ is_Some (skeletons h !! s)) :
  let h' := (_configureSkeletons imported h).1 in
  (∀ i s, imported !! i = Some s →
     ∃ n, leastFreeId (_configureSkeletons (take i imported) h).1 n
          ∧ skel_id <$> skeletons h' !! s = Some (NumberId (Z.of_nat n)))
  ∧ (∀ i j s t, i ≠ j → imported !! i = Some s → imported !! j = Some t →
       skel_id <$> skeletons h' !! s ≠ skel_id <$> skeletons h' !! t)
  ∧ (∀ s sk b bone,
       s ∈ imported → skeletons h !! s = Some sk → b ∈ skel_bones sk →
       bones h' !! b = Some bone →
       bone_metadata bone ≫= originalId = Some (bone_id bone)
       ∧ ∃ k, randomIds h ≤ k < randomIds h' ∧ bone_id bone = randomId k).
Proof.
  intros h'. subst h'. rewrite configureSkeletons_unfold.
  assert (Hvalid : ∀ s, s ∈ imported → is_Some (skeletons h !! s))
    by (intros s Hs; by apply Hscene).
  pose proof (skeleton_loop_ids imported h Hdistinct Hvalid) as Hids.
  assert (Hlt : ∀ i j s t, i < j → imported !! i = Some s → imported !! j = Some t →
            freeSkeletonId (forEach (take i imported) skeletonStep h).1 0
            ≠ freeSkeletonId (forEach (take j imported) skeletonStep h).1 0).
  { intros i j s t Hij Hi Hj Heq.
    set (hj := (forEach (take j imported) skeletonStep h).1) in *.
    destruct (freeSkeletonId_least hj) as [Hfree _]. apply Hfree.
    rewrite <- Heq.
    assert (Hs : skel_id <$> skeletons hj !! s
                 = Some (NumberId (Z.of_nat
                     (freeSkeletonId (forEach (take i imported) skeletonStep h).1 0)))).
    { subst hj.
      assert (Hnd : NoDup (take j imported))
        by (eapply sublist_NoDup; [done|apply sublist_take]).
      assert (Hval : ∀ s', s' ∈ take j imported → is_Some (skeletons h !! s'))
        by (intros s' Hs'; apply Hvalid; by eapply subseteq_take).
      assert (Hij' : take j imported !! i = Some s) by by rewrite lookup_take_lt.
      pose proof (skeleton_loop_ids (take j imported) h Hnd Hval i s Hij') as Hs.
      by rewrite take_take, Nat.min_l in Hs by lia. }
    destruct (skeletons hj !! s) as [sk|] eqn:Hsk; [|done].
    injection Hs as Hs. exists s, sk. split; [|done].
    destruct (skeleton_loop (take j imported) h) as (Hsc & _).
    fold hj in Hsc. rewrite Hsc.
    apply Hscene. by eapply list_elem_of_lookup_2. }
  split; [|split].
  - intros i s Hi. eexists. split; [apply freeSkeletonId_least|].
    rewrite configureSkeletons_unfold. by apply Hids.
  - intros i j s t Hij Hi Hj.
    rewrite (Hids i s Hi), (Hids j t Hj). intros [= Heq%Nat2Z.inj].
    destruct (decide (i < j)).
    + by eapply (Hlt i j).
    + eapply (Hlt j i); [lia|done|done|done].
  - intros s sk b bone Hs Hsk Hb Hbone.
    destruct (skeleton_loop imported h) as (_ & _ & _ & _ & _ & Hfresh).
    by eapply Hfresh.
Qed.

End Claims.

Lemma created_file_is_named_after_material_witness :
  disk Example.emptyDisk !! "/project/assets/wood-m1.material" = None
  ∧ ∃ file, disk Example.writtenDisk
            = <["/project/assets/wood-m1.material" := file]> (disk Example.emptyDisk).
Proof.
  exact (created_file_is_named_after_material Example.props 0 Example.emptyDisk
           (@mkMaterial Example.values (Some "wood") (Some "m1") None false [] [0]
                        "standard") eq_refl eq_refl).
Defined.

(** The name of a material file in the words of the spec:
    [filenamify(name-id)] followed by [.material]. *)
Definition fileName_in_the_spec `{V : Values} `{E : !Externals} (props : Props)
    (h : Heap) (m : Material) : string :=
  filenamify (default (basename (absolutePath props)) (mat_name m)
              +:+ "-" +:+ default (randomId (randomIds h)) (mat_id m))
  +:+ ".material".

(** C1 as stated fails for a long name.  [filenamify] receives the
    extension with the name and the id, and keeps 100 characters: of a
    name of 95 characters and the id [m1] it leaves the name, the id
    and [.m], so the file that is written does not end in [.material],
    and no file is written under the name the spec gives. *)
Lemma long_name_loses_the_extension_counterexample :
  let name := "weathered-sandstone-wall-with-moss-and-lichen-baked-from-the-high-resolution-photogrammetry-set" in
  let m := @mkMaterial Example.values (Some name) (Some "m1") None false [] []
                       "standard" in
  let w := mkWorld (set_materials [m] Example.scene) ∅ in
  let written := exec (_createMaterialFile Example.props 0) w in
  String.length name = 95
  ∧ written.2 = true
  ∧ map_to_list (disk written.1)
    = [("/project/assets/" +:+ name +:+ "-m1.m", JsonFile (name +:+ "#m1") tab "utf-8")]
  ∧ fileName_in_the_spec Example.props (heap w) m = name +:+ "-m1.material"
  ∧ disk written.1 !! ("/project/assets/" +:+ name +:+ "-m1.material") = None.
Proof. cbv zeta. repeat split; vm_compute; reflexivity. Qed.

Lemma written_file_is_serialized_material_witness :
  ∃ path,
    disk Example.emptyDisk !! path = None
    ∧ disk Example.writtenDisk
      = <[path := JsonFile (serialize (heap Example.writtenDisk) 0)
                           (String (Ascii.ascii_of_nat 9) EmptyString) "utf-8"]>
          (disk Example.emptyDisk).
Proof.
  apply (written_file_is_serialized_material Example.props 0 Example.emptyDisk).
  reflexivity.
Defined.

Lemma existing_file_is_not_overwritten_witness :
  (exec (_createMaterialFile Example.props 0) Example.writtenDisk).2 = false
  ∧ disk (exec (_createMaterialFile Example.props 0) Example.writtenDisk).1
    = disk Example.writtenDisk.
Proof.
  apply (existing_file_is_not_overwritten Example.props 0 Example.writtenDisk).
  eexists. vm_compute. reflexivity.
Defined.

Lemma existing_file_ends_configuration_witness :
  disk (exec (_configureMaterial Example.props 0 false) Example.writtenDisk).1
  = disk Example.writtenDisk
  ∧ ∃ m', materials (heap (exec (_configureMaterial Example.props 0 false)
                                Example.writtenDisk).1) !! 0 = Some m'
          ∧ mat_id m' = Some "m1"
          ∧ mat_metadata m' ≫= originalSourceFile = None.
Proof.
  exact (existing_file_ends_configuration Example.props 0 false Example.writtenDisk
           (@mkMaterial Example.values (Some "wood") (Some "m1")
              (Some (mkMetadata false (Some "assets/wood-m1.material") None None None ∅))
              false [] [0] "standard")
           (JsonFile "wood#m1" (String (Ascii.ascii_of_nat 9) EmptyString) "utf-8")
           eq_refl eq_refl).
Defined.

Lemma configureMaterial_idempotent_witness :
  let p := _configureMaterial Example.props 0 true in
  (∃ m', materials (start p Example.scene).1.1 !! 0 = Some m'
         ∧ isDone (mat_metadata m') = true)
  ∧ exec p (exec p Example.emptyDisk).1 = ((exec p Example.emptyDisk).1, tt).
Proof.
  destruct (configureMaterial_idempotent Example.props 0 true Example.emptyDisk
              (@mkMaterial Example.values (Some "wood") (Some "m1") None false [] [0]
                           "standard") eq_refl) as (Hfirst & _ & Hagain).
  exact (conj Hfirst Hagain).
Defined.

Lemma configuration_keeps_other_fields_witness :
  let c := launch (configureImported Example.props (mkImportResult [0] [] [0; 1] [0])
                     Example.drop false) Example.emptyDisk in
  rtc step c (run 3 c)
  ∧ tasks (run 3 c) = []
  ∧ related (frame Example.drop) Example.scene (heap (world (run 3 c))).
Proof.
  intros c.
  assert (Hrun : rtc step c (run 3 c)) by apply run_steps.
  split; [exact Hrun|]. split; [reflexivity|].
  exact (configuration_keeps_other_fields Example.props _ _ _
           Example.emptyDisk (run 3 c) Hrun).
Defined.

(** C5 as stated fails: the box of the example has no parent and is
    dropped on the point (1, 2, 3), and its texture has a url.  Once
    [onDropInPreview] has configured the import, before any pending
    call resumes, the box has moved and the url has changed. *)
Lemma dropped_mesh_moves_counterexample :
  let c := launch (configureImported Example.props (mkImportResult [0] [] [0; 1] [0])
                     Example.drop false) Example.emptyDisk in
  (mesh_position <$> meshes Example.scene !! 0 = Some (mkVector3 0 0 0)%Z
   ∧ mesh_position <$> meshes (heap (world c)) !! 0 = Some (mkVector3 1 2 3)%Z)
  ∧ (tn_position <$> transformNodes Example.scene !! 0 = Some (mkVector3 0 0 0)%Z
     ∧ tn_position <$> transformNodes (heap (world c)) !! 0
       = Some (mkVector3 1 2 3)%Z)
  ∧ (tex_url <$> textures Example.scene !! 0 = Some (Some "wood.png")
     ∧ tex_url <$> textures (heap (world c)) !! 0 = Some (Some "assets/wood.png")).
Proof. vm_compute. done. Qed.

Lemma configureSkeletons_ids_and_bones_witness :
  let h' := (_configureSkeletons [0; 1] Example.scene).1 in
  NoDup [0; 1]
  ∧ skel_id <$> skeletons h' !! 0 ≠ skel_id <$> skeletons h' !! 1
  ∧ ∃ n, leastFreeId (_configureSkeletons [0] Example.scene).1 n
         ∧ skel_id <$> skeletons h' !! 1 = Some (NumberId (Z.of_nat n)).
Proof.
  intros h'.
  assert (Hdistinct : NoDup [0; 1]) by (by apply (bool_decide_unpack _); vm_compute).
  assert (Hscene : ∀ s, s ∈ [0; 1] →
            s ∈ scene_skeletons Example.scene
            ∧ is_Some (skeletons Example.scene !! s)).
  { intros s Hs. apply elem_of_cons in Hs as [->|Hs].
    - split; [by left|by eexists].
    - apply list_elem_of_singleton in Hs as ->.
      split; [by right; left|by eexists]. }
  destruct (configureSkeletons_ids_and_bones [0; 1] Example.scene
              Hdistinct Hscene) as (Hleast & Hdiff & _).
  split; [exact Hdistinct|]. split.
  - exact (Hdiff 0 1 0 1 (O_S 0) eq_refl eq_refl).
  - exact (Hleast 1 1 eq_refl).
Defined.

(** ** The example, run *)

(** The drop of the example, configured, and its pending calls resumed
    oldest first until none is left. *)
Definition dropped : Config :=
  run 3 (launch (configureImported Example.props (mkImportResult [0] [] [0; 1] [0])
                   Example.drop false) Example.emptyDisk).

Example dropped_is_finished : tasks dropped = [].
Proof. reflexivity. Qed.

Example dropped_material_file :
  map_to_list (disk (world dropped))
  = [("/project/assets/wood-m1.material", JsonFile "wood#m1" tab "utf-8")].
Proof. vm_compute. reflexivity. Qed.

Example dropped_material :
  (λ m, (mat_id m, mat_metadata m ≫= editorPath,
         sf_id <$> (mat_metadata m ≫= originalSourceFile)))
    <$> materials (heap (world dropped)) !! 0
  = Some (Some "id5", Some "assets/wood-m1.material", Some (Some "m1")).
Proof. vm_compute. reflexivity. Qed.

Example dropped_skeletons :
  skel_id <$> skeletons (heap (world dropped)) = [NumberId 1; NumberId 0].
Proof. vm_compute. reflexivity. Qed.

Example dropped_bones :
  (λ b, (bone_id b, bone_metadata b ≫= originalId))
    <$> bones (heap (world dropped))
  = [("id3", Some "id3"); ("id4", Some "id4")].
Proof. vm_compute. reflexivity. Qed.

(** The whole of [onDropInPreview] on the same drop: the import, the
    configuration, and the pending calls resumed oldest first. *)
Example onDropInPreview_example :
  let c := run 4 (launch (onDropInPreview Example.props Example.drop)
                         Example.emptyDisk) in
  tasks c = []
  ∧ mesh_position <$> meshes (heap (world c)) !! 0 = Some (mkVector3 1 2 3)%Z
  ∧ calls (heap (world c)) = [stopAllAnimations; graph_refresh; assets_refresh]
  ∧ disk (world c) = disk (world dropped).
Proof. cbv zeta. split; [|split; [|split]]; vm_compute; reflexivity. Qed.

(** ** Beyond the calls that return at once

    More about runs: sequences, programs that never wait themselves,
    and what a program may await. *)

Section Schedules.
Context `{V : Values} `{E : !Externals}.

(** [start] on a sequence. *)
Lemma start_bind {A B} (p : Prog A) (f : A → Prog B) (h : Heap) :
  start (p ≫= f) h
  = match start p h with
    | (h1, Returned a, ts1) =>
        let '(h2, o, ts2) := start (f a) h1 in (h2, o, ts1 ++ ts2)
    | (h1, Waiting io k, ts1) => (h1, Waiting io (λ x, k x ≫= f), ts1)
    end.
Proof.
  revert B f h.
  induction p as [A a|A X m k IH|A X io k IH|A child _ k IH]; intros B f h;
    unfold mbind, Prog_bind in *; simpl.
  - by destruct (start (f a) h) as [[h2 o] ts2].
  - destruct (m h) as [h' x]. apply IH.
  - done.
  - destruct (start child h) as [[h1 o1] ts1]. rewrite IH.
    destruct (start k h1) as [[h2 [a|X io k']] ts2].
    + destruct (start (f a) h2) as [[h3 o3] ts3]. by rewrite !app_assoc.
    + done.
Qed.

(** A program that never awaits: it makes synchronous steps and
    calls whose promise it drops, each of which keeps to [G]. *)
Inductive forksOnly (G : relation Heap) : ∀ A, Prog A → Prop :=
| fo_ret {A} (a : A) : forksOnly G A (Ret a)
| fo_sync {A X} (m : M X) (k : X → Prog A) :
    (∀ x, forksOnly G A (k x)) → forksOnly G A (Sync m k)
| fo_fork {A} (child : Prog unit) (k : Prog A) :
    guarantees G child → forksOnly G A k → forksOnly G A (Fork child k).
Arguments forksOnly G {A} p.

Section ForksOnly.
Context (G : relation Heap) `{!PreOrder G}.

Lemma forksOnly_bind {A B} (p : Prog A) (f : A → Prog B) :
  forksOnly G p → (∀ a, forksOnly G (f a)) → forksOnly G (p ≫= f).
Proof.
  intros Hp Hf. unfold mbind, Prog_bind.
  induction Hp; simpl; try constructor; auto.
Qed.

Lemma forksOnly_sync {X} (m : M X) : forksOnly G (sync m).
Proof. constructor. intros; constructor. Qed.

Lemma forksOnly_fork (child : Prog unit) :
  guarantees G child → forksOnly G (fork child).
Proof. intros. constructor; [done|]. constructor. Qed.

Lemma forksOnly_forEach {X} (l : list X) (body : X → Prog unit) :
  (∀ x, forksOnly G (body x)) → forksOnly G (forEach l body).
Proof.
  intros Hb. induction l as [|x l IH]; simpl.
  - constructor.
  - apply forksOnly_bind; auto.
Qed.

(** Such a program returns at once, and what it leaves pending keeps to [G]. *)
Lemma forksOnly_start {A} (p : Prog A) (h : Heap) :
  forksOnly G p →
  (∃ a, (start p h).1.2 = Returned a) ∧ Forall (outcome_ok G) (start p h).2.
Proof.
  intros Hp. revert h.
  induction Hp as [A a|A X m k _ IH|A child k Hc _ IHk]; intros h; simpl.
  - split; [by eexists|constructor].
  - destruct (m h) as [h' x]. apply IH.
  - destruct (guarantees_start G child h Hc) as (_ & Hc2 & Hc3).
    destruct (start child h) as [[h1 o1] ts1]. simpl in *.
    destruct (IHk h1) as (Hk1 & Hk2).
    destruct (start k h1) as [[h2 o2] ts2]. simpl in *.
    split; [done|]. rewrite !Forall_app. split; [done|]. split; [|done].
    destruct o1; simpl; by constructor.
Qed.

(** From any configuration whose tasks keep to [G]. *)
Lemma guarantees_from (c c' : Config) :
  Forall (outcome_ok G) (tasks c) → rtc step c c' →
  G (heap (world c)) (heap (world c')) ∧ Forall (outcome_ok G) (tasks c').
Proof.
  intros Hts Hrun. revert c' Hrun. apply rtc_ind_r.
  - split; [reflexivity|done].
  - intros c1 c2 _ Hstep [IH1 IH2].
    destruct (guarantees_step G _ _ IH2 Hstep) as [H1 H2].
    split; [by etrans|done].
Qed.

(** Under every schedule, the store reached from the launch of such a
    program is [G]-related to the store at its return. *)
Lemma forksOnly_run (p : Prog unit) (w : World) (c : Config) :
  forksOnly G p → rtc step (launch p w) c →
  G (start p (heap w)).1.1 (heap (world c)).
Proof.
  intros Hp Hrun.
  destruct (forksOnly_start p (heap w) Hp) as [[a Ha] Hts].
  unfold launch in Hrun.
  destruct (start p (heap w)) as [[h o] ts]. simpl in *. subst o.
  apply (guarantees_from _ _) in Hrun as [? _]; [done|].
  simpl. by rewrite app_nil_r.
Qed.
End ForksOnly.

End Schedules.
Arguments forksOnly {_ _} G {A} p.

Section Awaits.
Context `{V : Values} `{E : !Externals}.

(** ** What a program awaits

    [allowed] holds of the operations a program may await, and
    [answers] of the answers it may count on.  A program keeps to them
    when every operation it or a call it makes comes to await is
    allowed, provided every answer received so far was among those
    counted on. *)
Section AwaitsOnly.
Context (allowed : ∀ X, IO X → Prop) (answers : ∀ X, IO X → X → Prop).

Inductive awaitsOnly : ∀ A, Prog A → Prop :=
| ao_ret {A} (a : A) : awaitsOnly A (Ret a)
| ao_sync {A X} (m : M X) (k : X → Prog A) :
    (∀ h, awaitsOnly A (k (m h).2)) → awaitsOnly A (Sync m k)
| ao_await {A X} (io : IO X) (k : X → Prog A) :
    allowed X io → (∀ x, answers X io x → awaitsOnly A (k x)) →
    awaitsOnly A (Await io k)
| ao_fork {A} (child : Prog unit) (k : Prog A) :
    awaitsOnly unit child → awaitsOnly A k → awaitsOnly A (Fork child k).

Definition outcome_awaits {A} (o : Outcome A) : Prop :=
  match o with
  | Returned _ => True
  | Waiting io k => allowed _ io ∧ ∀ x, answers _ io x → awaitsOnly A (k x)
  end.

Lemma awaitsOnly_bind {A B} (p : Prog A) (f : A → Prog B) :
  awaitsOnly A p → (∀ a, awaitsOnly B (f a)) → awaitsOnly B (p ≫= f).
Proof.
  intros Hp Hf. unfold mbind, Prog_bind.
  induction Hp; simpl; try constructor; auto.
Qed.

Lemma awaitsOnly_sync {X} (m : M X) : awaitsOnly X (sync m).
Proof. constructor. intros; constructor. Qed.

Lemma awaitsOnly_await {X} (io : IO X) : allowed X io → awaitsOnly X (await io).
Proof. intros. constructor; [done|]. intros; constructor. Qed.

Lemma awaitsOnly_fork (child : Prog unit) :
  awaitsOnly unit child → awaitsOnly unit (fork child).
Proof. intros. constructor; [done|]. constructor. Qed.

Lemma awaitsOnly_forEach {X} (l : list X) (body : X → Prog unit) :
  (∀ x, awaitsOnly unit (body x)) → awaitsOnly unit (forEach l body).
Proof.
  intros Hb. induction l as [|x l IH]; simpl.
  - constructor.
  - apply awaitsOnly_bind; auto.
Qed.

Lemma awaitsOnly_start {A} (p : Prog A) (h : Heap) :
  awaitsOnly A p →
  outcome_awaits (start p h).1.2 ∧ Forall outcome_awaits (start p h).2.
Proof.
  intros Hp. revert h.
  induction Hp as [A a|A X m k _ IH|A X io k Hio Hk _|A child k _ IHc _ IHk];
    intros h; simpl.
  - by split.
  - specialize (IH h). destruct (m h) as [h' x]. apply IH.
  - split; [by split|constructor].
  - destruct (IHc h) as (Hc2 & Hc3).
    destruct (start child h) as [[h1 o1] ts1]. simpl in *.
    destruct (IHk h1) as (Hk2 & Hk3).
    destruct (start k h1) as [[h2 o2] ts2]. simpl in *.
    split; [done|].
    rewrite !Forall_app. split; [done|]. split; [|done].
    destruct o1; simpl; by constructor.
Qed.

(** [Inv] is a property of the disk that the allowed operations keep
    and under which their answers are among those counted on. *)
Context (Inv : gmap string File → Prop).
Hypothesis answer_ok : ∀ X (io : IO X) w,
  Inv (disk w) → allowed X io →
  answers X io (answer io w).2 ∧ Inv (disk (answer io w).1).

Lemma awaitsOnly_step (c c' : Config) :
  Inv (disk (world c)) → Forall outcome_awaits (tasks c) → step c c' →
  Inv (disk (world c')) ∧ Forall outcome_awaits (tasks c').
Proof.
  intros Hinv Hts Hstep.
  destruct Hstep as [w ts1 ts2 X io k w' x h' o ts Hans Hstart]. simpl in *.
  rewrite Forall_app, Forall_cons in Hts. destruct Hts as (Hts1 & [Hio Hk] & Hts2).
  destruct (answer_ok X io w Hinv Hio) as [Hx Hinv']. rewrite Hans in Hx, Hinv'.
  destruct (awaitsOnly_start (k x) (heap w') (Hk x Hx)) as (H2 & H3).
  rewrite Hstart in H2, H3. simpl in *.
  split; [done|].
  rewrite !Forall_app. repeat split; try done.
  destruct o; simpl; by constructor.
Qed.

Lemma awaitsOnly_run (p : Prog unit) (w : World) (c : Config) :
  Inv (disk w) → awaitsOnly unit p → rtc step (launch p w) c →
  Inv (disk (world c)) ∧ Forall outcome_awaits (tasks c).
Proof.
  intros Hinv Hp Hrun. revert c Hrun. apply rtc_ind_r.
  - destruct (awaitsOnly_start p (heap w) Hp) as (H2 & H3).
    unfold launch. destruct (start p (heap w)) as [[h o] ts]. simpl in *.
    split; [done|]. rewrite Forall_app. split; [done|].
    destruct o; simpl; by constructor.
  - intros c c' _ Hstep [IH1 IH2]. by eapply awaitsOnly_step.
Qed.
End AwaitsOnly.

(** ** What is written to the disk

    [D] holds of paths known to carry a file, and [Q] of the objects
    that may be written.  A program may write only where [D] does not
    hold, and only objects in [Q], indented by a tab and encoded in
    utf-8; it may not call [GLTFTools.TexturesToFiles], of which
    nothing is known but that it writes.  It may count on [pathExists]
    not to answer [false] where [D] holds. *)
Definition permitted (D : string → Prop) (Q : Json → Prop) X (io : IO X) : Prop :=
  match io with
  | writeJSON file object spaces encoding =>
      ¬ D file ∧ Q object ∧ spaces = tab ∧ encoding = "utf-8"
  | TexturesToFiles _ _ => False
  | _ => True
  end.

Definition possible (D : string → Prop) X (io : IO X) : X → Prop :=
  match io with
  | pathExists path => λ x, x = false → ¬ D path
  | _ => λ _, True
  end.

(** The disk [d], against the disk [d0] a run began with: a path
    holds what it held, or it is outside [D] and holds an object in
    [Q] written as the handler writes. *)
Definition diskKept (D : string → Prop) (Q : Json → Prop)
    (d0 d : gmap string File) : Prop :=
  ∀ path, d !! path = d0 !! path
          ∨ (¬ D path ∧ ∃ object, d !! path = Some (JsonFile object tab "utf-8")
                                   ∧ Q object).

Lemma diskKept_answer D Q (d0 : gmap string File) X (io : IO X) w :
  (∀ path, D path → is_Some (d0 !! path)) →
  diskKept D Q d0 (disk w) → permitted D Q X io →
  possible D X io (answer io w).2 ∧ diskKept D Q d0 (disk (answer io w).1).
Proof.
  intros HD Hdisk Hio. destruct io; simpl in Hio |- *; try done.
  - split; [|done]. intros Hnone%bool_decide_eq_false HDp.
    apply Hnone. destruct (Hdisk path) as [->|[? _]]; [by apply HD|done].
  - split; [done|]. destruct Hio as (HDf & HQ & -> & ->).
    intros path. destruct (decide (path = file)) as [->|Hne].
    + right. split; [done|]. exists object. by rewrite lookup_insert_eq.
    + rewrite lookup_insert_ne by done. apply Hdisk.
  - by destruct (ImportMesh _ _ _ _) as [h1 result].
Qed.

(** ** Texture files

    The operations other than [GLTFTools.TexturesToFiles]. *)
Definition noTextureFiles X (io : IO X) : Prop :=
  match io with
  | TexturesToFiles _ _ => False
  | _ => True
  end.

End Awaits.
Arguments awaitsOnly {_} allowed answers {A} p.
Arguments outcome_awaits {_} allowed answers {A} o.

(** Breaks a program into what it awaits; an operation other than a
    write is to be allowed outright. *)
Ltac awaits_step :=
  lazymatch goal with
  | |- awaitsOnly _ _ (mbind _ _) => apply awaitsOnly_bind; intros
  | |- awaitsOnly _ _ (sync _) => apply awaitsOnly_sync
  | |- awaitsOnly _ _ (await _) => apply awaitsOnly_await; [done]
  | |- awaitsOnly _ _ (fork _) => apply awaitsOnly_fork
  | |- awaitsOnly _ _ (forEach _ _) => apply awaitsOnly_forEach; intros
  | |- awaitsOnly _ _ (mret _) => apply ao_ret
  | |- awaitsOnly _ _ (Ret _) => apply ao_ret
  | |- awaitsOnly _ _ (Sync _ _) => apply ao_sync; intros
  | |- awaitsOnly _ _ (Await _ _) => apply ao_await; [done|intros]
  | |- awaitsOnly _ _ (Fork _ _) => apply ao_fork
  | |- awaitsOnly _ _ (if ?b then _ else _) => destruct b
  | |- awaitsOnly _ _ (match ?o with _ => _ end) => destruct o
  end.

Ltac awaits := repeat awaits_step.

Section Nodes.
Context `{V : Values} `{E : !Externals}.

(** ** Particle systems and transform nodes *)

(** The loop of [_configureParticleSystems]. *)
Lemma particleSystems_loop (l : list ref) (h : Heap) :
  let h' := (_configureParticleSystems l h).1 in
  set_randomIds (randomIds h) (set_particleSystems (particleSystems h) h') = h
  ∧ randomIds h' = randomIds h + length l
  ∧ (∀ r, r ∉ l → particleSystems h' !! r = particleSystems h !! r)
  ∧ (NoDup l → ∀ i r, l !! i = Some r →
       particleSystems h' !! r
       = set_ps_id (randomId (randomIds h + i)) <$> particleSystems h !! r).
Proof.
  unfold _configureParticleSystems.
  revert h. induction l as [|a l IH]; intros h.
  - simpl. split; [by destruct h|]. split; [lia|done].
  - cbn zeta. rewrite forEach_cons. rewrite run_bind.
    set (h1 := (modifyParticleSystem a _ _).1).
    assert (Hps1 : particleSystems h1
                   = alter (set_ps_id (randomId (randomIds h))) a (particleSystems h))
      by done.
    assert (Hr1 : randomIds h1 = S (randomIds h)) by done.
    assert (Hh1 : set_randomIds (randomIds h) (set_particleSystems (particleSystems h) h1)
                  = h) by by destruct h.
    clearbody h1. destruct (IH h1) as (Hh & Hr & Hout & Hin).
    set (h' := (forEach (F:=M) l _ h1).1) in *. clearbody h'.
    split; [|split; [|split]].
    + rewrite <- Hh1 at 3. rewrite <- Hh. by destruct h'.
    + rewrite Hr, Hr1. simpl. lia.
    + intros r [Hne Hr']%not_elem_of_cons.
      rewrite Hout, Hps1 by done. by rewrite list_lookup_alter_ne.
    + intros [Ha Hnd]%NoDup_cons [|i] r Hi; simpl in Hi.
      * injection Hi as <-. rewrite Hout, Hps1 by done.
        by rewrite list_lookup_alter_eq, Nat.add_0_r.
      * rewrite (Hin Hnd i r Hi), Hps1, Hr1.
        rewrite list_lookup_alter_ne.
        -- do 3 f_equal. lia.
        -- intros ->. apply Ha. by eapply list_elem_of_lookup_2.
Qed.

(** X5: let the particle systems handed to [_configureParticleSystems]
    be distinct.  The one at position [i] of the list gets as id what
    the [i]-th call of [Tools.RandomId] from now returns, and keeps
    its other fields; a particle system that is not in the list is
    left alone; [Tools.RandomId] has been called once per element;
    and nothing else in the scene has changed. *)
Theorem configureParticleSystems_assigns_fresh_ids (l : list ref) (h : Heap)
    (Hdistinct : NoDup l) :
  let h' := (_configureParticleSystems l h).1 in
  (∀ i r, l !! i = Some r →
     particleSystems h' !! r
     = set_ps_id (randomId (randomIds h + i)) <$> particleSystems h !! r)
  ∧ (∀ r, r ∉ l → particleSystems h' !! r = particleSystems h !! r)
  ∧ randomIds h' = randomIds h + length l
  ∧ set_randomIds (randomIds h) (set_particleSystems (particleSystems h) h') = h.
Proof.
  destruct (particleSystems_loop l h) as (Hframe & Hcount & Hout & Hin).
  split; [by apply Hin|]. by split.
Qed.

(** A transform node as [_configureTransformNodes] leaves it, given the
    id drawn for it: moved by the picked point when it has no parent
    and the drop has one. *)
Definition placed (pick : option PickingInfo) (id : string) (tn : TransformNode)
    : TransformNode :=
  mkTransformNode id
    (match tn_parent tn, picked pick with
     | None, Some pickedPoint => addInPlace (tn_position tn) pickedPoint
     | _, _ => tn_position tn
     end)
    (tn_parent tn) (tn_other tn).

(** The loop of [_configureTransformNodes]. *)
Lemma transformNodes_loop (l : list ref) (pick : option PickingInfo) (h : Heap) :
  let h' := (_configureTransformNodes l pick h).1 in
  set_randomIds (randomIds h) (set_transformNodes (transformNodes h) h') = h
  ∧ randomIds h' = randomIds h + length l
  ∧ (∀ r, r ∉ l → transformNodes h' !! r = transformNodes h !! r)
  ∧ (NoDup l → ∀ i r, l !! i = Some r →
       transformNodes h' !! r
       = placed pick (randomId (randomIds h + i)) <$> transformNodes h !! r).
Proof.
  unfold _configureTransformNodes.
  revert h. induction l as [|a l IH]; intros h.
  - simpl. split; [by destruct h|]. split; [lia|done].
  - cbn zeta. rewrite forEach_cons. rewrite run_bind.
    set (h1 := (modifyTransformNode a _ _).1).
    assert (Hps1 : transformNodes h1
                   = alter (placed pick (randomId (randomIds h))) a (transformNodes h)).
    { subst h1. cbn. apply list_alter_ext; [|done]. intros tn _.
      unfold placed. destruct tn as [? ? [?|] ?]; simpl; [done|].
      by destruct (picked pick). }
    assert (Hr1 : randomIds h1 = S (randomIds h)) by done.
    assert (Hh1 : set_randomIds (randomIds h) (set_transformNodes (transformNodes h) h1)
                  = h) by by destruct h.
    clearbody h1. destruct (IH h1) as (Hh & Hr & Hout & Hin).
    set (h' := (forEach (F:=M) l _ h1).1) in *. clearbody h'.
    split; [|split; [|split]].
    + rewrite <- Hh1 at 3. rewrite <- Hh. by destruct h'.
    + rewrite Hr, Hr1. simpl. lia.
    + intros r [Hne Hr']%not_elem_of_cons.
      rewrite Hout, Hps1 by done. by rewrite list_lookup_alter_ne.
    + intros [Ha Hnd]%NoDup_cons [|i] r Hi; simpl in Hi.
      * injection Hi as <-. rewrite Hout, Hps1 by done.
        by rewrite list_lookup_alter_eq, Nat.add_0_r.
      * rewrite (Hin Hnd i r Hi), Hps1, Hr1.
        rewrite list_lookup_alter_ne.
        -- do 3 f_equal. lia.
        -- intros ->. apply Ha. by eapply list_elem_of_lookup_2.
Qed.

(** X6: let the transform nodes handed to [_configureTransformNodes] be
    distinct.  The one at position [i] gets as id what the [i]-th call
    of [Tools.RandomId] from now returns; its position is its former
    position plus the picked point when it has no parent and the drop
    has a picked point, and its former position otherwise: a node with
    a parent never moves, and no node moves when [pick] or
    [pick.pickedPoint] is null.  A node that is not in the list is left
    alone, and nothing else in the scene has changed. *)
Theorem configureTransformNodes_ids_and_positions (l : list ref)
    (pick : option PickingInfo) (h : Heap)
    (Hdistinct : NoDup l) :
  let h' := (_configureTransformNodes l pick h).1 in
  (∀ i r, l !! i = Some r →
     transformNodes h' !! r
     = placed pick (randomId (randomIds h + i)) <$> transformNodes h !! r)
  ∧ (∀ r, r ∉ l → transformNodes h' !! r = transformNodes h !! r)
  ∧ randomIds h' = randomIds h + length l
  ∧ set_randomIds (randomIds h) (set_transformNodes (transformNodes h) h') = h.
Proof.
  destruct (transformNodes_loop l pick h) as (Hframe & Hcount & Hout & Hin).
  split; [by apply Hin|]. by split.
Qed.

End Nodes.

(** ** Skeletons *)

Section Skeletons.
Context `{V : Values} `{E : !Externals}.

(** A bone as [_configureSkeletons] leaves it, given the id drawn for
    it. *)
Definition renamedBone (id : string) (b : Bone) : Bone :=
  mkBone id (Some (set_originalId id (orEmpty (bone_metadata b)))) (bone_other b).

Lemma renamedBone_twice id id' b :
  renamedBone id' (renamedBone id b) = renamedBone id' b.
Proof. unfold renamedBone. simpl. by destruct (bone_metadata b) as [[]|]. Qed.

(** A bone has been left alone, or renamed by an id drawn between two
    states of the [Tools.RandomId] counter. *)
Definition boneKept (lo hi : nat) (bone bone' : Bone) : Prop :=
  bone' = bone ∨ ∃ k, lo ≤ k < hi ∧ bone' = renamedBone (randomId k) bone.

Lemma boneKept_trans lo mid hi b1 b2 b3 :
  lo ≤ mid ≤ hi → boneKept lo mid b1 b2 → boneKept mid hi b2 b3 → boneKept lo hi b1 b3.
Proof.
  intros Hle [->|(k & Hk & ->)] [->|(k' & Hk' & ->)].
  - by left.
  - right. exists k'. split; [lia|done].
  - right. exists k. split; [lia|done].
  - right. exists k'. split; [lia|]. apply renamedBone_twice.
Qed.

(** The loop over the bones of one skeleton. *)
Lemma bones_loop_kept (bs : list ref) (h : Heap) :
  let h' := (forEach bs boneStep h).1 in
  set_randomIds (randomIds h) (set_bones (bones h) h') = h
  ∧ randomIds h ≤ randomIds h'
  ∧ (∀ b, b ∉ bs → bones h' !! b = bones h !! b)
  ∧ (∀ b bone', bones h' !! b = Some bone' →
       ∃ bone, bones h !! b = Some bone
               ∧ boneKept (randomIds h) (randomIds h') bone bone').
Proof.
  revert h. induction bs as [|a bs IH]; intros h.
  - simpl. split; [by destruct h|]. split; [done|]. split; [done|].
    intros b bone' ->. eexists. split; [done|]. by left.
  - cbn zeta. rewrite forEach_cons.
    set (h1 := (boneStep a h).1).
    assert (Hr1 : randomIds h1 = S (randomIds h)) by done.
    assert (Hb1 : bones h1 = alter (renamedBone (randomId (randomIds h))) a (bones h))
      by done.
    assert (Hh1 : set_randomIds (randomIds h) (set_bones (bones h) h1) = h)
      by by destruct h.
    clearbody h1. destruct (IH h1) as (Hh & Hr & Hout & Hany).
    set (h' := (forEach bs boneStep h1).1) in *. clearbody h'.
    split; [|split; [lia|split]].
    + rewrite <- Hh1 at 3. rewrite <- Hh. by destruct h'.
    + intros b [Hne Hb]%not_elem_of_cons.
      rewrite Hout, Hb1 by done. by rewrite list_lookup_alter_ne.
    + intros b bone' Hbone'.
      destruct (Hany b bone' Hbone') as (bone1 & Hbone1 & Hkept).
      rewrite Hb1 in Hbone1. destruct (decide (a = b)) as [->|Hne].
      * rewrite list_lookup_alter_eq in Hbone1.
        destruct (bones h !! b) as [bone|]; [|done]. injection Hbone1 as <-.
        exists bone. split; [done|].
        eapply (boneKept_trans _ (randomIds h1)); [lia| |done].
        right. exists (randomIds h). split; [lia|done].
      * rewrite list_lookup_alter_ne in Hbone1 by done.
        exists bone1. split; [done|].
        eapply (boneKept_trans _ (randomIds h1)); [lia|by left|done].
Qed.

(** The loop of [_configureSkeletons]. *)
Lemma skeleton_loop_kept (l : list ref) (h : Heap) :
  let h' := (forEach l skeletonStep h).1 in
  set_randomIds (randomIds h) (set_skeletons (skeletons h) (set_bones (bones h) h')) = h
  ∧ randomIds h ≤ randomIds h'
  ∧ (∀ s sk', skeletons h' !! s = Some sk' →
       ∃ sk, skeletons h !! s = Some sk
             ∧ sk' = set_skel_id (skel_id sk') sk
             ∧ (s ∉ l → sk' = sk))
  ∧ (∀ b, (∀ s sk, s ∈ l → skeletons h !! s = Some sk → b ∉ skel_bones sk) →
          bones h' !! b = bones h !! b)
  ∧ (∀ b bone', bones h' !! b = Some bone' →
       ∃ bone, bones h !! b = Some bone
               ∧ boneKept (randomIds h) (randomIds h') bone bone').
Proof.
  revert h. induction l as [|a l IH]; intros h.
  - simpl. split; [by destruct h|]. split; [done|]. split; [|split; [done|]].
    + intros s sk' ->. exists sk'. split; [done|]. split; [by destruct sk'|done].
    + intros b bone' ->. eexists. split; [done|]. by left.
  - cbn zeta. rewrite forEach_cons.
    set (h0 := set_skeletons
                 (alter (set_skel_id (NumberId (Z.of_nat (freeSkeletonId h 0)))) a
                        (skeletons h)) h).
    set (bs := default [] (skel_bones <$> skeletons h !! a)).
    assert (Hbs : default [] (skel_bones <$> skeletons h0 !! a) = bs).
    { subst h0 bs. cbn [skeletons set_skeletons].
      rewrite list_lookup_alter_eq. by destruct (skeletons h !! a). }
    assert (Hstep : (skeletonStep a h).1 = (forEach bs boneStep h0).1).
    { unfold skeletonStep. rewrite !run_bind.
      unfold bonesOf, modifySkeleton. cbn [fst snd]. fold h0. by rewrite Hbs. }
    rewrite Hstep.
    assert (Hr0 : randomIds h0 = randomIds h) by done.
    assert (Hb0 : bones h0 = bones h) by done.
    assert (Hs0 : skeletons h0
                  = alter (set_skel_id (NumberId (Z.of_nat (freeSkeletonId h 0)))) a
                          (skeletons h)) by done.
    assert (Hh0 : set_skeletons (skeletons h) h0 = h) by by destruct h.
    clearbody h0.
    destruct (bones_loop_kept bs h0) as (Hh1 & Hr1 & Hout1 & Hany1).
    set (h1 := (forEach bs boneStep h0).1) in *. clearbody h1.
    assert (Hsk1 : skeletons h1 = skeletons h0).
    { rewrite <- Hh1. by destruct h1. }
    assert (Hframe1 : set_randomIds (randomIds h)
                        (set_skeletons (skeletons h) (set_bones (bones h) h1)) = h).
    { transitivity (set_skeletons (skeletons h) h0); [|done].
      rewrite <- Hh1, Hr0, Hb0. by destruct h1. }
    rewrite Hs0 in Hsk1. rewrite Hr0 in Hr1, Hany1. rewrite Hb0 in Hout1, Hany1.
    assert (Hbones1 : ∀ s, skel_bones <$> skeletons h1 !! s
                           = skel_bones <$> skeletons h !! s).
    { intros s. rewrite Hsk1. by apply lookup_alter_skel_bones. }
    destruct (IH h1) as (Hh & Hr & Hsk & Hout & Hany).
    set (h' := (forEach l skeletonStep h1).1) in *. clearbody h'.
    split; [|split; [lia|split; [|split]]].
    + rewrite <- Hframe1 at 4. rewrite <- Hh. by destruct h'.
    + intros s sk' Hsk'. destruct (Hsk s sk' Hsk') as (sk1 & Hs1 & Hid & Hnot).
      rewrite Hsk1 in Hs1. destruct (decide (a = s)) as [->|Hne].
      * rewrite list_lookup_alter_eq in Hs1.
        destruct (skeletons h !! s) as [sk|]; [|done]. injection Hs1 as <-.
        exists sk. split; [done|]. split; [by rewrite Hid|].
        intros []. by left.
      * rewrite list_lookup_alter_ne in Hs1 by done.
        exists sk1. split; [done|]. split; [done|].
        intros [_ ?]%not_elem_of_cons. by apply Hnot.
    + intros b Hb. rewrite Hout, Hout1; [done| |].
      * subst bs. destruct (skeletons h !! a) as [sk|] eqn:Ha; [|apply not_elem_of_nil].
        apply (Hb a sk); [by left|done].
      * intros s sk1 Hs Hs1. pose proof (Hbones1 s) as Hs'. rewrite Hs1 in Hs'.
        destruct (skeletons h !! s) as [sk|] eqn:Hsk0; [|done].
        injection Hs' as ->. apply (Hb s sk); [by right|done].
    + intros b bone' Hbone'.
      destruct (Hany b bone' Hbone') as (bone1 & Hbone1 & Hkept).
      destruct (Hany1 b bone1 Hbone1) as (bone & Hbone & Hkept1).
      exists bone. split; [done|].
      eapply (boneKept_trans _ (randomIds h1)); [lia|done|done].
Qed.

(** X18: [_configureSkeletons] changes ids only.  A skeleton keeps
    its bones and its other fields, and one that is not in the list
    keeps its id too; a bone that belongs to no skeleton of the list
    is left alone; any other bone is as it was, or has as id an
    identifier drawn from [Tools.RandomId] during the call, the same
    identifier as [metadata.originalId], and its other metadata and
    fields as before; and nothing else in the scene has changed. *)
Theorem configureSkeletons_changes_ids_only (l : list ref) (h : Heap) :
  let h' := (_configureSkeletons l h).1 in
  (∀ s sk', skeletons h' !! s = Some sk' →
     ∃ sk, skeletons h !! s = Some sk
           ∧ sk' = mkSkeleton (skel_id sk') (skel_bones sk) (skel_other sk)
           ∧ (s ∉ l → sk' = sk))
  ∧ (∀ b, (∀ s sk, s ∈ l → skeletons h !! s = Some sk → b ∉ skel_bones sk) →
          bones h' !! b = bones h !! b)
  ∧ (∀ b bone', bones h' !! b = Some bone' →
       ∃ bone, bones h !! b = Some bone
         ∧ (bone' = bone
            ∨ ∃ k, randomIds h ≤ k < randomIds h'
                   ∧ bone' = mkBone (randomId k)
                               (Some (set_originalId (randomId k)
                                        (orEmpty (bone_metadata bone))))
                               (bone_other bone)))
  ∧ set_randomIds (randomIds h)
      (set_skeletons (skeletons h) (set_bones (bones h) h')) = h.
Proof.
  cbv zeta. rewrite configureSkeletons_unfold.
  destruct (skeleton_loop_kept l h) as (Hframe & _ & Hsk & Hout & Hany).
  split; [done|]. split; [done|]. split; [|done].
  intros b bone' Hbone'. destruct (Hany b bone' Hbone') as (bone & Hbone & Hkept).
  by exists bone.
Qed.

End Skeletons.

Section Meshes.
Context `{V : Values} `{E : !Externals}.
Variable props : Props.

(** What the assignments of [_configureMaterial] and of the functions
    it calls have to respect for the whole of it to keep to a
    relation given class by class. *)
Lemma guarantees_configureMaterial (R : Rels) `{!Preorders R} :
  (∀ t, Rtex R t (configureGltfTexture props t)) →
  (∀ t, Rtex R t (configureTexture props t)) →
  (∀ m p, Rmat R m (set_mat_metadata
                      (Some (set_editorPath p (orEmpty (mat_metadata m)))) m)) →
  (∀ m, Rmat R m (markDone m)) →
  (∀ m, Rmat R m (recordOriginalSourceFile props m)) →
  (∀ m id, Rmat R m (set_mat_id (Some id) m)) →
  (∀ n, Rrand R n (S n)) →
  ∀ material isGltf,
    guarantees (related R) (_configureMaterial props material isGltf).
Proof.
  intros Hgltf Htex Hpath Hdone Hrecord Hid Hrand material isGltf.
  assert (Htextures : ∀ r, guarantees (related R)
                             (_configureMaterialTextures props r isGltf)).
  { intros r. unfold _configureMaterialTextures, texturesToConfigure. guar; auto. }
  assert (Hfile : guarantees (related R) (_createMaterialFile props material)).
  { unfold _createMaterialFile, readMaterial. guar; auto. }
  assert (Hsubs : ∀ subs, guarantees (related R)
                            (configureSubMaterials props material isGltf subs)).
  { induction subs as [|[r|] subs IH]; cbn [configureSubMaterials];
      [apply g_ret| |apply g_ret].
    guar; auto. }
  unfold _configureMaterial, readMaterial. guar; auto.
Qed.

(** ** Meshes *)

(** The meshes and geometries are left alone, and [Tools.RandomId] is
    not rewound. *)
Definition meshesKept : Rels := {|
  Rmesh := eq; Rnode := λ _ _, True; Rskel := λ _ _, True;
  Rbone := λ _ _, True; Rps := λ _ _, True; Rmat := λ _ _, True;
  Rtex := λ _ _, True; Rgeo := eq; Rscene := λ _ _, True;
  Rrand := le; Rpreview := λ _ _, True; Rcalls := λ _ _, True;
|}.

#[local] Instance meshesKept_preorders : Preorders meshesKept.
Proof. preorders. Qed.

Lemma meshesKept_configureMaterial material isGltf :
  guarantees (related meshesKept) (_configureMaterial props material isGltf).
Proof. apply guarantees_configureMaterial; try done. apply _. simpl. lia. Qed.

Lemma meshesKept_spec h h' :
  related meshesKept h h' →
  meshes h' = meshes h ∧ geometries h' = geometries h ∧ randomIds h ≤ randomIds h'.
Proof.
  intros [Hm _ _ _ _ _ _ Hg _ Hr _ _].
  split; [symmetry; by apply list_eq_Forall2|].
  split; [symmetry; by apply list_eq_Forall2|done].
Qed.

(** The body of the loop of [_configureMeshes]: its end, from the
    test [m instanceof Mesh] on, for the mesh read as [o]; *)
Definition meshStepEnd (o : option AbstractMesh) (m : ref) : Prog unit :=
  (if default false (isMesh <$> o) then
     sync (modifyMesh m (λ m,
       let meshMetadata := GetMeshMetadata m in
       set_mesh_metadata
         (Some (set_originalSourceFile
                  (mkSourceFile (Some (mesh_id m)) (Some (mesh_name m))
                                (relativePath props))
                  meshMetadata)) m));;
     match o ≫= geometry with
     | Some g => id ← sync RandomId; sync (modifyGeometry g (set_geo_id id))
     | None => mret tt
     end
   else mret tt);;
  id ← sync RandomId;
  sync (modifyMesh m (set_mesh_id id)).

(** and the whole of it. *)
Definition meshStep (pick : option PickingInfo) (isGltf : bool) (m : ref) : Prog unit :=
  sync (modifyMesh m (λ m,
    set_mesh_metadata (Some (orEmpty (mesh_metadata m))) m));;
  basePoseMatrix ← sync (λ h, (h, getPoseMatrix h m));
  sync (modifyMesh m (λ m,
    set_mesh_metadata
      (Some (set_basePoseMatrix basePoseMatrix (orEmpty (mesh_metadata m)))) m));;
  sync (modifyMesh m (λ m,
    match mesh_parent m, picked pick with
    | None, Some pickedPoint =>
        set_mesh_position (addInPlace (mesh_position m) pickedPoint) m
    | _, _ => m
    end));;
  o ← sync (readMesh m);
  match o ≫= mesh_material with
  | Some material => fork (_configureMaterial props material isGltf)
  | None => mret tt
  end;;
  meshStepEnd o m.

Lemma configureMeshes_unfold l pick isGltf :
  _configureMeshes props l pick isGltf = forEach l (meshStep pick isGltf).
Proof. reflexivity. Qed.

(** A mesh as the loop leaves it, given the id drawn for it and the
    pose matrix read from it. *)
Definition configuredMesh (pick : option PickingInfo) (id : string)
    (basePoseMatrix : list num) (m : AbstractMesh) : AbstractMesh :=
  let metadata := set_basePoseMatrix basePoseMatrix (orEmpty (mesh_metadata m)) in
  let metadata :=
    if isMesh m then
      set_originalSourceFile
        (mkSourceFile (Some (mesh_id m)) (Some (mesh_name m)) (relativePath props))
        metadata
    else metadata in
  let position :=
    match mesh_parent m, picked pick with
    | None, Some pickedPoint => addInPlace (mesh_position m) pickedPoint
    | _, _ => mesh_position m
    end in
  mkMesh id (mesh_name m) (Some metadata) position (mesh_parent m)
         (mesh_material m) (isMesh m) (geometry m) (mesh_other m).

Lemma start_bind_heap {A B} (p : Prog A) (f : A → Prog B) (h : Heap) (a : A) :
  (start p h).1.2 = Returned a →
  (start (p ≫= f) h).1.1 = (start (f a) (start p h).1.1).1.1.
Proof.
  intros Ha. rewrite start_bind.
  destruct (start p h) as [[h1 o] ts1]. simpl in *. subst o.
  by destruct (start (f a) h1) as [[h2 o2] ts2].
Qed.

Lemma start_sync_heap {X} (m : M X) (h : Heap) :
  start (sync m) h = ((m h).1, Returned (m h).2, []).
Proof. simpl. by destruct (m h). Qed.

(** The mesh when the loop turns to its material. *)
Definition posedMesh (pick : option PickingInfo) (basePoseMatrix : list num)
    (m : AbstractMesh) : AbstractMesh :=
  let position :=
    match mesh_parent m, picked pick with
    | None, Some pickedPoint => addInPlace (mesh_position m) pickedPoint
    | _, _ => mesh_position m
    end in
  mkMesh (mesh_id m) (mesh_name m)
         (Some (set_basePoseMatrix basePoseMatrix (orEmpty (mesh_metadata m))))
         position (mesh_parent m) (mesh_material m) (isMesh m) (geometry m)
         (mesh_other m).

Lemma alter_as_insert {A} (f : A → A) (i : nat) (l : list A) (x : A) :
  l !! i = Some x → alter f i l = <[i := f x]> l.
Proof.
  revert i. induction l as [|y l IH]; intros [|i] Hi; simpl in *; try done.
  - by injection Hi as ->.
  - f_equal. by apply IH.
Qed.

Lemma meshStepEnd_start (o m : AbstractMesh) r h :
  meshes h !! r = Some m → isMesh o = isMesh m →
  let h' := (start (meshStepEnd (Some o) r) h).1.1 in
  let sourced :=
    if isMesh m then
      set_mesh_metadata
        (Some (set_originalSourceFile
                 (mkSourceFile (Some (mesh_id m)) (Some (mesh_name m))
                               (relativePath props))
                 (orEmpty (mesh_metadata m)))) m
    else m in
  ∃ k, randomIds h ≤ k < randomIds h'
       ∧ meshes h' = <[r := set_mesh_id (randomId k) sourced]> (meshes h).
Proof.
  intros Hm Ho. cbn zeta. unfold meshStepEnd. cbn [fmap option_fmap option_map default].
  rewrite Ho. destruct (isMesh m); [destruct (Some o ≫= geometry) as [g|]|]; simpl.
  - exists (S (randomIds h)). split; [lia|].
    rewrite list_alter_alter_eq. by rewrite (alter_as_insert _ _ _ m).
  - exists (randomIds h). split; [lia|].
    rewrite list_alter_alter_eq. by rewrite (alter_as_insert _ _ _ m).
  - exists (randomIds h). split; [lia|]. by rewrite (alter_as_insert _ _ _ m).
Qed.

Lemma meshStepEnd_start_none r h :
  meshes h !! r = None →
  let h' := (start (meshStepEnd None r) h).1.1 in
  randomIds h ≤ randomIds h' ∧ meshes h' = meshes h.
Proof.
  intros Hm. simpl. split; [lia|].
  apply list_eq. intros i. destruct (decide (i = r)) as [->|].
  - rewrite list_lookup_alter_eq. by rewrite Hm.
  - by rewrite list_lookup_alter_ne.
Qed.

Lemma start_material_fork (material : option ref) isGltf h :
  let p := match material with
           | Some material => fork (_configureMaterial props material isGltf)
           | None => mret tt
           end in
  (start p h).1.2 = Returned tt
  ∧ meshes (start p h).1.1 = meshes h
  ∧ geometries (start p h).1.1 = geometries h
  ∧ randomIds h ≤ randomIds (start p h).1.1.
Proof.
  destruct material as [material|]; simpl; [|done].
  destruct (guarantees_start (related meshesKept) _ h
              (meshesKept_configureMaterial material isGltf)) as [Hrel _].
  apply meshesKept_spec in Hrel as (Hm & Hg & Hr).
  by destruct (start _ h) as [[h1 o1] ts1].
Qed.

Lemma meshStep_heap pick isGltf r h :
  ∃ basePoseMatrix h4,
    meshes h4 = alter (posedMesh pick basePoseMatrix) r (meshes h)
    ∧ geometries h4 = geometries h
    ∧ randomIds h ≤ randomIds h4
    ∧ (start (meshStep pick isGltf r) h).1.1
      = (start (meshStepEnd (meshes h4 !! r) r) h4).1.1.
Proof.
  unfold meshStep. rewrite !start_sync_bind. unfold readMesh. cbn [fst snd].
  set (basePoseMatrix := getPoseMatrix _ r).
  set (h3 := (modifyMesh r _ (modifyMesh r _ (modifyMesh r _ h).1).1).1).
  assert (Hr3 : randomIds h3 = randomIds h) by done.
  assert (Hg3 : geometries h3 = geometries h) by done.
  assert (Hm3 : meshes h3 = alter (posedMesh pick basePoseMatrix) r (meshes h)).
  { subst h3. cbn. rewrite !list_alter_alter_eq.
    apply list_alter_ext; [|done]. intros m _.
    unfold posedMesh. destruct m as [? ? [md|] ? [?|] ? ? ? ?]; simpl; try done;
      by destruct (picked pick). }
  clearbody h3 basePoseMatrix.
  destruct (start_material_fork (meshes h3 !! r ≫= mesh_material) isGltf h3)
    as (Hret & Hm4 & Hg4 & Hr4).
  rewrite (start_bind_heap _ _ _ tt) by exact Hret.
  set (h4 := (start _ h3).1.1) in *. clearbody h4.
  exists basePoseMatrix, h4. split; [congruence|]. split; [congruence|].
  split; [lia|]. by rewrite Hm4.
Qed.

Lemma meshStep_start pick isGltf r h :
  let h' := (start (meshStep pick isGltf r) h).1.1 in
  randomIds h ≤ randomIds h'
  ∧ (∀ r', r' ≠ r → meshes h' !! r' = meshes h !! r')
  ∧ (∀ m, meshes h !! r = Some m →
       ∃ k basePoseMatrix,
         randomIds h ≤ k < randomIds h'
         ∧ meshes h' !! r = Some (configuredMesh pick (randomId k) basePoseMatrix m)).
Proof.
  intros h'. subst h'.
  destruct (meshStep_heap pick isGltf r h)
    as (basePoseMatrix & h4 & Hm4 & _ & Hr4 & ->).
  destruct (meshes h !! r) as [m|] eqn:Hm.
  - assert (Hlook : meshes h4 !! r = Some (posedMesh pick basePoseMatrix m))
      by by rewrite Hm4, list_lookup_alter_eq, Hm.
    rewrite Hlook.
    destruct (meshStepEnd_start (posedMesh pick basePoseMatrix m) _ r h4 Hlook eq_refl)
      as (k & Hk & Hend).
    cbn zeta in Hend. rewrite Hend.
    split; [lia|]. split.
    + intros r' Hne. by rewrite list_lookup_insert_ne, Hm4, list_lookup_alter_ne.
    + intros ? [= <-]. exists k, basePoseMatrix. split; [lia|].
      rewrite list_lookup_insert_eq by (by eapply lookup_lt_Some).
      f_equal. unfold configuredMesh, posedMesh. simpl. by destruct (isMesh m).
  - assert (Hlook : meshes h4 !! r = None) by by rewrite Hm4, list_lookup_alter_eq, Hm.
    rewrite Hlook.
    destruct (meshStepEnd_start_none r h4 Hlook) as [Hr Hend].
    cbn zeta in Hend. rewrite Hend.
    split; [lia|]. split; [|done].
    intros r' Hne. by rewrite Hm4, list_lookup_alter_ne.
Qed.

Lemma forksOnly_meshStep pick isGltf r :
  forksOnly (related meshesKept) (meshStep pick isGltf r).
Proof.
  unfold meshStep, meshStepEnd.
  repeat lazymatch goal with
    | |- forksOnly _ (mbind _ _) => guar_apply forksOnly_bind
    | |- forksOnly _ (sync _) => apply forksOnly_sync
    | |- forksOnly _ (fork _) => guar_apply forksOnly_fork
    | |- forksOnly _ (mret _) => apply fo_ret
    | |- forksOnly _ (if ?b then _ else _) => destruct b
    | |- forksOnly _ (match ?o with _ => _ end) => destruct o
    end.
  apply meshesKept_configureMaterial.
Qed.

Lemma start_forEach_cons pick isGltf a l h :
  (start (forEach (a :: l) (meshStep pick isGltf)) h).1.1
  = (start (forEach l (meshStep pick isGltf))
           (start (meshStep pick isGltf a) h).1.1).1.1.
Proof.
  cbn [forEach].
  destruct (forksOnly_start (related meshesKept) _ h (forksOnly_meshStep pick isGltf a))
    as [[[] Hret] _].
  by rewrite (start_bind_heap _ _ _ tt).
Qed.

Lemma meshes_loop pick isGltf (l : list ref) (h : Heap) :
  let h' := (start (_configureMeshes props l pick isGltf) h).1.1 in
  randomIds h ≤ randomIds h'
  ∧ (∀ r, r ∉ l → meshes h' !! r = meshes h !! r)
  ∧ (NoDup l → ∀ r m, r ∈ l → meshes h !! r = Some m →
       ∃ k basePoseMatrix,
         randomIds h ≤ k < randomIds h'
         ∧ meshes h' !! r = Some (configuredMesh pick (randomId k) basePoseMatrix m)).
Proof.
  rewrite configureMeshes_unfold.
  revert h. induction l as [|a l IH]; intros h.
  - simpl. split; [done|]. split; [done|]. by intros _ r m ?%elem_of_nil.
  - cbn zeta. rewrite start_forEach_cons.
    destruct (meshStep_start pick isGltf a h) as (Hr1 & Hout1 & Hin1).
    set (h1 := (start (meshStep pick isGltf a) h).1.1) in *. clearbody h1.
    destruct (IH h1) as (Hr & Hout & Hin).
    set (h' := (start _ h1).1.1) in *. clearbody h'.
    split; [lia|]. split.
    + intros r [Hne Hr']%not_elem_of_cons. by rewrite Hout, Hout1.
    + intros [Ha Hnd]%NoDup_cons r m [->|Hr']%elem_of_cons Hm.
      * destruct (Hin1 m Hm) as (k & bpm & Hk & Hlook).
        exists k, bpm. split; [lia|]. by rewrite Hout.
      * assert (r ≠ a) by (by intros ->).
        destruct (Hin Hnd r m Hr') as (k & bpm & Hk & Hlook); [by rewrite Hout1|].
        exists k, bpm. split; [lia|done].
Qed.

Lemma meshesKept_afterMeshes result pick :
  guarantees (related meshesKept)
    (sync (_configureTransformNodes (res_transformNodes result) pick);;
     sync (_configureSkeletons (res_skeletons result));;
     sync (_configureParticleSystems (res_particleSystems result));;
     sync (call graph_refresh);;
     sync (call assets_refresh)).
Proof.
  unfold _configureTransformNodes, _configureSkeletons, _configureParticleSystems,
    bonesOf.
  guar; try done; simpl; lia.
Qed.

Lemma forksOnly_configureImported result pick isGltf :
  forksOnly (related meshesKept) (configureImported props result pick isGltf).
Proof.
  unfold configureImported. rewrite configureMeshes_unfold.
  repeat lazymatch goal with
    | |- forksOnly _ (mbind _ _) => guar_apply forksOnly_bind
    | |- forksOnly _ (sync _) => apply forksOnly_sync
    | |- forksOnly _ (forEach _ _) => guar_apply forksOnly_forEach
    end.
  apply forksOnly_meshStep.
Qed.

Lemma configureMeshes_returns l pick isGltf h :
  (start (_configureMeshes props l pick isGltf) h).1.2 = Returned tt.
Proof.
  rewrite configureMeshes_unfold.
  destruct (forksOnly_start (related meshesKept) _ h
              (forksOnly_forEach (related meshesKept) l _
                 (forksOnly_meshStep pick isGltf))) as [[[] Hret] _].
  done.
Qed.

(** Under every schedule, the meshes and geometries are those the loop
    over the meshes has left, and [Tools.RandomId] has been called at
    least as often as when the loop ended. *)
Lemma configureImported_meshes result pick isGltf w c :
  rtc step (launch (configureImported props result pick isGltf) w) c →
  let h1 := (start (_configureMeshes props (res_meshes result) pick isGltf)
                   (heap w)).1.1 in
  meshes (heap (world c)) = meshes h1
  ∧ geometries (heap (world c)) = geometries h1
  ∧ randomIds h1 ≤ randomIds (heap (world c)).
Proof.
  intros Hrun.
  pose proof (forksOnly_run (related meshesKept) _ w c
                (forksOnly_configureImported result pick isGltf) Hrun) as Hrel.
  apply meshesKept_spec in Hrel as (Hmeshes & Hgeometries & Hrand).
  rewrite Hmeshes, Hgeometries. revert Hrand. unfold configureImported.
  rewrite (start_bind_heap _ _ _ tt) by apply configureMeshes_returns.
  set (h1 := (start (_configureMeshes _ _ _ _) (heap w)).1.1) in *. clearbody h1.
  destruct (guarantees_start (related meshesKept) _ h1
              (meshesKept_afterMeshes result pick)) as [Hrel _].
  apply meshesKept_spec in Hrel as (-> & -> & Hrand1). intros Hrand.
  split; [done|]. split; [done|lia].
Qed.

(** X7: let the imported meshes be distinct.  Under every schedule of
    the calls the pass leaves pending, each of them ends with: an id
    drawn from [Tools.RandomId] during the pass; its name as it was;
    [metadata.basePoseMatrix] set; for an instance of [Mesh],
    [metadata.originalSourceFile] holding the id and the name it had
    when imported and the relative path of the asset, replacing any
    former value; its position moved by the picked point when it has
    no parent and the drop has one, and as it was otherwise; every
    other key of its metadata and every other field as they were.  A
    mesh that was not imported is left alone. *)
Theorem configured_mesh_records_its_origin (result : ImportResult)
    (pick : option PickingInfo) (isGltf : bool) (w : World) (c : Config)
    (Hdistinct : NoDup (res_meshes result))
    (Hrun : rtc step (launch (configureImported props result pick isGltf) w) c) :
  (∀ r m, r ∈ res_meshes result → meshes (heap w) !! r = Some m →
     ∃ k basePoseMatrix,
       randomIds (heap w) ≤ k < randomIds (heap (world c))
       ∧ meshes (heap (world c)) !! r
         = Some (configuredMesh pick (randomId k) basePoseMatrix m))
  ∧ (∀ r, r ∉ res_meshes result →
          meshes (heap (world c)) !! r = meshes (heap w) !! r).
Proof.
  destruct (configureImported_meshes result pick isGltf w c Hrun) as (-> & _ & Hrand).
  destruct (meshes_loop pick isGltf (res_meshes result) (heap w)) as (Hr & Hout & Hin).
  split; [|done].
  intros r m Hr' Hm. destruct (Hin Hdistinct r m Hr' Hm) as (k & bpm & Hk & Hlook).
  exists k, bpm. split; [lia|done].
Qed.

End Meshes.

Section Geometries.
Context `{V : Values} `{E : !Externals}.
Variable props : Props.

(** ** Geometries *)

(** A geometry is as it was, or has been given an id drawn from
    [Tools.RandomId] from the [lo]-th call on and before the [hi]-th. *)
Definition reassigned (lo hi : nat) (geo geo' : Geometry) : Prop :=
  geo' = geo ∨ ∃ k, lo ≤ k < hi ∧ geo' = set_geo_id (randomId k) geo.

Lemma reassigned_widen lo hi lo' hi' geo geo' :
  reassigned lo hi geo geo' → lo' ≤ lo → hi ≤ hi' → reassigned lo' hi' geo geo'.
Proof.
  intros [->|(k & Hk & ->)] ??; [by left|]. right. exists k. split; [lia|done].
Qed.

Lemma reassigned_trans lo mid hi geo geo1 geo2 :
  reassigned lo mid geo geo1 → reassigned mid hi geo1 geo2 → lo ≤ mid → mid ≤ hi →
  reassigned lo hi geo geo2.
Proof.
  intros H1 [->|(k & Hk & ->)] ??.
  - eapply reassigned_widen; [done|lia|lia].
  - right. exists k. split; [lia|]. by destruct H1 as [->|(k1 & _ & ->)].
Qed.

(** The geometry a loop turn on the mesh [m] gives a new id to. *)
Definition geometryOf (m : option AbstractMesh) : option ref :=
  m ≫= λ m, if isMesh m then geometry m else None.

Lemma meshStepEnd_geometries (o : option AbstractMesh) r h :
  let h' := (start (meshStepEnd props o r) h).1.1 in
  match geometryOf o with
  | Some g => ∃ k, randomIds h ≤ k < randomIds h'
                   ∧ geometries h' = alter (set_geo_id (randomId k)) g (geometries h)
  | None => geometries h' = geometries h
  end.
Proof.
  unfold meshStepEnd, geometryOf. destruct o as [m|]; simpl; [|done].
  destruct (isMesh m); simpl; [|done].
  destruct (geometry m) as [g|]; simpl; [|done].
  exists (randomIds h). split; [lia|done].
Qed.

Lemma meshStep_geometries pick isGltf r h :
  let h' := (start (meshStep props pick isGltf r) h).1.1 in
  match geometryOf (meshes h !! r) with
  | Some g => ∃ k, randomIds h ≤ k < randomIds h'
                   ∧ geometries h' = alter (set_geo_id (randomId k)) g (geometries h)
  | None => geometries h' = geometries h
  end.
Proof.
  cbn zeta.
  destruct (meshStep_heap props pick isGltf r h)
    as (basePoseMatrix & h4 & Hm4 & Hg4 & Hr4 & ->).
  pose proof (meshStepEnd_geometries (meshes h4 !! r) r h4) as Hend.
  cbn zeta in Hend.
  assert (Hsame : geometryOf (meshes h4 !! r) = geometryOf (meshes h !! r)).
  { rewrite Hm4, list_lookup_alter_eq. by destruct (meshes h !! r). }
  rewrite Hsame in Hend. destruct (geometryOf (meshes h !! r)) as [g|].
  - destruct Hend as (k & Hk & Hend). exists k. split; [lia|]. by rewrite Hend, Hg4.
  - by rewrite Hend.
Qed.

Lemma geometryOf_meshStep pick isGltf a h r :
  geometryOf (meshes (start (meshStep props pick isGltf a) h).1.1 !! r)
  = geometryOf (meshes h !! r).
Proof.
  destruct (meshStep_start props pick isGltf a h) as (_ & Hout & Hin).
  destruct (decide (r = a)) as [->|Hne]; [|by rewrite Hout].
  destruct (meshes h !! a) as [m|] eqn:Hm.
  - destruct (Hin m eq_refl) as (k & bpm & _ & ->). done.
  - destruct (meshStep_heap props pick isGltf a h)
      as (bpm & h4 & Hm4 & _ & _ & ->).
    assert (Hlook : meshes h4 !! a = None) by by rewrite Hm4, list_lookup_alter_eq, Hm.
    rewrite Hlook.
    destruct (meshStepEnd_start_none props a h4 Hlook) as [_ Hend].
    cbn zeta in Hend. by rewrite Hend, Hlook.
Qed.

Lemma geometries_loop pick isGltf (l : list ref) (h : Heap) :
  let h' := (start (_configureMeshes props l pick isGltf) h).1.1 in
  randomIds h ≤ randomIds h'
  ∧ (∀ g geo, geometries h !! g = Some geo →
       ∃ geo', geometries h' !! g = Some geo'
               ∧ reassigned (randomIds h) (randomIds h') geo geo')
  ∧ (∀ r g geo, r ∈ l → geometryOf (meshes h !! r) = Some g →
       geometries h !! g = Some geo →
       ∃ k, randomIds h ≤ k < randomIds h'
            ∧ geometries h' !! g = Some (set_geo_id (randomId k) geo))
  ∧ (∀ g, (∀ r, r ∈ l → geometryOf (meshes h !! r) ≠ Some g) →
          geometries h' !! g = geometries h !! g).
Proof.
  rewrite configureMeshes_unfold.
  revert h. induction l as [|a l IH]; intros h.
  - simpl. split; [done|]. split; [|split; [|done]].
    + intros g geo Hg. exists geo. split; [done|by left].
    + by intros r g geo ?%elem_of_nil.
  - cbn zeta. rewrite start_forEach_cons.
    destruct (meshStep_start props pick isGltf a h) as (Hr1 & _ & _).
    pose proof (meshStep_geometries pick isGltf a h) as Hstep. cbn zeta in Hstep.
    pose proof (geometryOf_meshStep pick isGltf a h) as Hof.
    set (h1 := (start (meshStep props pick isGltf a) h).1.1) in *. clearbody h1.
    destruct (IH h1) as (Hr & Hany & Hin & Hout).
    set (h' := (start _ h1).1.1) in *. clearbody h'.
    assert (S1 : ∀ g geo, geometries h !! g = Some geo →
               ∃ geo1, geometries h1 !! g = Some geo1
                       ∧ reassigned (randomIds h) (randomIds h1) geo geo1).
    { intros g geo Hg. destruct (geometryOf (meshes h !! a)) as [ga|].
      - destruct Hstep as (k & Hk & ->). destruct (decide (ga = g)) as [->|Hne].
        + rewrite list_lookup_alter_eq, Hg. eexists. split; [done|].
          right. by exists k.
        + rewrite list_lookup_alter_ne by done. exists geo. split; [done|by left].
      - rewrite Hstep. exists geo. split; [done|by left]. }
    assert (S3 : ∀ g, geometryOf (meshes h !! a) ≠ Some g →
               geometries h1 !! g = geometries h !! g).
    { intros g Hg. destruct (geometryOf (meshes h !! a)) as [ga|].
      - destruct Hstep as (k & Hk & ->). rewrite list_lookup_alter_ne; [done|].
        by intros ->.
      - by rewrite Hstep. }
    split; [lia|]. split; [|split].
    + intros g geo Hg. destruct (S1 g geo Hg) as (geo1 & Hg1 & Hre1).
      destruct (Hany g geo1 Hg1) as (geo' & Hg' & Hre'). exists geo'.
      split; [done|]. by eapply reassigned_trans.
    + intros r g geo Hr' Hof' Hg.
      destruct (decide (geometryOf (meshes h !! a) = Some g)) as [Ha|Ha].
      * rewrite Ha in Hstep. destruct Hstep as (k & Hk & Hstep).
        assert (Hg1 : geometries h1 !! g = Some (set_geo_id (randomId k) geo))
          by by rewrite Hstep, list_lookup_alter_eq, Hg.
        destruct (Hany g _ Hg1) as (geo' & Hg' & [->|(k' & Hk' & ->)]).
        -- exists k. split; [lia|done].
        -- exists k'. split; [lia|done].
      * assert (r ∈ l).
        { apply elem_of_cons in Hr' as [->|?]; [|done]. by destruct Ha. }
        destruct (Hin r g geo) as (k & Hk & Hg'); [done|by rewrite Hof| |].
        { by rewrite S3. }
        exists k. split; [lia|done].
    + intros g Hg. rewrite Hout.
      * apply S3. apply Hg. by left.
      * intros r Hr'. rewrite Hof. apply Hg. by right.
Qed.

(** X8: under every schedule, the geometry of an imported instance of
    [Mesh] ends with an id drawn from [Tools.RandomId] during the pass
    and is otherwise as it was, also when several meshes share it; a
    geometry that belongs to no imported instance of [Mesh] is left
    alone, that of an imported mesh which is not a [Mesh] among them. *)
Theorem imported_mesh_geometry_gets_a_new_id (result : ImportResult)
    (pick : option PickingInfo) (isGltf : bool) (w : World) (c : Config)
    (Hrun : rtc step (launch (configureImported props result pick isGltf) w) c) :
  (∀ r m g geo,
     r ∈ res_meshes result → meshes (heap w) !! r = Some m →
     isMesh m = true → geometry m = Some g → geometries (heap w) !! g = Some geo →
     ∃ k, randomIds (heap w) ≤ k < randomIds (heap (world c))
          ∧ geometries (heap (world c)) !! g = Some (mkGeometry (randomId k) (geo_other geo)))
  ∧ (∀ g, (∀ r m, r ∈ res_meshes result → meshes (heap w) !! r = Some m →
                  isMesh m = true → geometry m ≠ Some g) →
          geometries (heap (world c)) !! g = geometries (heap w) !! g).
Proof.
  destruct (configureImported_meshes props result pick isGltf w c Hrun)
    as (_ & -> & Hrand).
  destruct (geometries_loop pick isGltf (res_meshes result) (heap w))
    as (_ & _ & Hin & Hout).
  split.
  - intros r m g geo Hr Hm Hmesh Hgeo Hg.
    destruct (Hin r g geo Hr) as (k & Hk & Hlook); [|done|].
    { rewrite Hm. simpl. by rewrite Hmesh. }
    exists k. split; [lia|done].
  - intros g Hg. apply Hout. intros r Hr Hof.
    destruct (meshes (heap w) !! r) as [m|] eqn:Hm; [|done].
    simpl in Hof. destruct (isMesh m) eqn:Hmesh; [|done].
    by apply (Hg r m).
Qed.

End Geometries.

Section Metadata.
Context `{V : Values} `{E : !Externals}.
Variable props : Props.

(** ** Names and metadata

    What the pass leaves alone inside the fields it may write.  A
    missing [metadata] is read as the empty object.  On a mesh the
    pass owns the keys [basePoseMatrix] and [originalSourceFile]; on a
    bone, [originalId]; on a material, [editorDone], [editorPath] and
    [originalSourceFile], of which it never clears the first nor
    replaces a recorded third; on a texture, [editorDone], which it
    never clears.  It renames textures only. *)
Definition owned : Rels := {|
  Rmesh m m' :=
    let md := orEmpty (mesh_metadata m) in
    let md' := orEmpty (mesh_metadata m') in
    mesh_name m' = mesh_name m
    ∧ editorDone md' = editorDone md ∧ editorPath md' = editorPath md
    ∧ originalId md' = originalId md ∧ md_other md' = md_other md;
  Rnode := λ _ _, True;
  Rskel := λ _ _, True;
  Rbone b b' :=
    let md := orEmpty (bone_metadata b) in
    let md' := orEmpty (bone_metadata b') in
    editorDone md' = editorDone md ∧ editorPath md' = editorPath md
    ∧ originalSourceFile md' = originalSourceFile md
    ∧ basePoseMatrix md' = basePoseMatrix md ∧ md_other md' = md_other md;
  Rps := λ _ _, True;
  Rmat m m' :=
    let md := orEmpty (mat_metadata m) in
    let md' := orEmpty (mat_metadata m') in
    mat_name m' = mat_name m
    ∧ basePoseMatrix md' = basePoseMatrix md ∧ originalId md' = originalId md
    ∧ md_other md' = md_other md
    ∧ (editorDone md = true → editorDone md' = true)
    ∧ (∀ s, originalSourceFile md = Some s → originalSourceFile md' = Some s);
  Rtex t t' :=
    let md := orEmpty (tex_metadata t) in
    let md' := orEmpty (tex_metadata t') in
    editorPath md' = editorPath md
    ∧ originalSourceFile md' = originalSourceFile md
    ∧ basePoseMatrix md' = basePoseMatrix md ∧ originalId md' = originalId md
    ∧ md_other md' = md_other md
    ∧ (editorDone md = true → editorDone md' = true);
  Rgeo := λ _ _, True;
  Rscene := λ _ _, True;
  Rrand := λ _ _, True;
  Rpreview := λ _ _, True;
  Rcalls := λ _ _, True;
|}.

#[local] Instance owned_preorders : Preorders owned.
Proof.
  split; (split; [intros ?|intros ? ? ?]); simpl; try done;
    intuition (try congruence); eauto.
Qed.

Lemma owned_configureMaterial material isGltf :
  guarantees (related owned) (_configureMaterial props material isGltf).
Proof.
  apply guarantees_configureMaterial; try apply _; try done; intros;
    unfold configureGltfTexture, configureTexture, recordOriginalSourceFile,
      GetMaterialMetadata;
    repeat match goal with
      | t : Texture |- _ => destruct t as [? ? [?|] ? ? ? ?]
      | m : Material |- _ => destruct m as [? ? [[? ? [?|] ? ? ?]|] ? ? ? ?]
      end;
    simpl; repeat case_match; simpl; repeat split; done.
Qed.

Lemma owned_configureImported result pick isGltf :
  guarantees (related owned) (configureImported props result pick isGltf).
Proof.
  unfold configureImported, _configureMeshes, _configureTransformNodes,
    _configureSkeletons, _configureParticleSystems, bonesOf, readMesh.
  guar; auto using owned_configureMaterial; try done;
    unfold GetMeshMetadata;
    repeat match goal with
      | x : AbstractMesh |- _ => destruct x as [? ? [?|] ? ? ? ? ? ?]
      | x : Bone |- _ => destruct x as [? [?|] ?]
      end;
    simpl; repeat case_match; simpl; repeat split; done.
Qed.

(** X9: under every schedule of the calls it leaves pending, the
    configuration pass renames no mesh and no material; changes, on
    the metadata of a mesh, only [basePoseMatrix] and
    [originalSourceFile]; on that of a bone, only [originalId]; on that
    of a material, only [editorDone], [editorPath] and
    [originalSourceFile]; on that of a texture, only [editorDone];
    never clears an [editorDone] that was set; and never replaces an
    [originalSourceFile] recorded on a material. *)
Theorem configuration_keeps_names_and_foreign_metadata (result : ImportResult)
    (pick : option PickingInfo) (isGltf : bool) (w : World) (c : Config)
    (Hrun : rtc step (launch (configureImported props result pick isGltf) w) c) :
  related owned (heap w) (heap (world c)).
Proof.
  exact (guarantees_run (related owned) _ w c
           (owned_configureImported result pick isGltf) Hrun).
Qed.

End Metadata.

Section Calls.
Context `{V : Values} `{E : !Externals}.
Variable props : Props.

(** ** The calls to the editor *)

(** The list of calls made to the collaborators is left alone. *)
Definition callsKept : Rels := {|
  Rmesh := λ _ _, True; Rnode := λ _ _, True; Rskel := λ _ _, True;
  Rbone := λ _ _, True; Rps := λ _ _, True; Rmat := λ _ _, True;
  Rtex := λ _ _, True; Rgeo := λ _ _, True; Rscene := λ _ _, True;
  Rrand := λ _ _, True; Rpreview := λ _ _, True; Rcalls := eq;
|}.

#[local] Instance callsKept_preorders : Preorders callsKept.
Proof. preorders. Qed.





End Calls.

Section Textures.
Context `{V : Values} `{E : !Externals}.
Variable props : Props.

(** ** Textures *)

(** The loop [textures.forEach] of [_configureMaterialTextures]. *)
Lemma textures_loop (F : Texture → Texture) (ts : list ref) (h : Heap) :
  let h' := (forEach ts (λ tex, modifyTexture tex F) h).1 in
  set_textures (textures h) h' = h
  ∧ (∀ t, t ∉ ts → textures h' !! t = textures h !! t)
  ∧ (∀ t, t ∈ ts → ∃ n, textures h' !! t = Nat.iter (S n) F <$> textures h !! t)
  ∧ (NoDup ts → ∀ t, t ∈ ts → textures h' !! t = F <$> textures h !! t).
Proof.
  revert h. induction ts as [|a ts IH]; intros h.
  - simpl. split; [by destruct h|]. split; [done|].
    split; [by intros ? ?%elem_of_nil|by intros _ ? ?%elem_of_nil].
  - cbn zeta. rewrite forEach_cons.
    set (h1 := (modifyTexture a F h).1).
    assert (Ht1 : textures h1 = alter F a (textures h)) by done.
    assert (Hh1 : set_textures (textures h) h1 = h) by by destruct h.
    clearbody h1. destruct (IH h1) as (Hh & Hout & Hin & Hnd).
    set (h' := (forEach (F:=M) ts _ h1).1) in *. clearbody h'.
    split; [|split; [|split]].
    + rewrite <- Hh1 at 2. rewrite <- Hh. by destruct h'.
    + intros t [Hne Ht]%not_elem_of_cons.
      rewrite Hout, Ht1 by done. by rewrite list_lookup_alter_ne.
    + intros t Ht. destruct (decide (t ∈ ts)) as [Hts|Hts].
      * destruct (Hin t Hts) as [n Hn]. rewrite Hn, Ht1.
        destruct (decide (a = t)) as [->|Hne].
        -- exists (S n). rewrite list_lookup_alter_eq.
           destruct (textures h !! t); [|done]. simpl. f_equal.
           symmetry. apply (Nat.iter_succ_r (S n) F).
        -- exists n. by rewrite list_lookup_alter_ne.
      * apply elem_of_cons in Ht as [->|?]; [|done].
        exists 0. by rewrite Hout, Ht1, list_lookup_alter_eq.
    + intros [Ha Hnd']%NoDup_cons t [->|Ht]%elem_of_cons.
      * by rewrite Hout, Ht1, list_lookup_alter_eq.
      * rewrite (Hnd Hnd' t Ht), Ht1. rewrite list_lookup_alter_ne; [done|].
        by intros ->.
Qed.

(** Up to its first [await], [_configureMaterialTextures] runs that
    loop on the textures it has selected. *)
Lemma configureMaterialTextures_start material isGltf h :
  (start (_configureMaterialTextures props material isGltf) h).1.1
  = (forEach (texturesToConfigure material h).2
       (λ tex, modifyTexture tex
                 (if isGltf then configureGltfTexture props else configureTexture props))
       h).1.
Proof.
  unfold _configureMaterialTextures. rewrite start_sync_bind.
  unfold texturesToConfigure at 2. cbn [fst snd].
  destruct isGltf.
  - rewrite start_sync_bind. simpl. done.
  - by rewrite start_sync_heap.
Qed.

Lemma configureGltfTexture_spec t :
  let t' := configureGltfTexture props t in
  isDone (tex_metadata t') = true
  ∧ isRenderTarget t' = isRenderTarget t
  ∧ isTextureOrCube t' = isTextureOrCube t
  ∧ tex_url t' = (if truthy (tex_url t) then Some (tex_name t') else tex_url t).
Proof.
  unfold configureGltfTexture. destruct t as [? ? [md|] ? ? ? ?]; simpl;
    repeat case_match; simpl in *; try done; congruence.
Qed.

Lemma configureTexture_spec t :
  let t' := configureTexture props t in
  tex_name t' = join (dirname (relativePath props)) (basename (tex_name t))
  ∧ tex_metadata t' = tex_metadata t
  ∧ tex_url t' = (if truthy (tex_url t) then Some (tex_name t') else tex_url t).
Proof. unfold configureTexture. simpl. by repeat case_match. Qed.

Lemma configureGltfTexture_iter n t :
  let t' := Nat.iter (S n) (configureGltfTexture props) t in
  isDone (tex_metadata t') = true.
Proof. cbn zeta. rewrite Nat.iter_succ. apply configureGltfTexture_spec. Qed.

Lemma textureIs_lookup h p t :
  textureIs h p t = true ↔ ∃ tex, textures h !! t = Some tex ∧ p tex = true.
Proof.
  unfold textureIs. destruct (textures h !! t) as [tex|]; simpl.
  - split; [by exists tex|]. by intros (? & [= <-] & ?).
  - split; [done|]. by intros (? & ? & _).
Qed.

Lemma elem_of_texturesToConfigure material h t :
  t ∈ (texturesToConfigure material h).2
  ↔ t ∈ default [] (activeTextures <$> materials h !! material)
    ∧ ∃ tex, textures h !! t = Some tex
             ∧ isRenderTarget tex = false ∧ isTextureOrCube tex = true
             ∧ isDone (tex_metadata tex) = false.
Proof.
  unfold texturesToConfigure. cbn [snd].
  rewrite !list_elem_of_filter, !textureIs_lookup. split.
  - intros ((tex & Htex & Hdone) & (tex' & Htex' & Hkind) & Hactive).
    split; [done|]. exists tex. rewrite Htex in Htex'. injection Htex' as <-.
    apply andb_true_iff in Hkind as [Hrt%negb_true_iff Hcube].
    by apply negb_true_iff in Hdone.
  - intros (Hactive & tex & Htex & Hrt & Hcube & Hdone).
    split; [|split; [|done]]; exists tex; split; try done.
    + by rewrite Hdone.
    + by rewrite Hrt, Hcube.
Qed.

(** X11: for a glTF file, when [_configureMaterialTextures] reaches its
    first [await] every texture it had selected has
    [metadata.editorDone] set, also a texture that the material lists
    twice.  A second call on the same material then selects no texture
    and leaves the scene as it is. *)
Theorem gltf_textures_are_configured_once (material : ref) (h : Heap) :
  let p := _configureMaterialTextures props material true in
  let h' := (start p h).1.1 in
  (∀ t tex, t ∈ (texturesToConfigure material h).2 →
            textures h' !! t = Some tex → isDone (tex_metadata tex) = true)
  ∧ (texturesToConfigure material h').2 = []
  ∧ (start p h').1.1 = h'.
Proof.
  intros p h'. subst p h'.
  rewrite !configureMaterialTextures_start.
  set (ts := (texturesToConfigure material h).2).
  destruct (textures_loop (configureGltfTexture props) ts h) as (Hh & Hout & Hin & _).
  set (h' := (forEach (F:=M) ts _ h).1) in *. clearbody h'.
  assert (Hmats : materials h' = materials h) by by rewrite <- Hh.
  assert (Hdone : ∀ t tex, t ∈ ts → textures h' !! t = Some tex →
                           isDone (tex_metadata tex) = true).
  { intros t tex Ht Htex. destruct (Hin t Ht) as [n Hn]. rewrite Hn in Htex.
    destruct (textures h !! t) as [tex0|]; [|done]. injection Htex as <-.
    apply configureGltfTexture_iter. }
  assert (Hnone : (texturesToConfigure material h').2 = []).
  { apply elem_of_nil_inv. intros t Ht.
    apply elem_of_texturesToConfigure in Ht
      as (Hactive & tex & Htex & Hrt & Hcube & Hnot).
    rewrite Hmats in Hactive.
    destruct (decide (t ∈ ts)) as [Hts|Hts].
    - rewrite (Hdone t tex Hts Htex) in Hnot. done.
    - apply Hts. apply elem_of_texturesToConfigure. split; [done|].
      exists tex. by rewrite <- Hout. }
  split; [done|]. split; [done|]. by rewrite Hnone.
Qed.

(** X12: let the textures [_configureMaterialTextures] selects, the
    active textures of the material that are a [Texture] or
    [CubeTexture], not a render target and not marked [editorDone], be
    distinct.  When the call reaches its first [await], or returns,
    each of them has its url equal to its new name if its url was
    truthy, and the url it had, null or empty, otherwise; for a file
    that is not glTF its new name is the base name of the old one in
    the directory of the asset's relative path, and its metadata is as
    it was, [editorDone] not set.  Every other texture, and everything
    in the scene that is not a texture, is as it was. *)
Theorem configured_texture_url_follows_its_name (material : ref) (isGltf : bool)
    (h : Heap)
    (Hdistinct : NoDup (texturesToConfigure material h).2) :
  let h' := (start (_configureMaterialTextures props material isGltf) h).1.1 in
  set_textures (textures h) h' = h
  ∧ (∀ t, t ∉ (texturesToConfigure material h).2 →
          textures h' !! t = textures h !! t)
  ∧ (∀ t tex, t ∈ (texturesToConfigure material h).2 →
       textures h !! t = Some tex →
       ∃ tex', textures h' !! t = Some tex'
               ∧ tex_url tex' = (if truthy (tex_url tex) then Some (tex_name tex')
                                 else tex_url tex)
               ∧ (isGltf = false →
                  tex_name tex' = join (dirname (relativePath props))
                                       (basename (tex_name tex))
                  ∧ tex_metadata tex' = tex_metadata tex)).
Proof.
  intros h'. subst h'. rewrite configureMaterialTextures_start.
  set (ts := (texturesToConfigure material h).2) in *.
  destruct (textures_loop
              (if isGltf then configureGltfTexture props else configureTexture props)
              ts h) as (Hh & Hout & _ & Hin).
  split; [done|]. split; [done|].
  intros t tex Ht Htex. rewrite (Hin Hdistinct t Ht), Htex. simpl.
  eexists. split; [done|]. destruct isGltf.
  - split; [apply configureGltfTexture_spec|done].
  - destruct (configureTexture_spec tex) as (Hname & Hmd & Hurl). by split.
Qed.

End Textures.

Section Materials.
Context `{V : Values} `{E : !Externals}.
Variable props : Props.

(** X13: for a material of the scene, [_createMaterialFile] returns
    [false] exactly when a file is at the path it computes, and in
    both cases it has set [metadata.editorPath] to the same file name
    in the directory of the asset's relative path, creating the
    metadata when missing.  The name and the id of the material are as
    they were: when the id is null, an identifier is drawn from
    [Tools.RandomId] for the file name and not kept.  Nothing else in
    the scene changes. *)
Theorem createMaterialFile_records_the_editor_path (material : ref) (w : World)
    (m : Material)
    (Hm : materials (heap w) !! material = Some m) :
  let r := exec (_createMaterialFile props material) w in
  let name := default (basename (absolutePath props)) (mat_name m) in
  let id := default (randomId (randomIds (heap w))) (mat_id m) in
  let materialFilename := filenamify (name +:+ "-" +:+ id +:+ ".material") in
  (r.2 = false
   ↔ is_Some (disk w !! join (dirname (absolutePath props)) materialFilename))
  ∧ materials (heap r.1)
    = <[material := set_mat_metadata
                      (Some (set_editorPath
                               (join (dirname (relativePath props)) materialFilename)
                               (orEmpty (mat_metadata m)))) m]>
        (materials (heap w))
  ∧ randomIds (heap r.1)
    = match mat_id m with
      | Some _ => randomIds (heap w)
      | None => S (randomIds (heap w))
      end
  ∧ set_randomIds (randomIds (heap w)) (set_materials (materials (heap w)) (heap r.1))
    = heap w.
Proof.
  cbv zeta. rewrite exec_createMaterialFile.
  unfold materialFilePath, materialFileName, beforeCheck, _createMaterialFile.
  rewrite Hm. simpl. rewrite !run_bind. unfold readMaterial, RandomId. simpl.
  rewrite Hm. simpl.
  destruct (mat_id m) as [id|]; simpl; case_bool_decide; simpl;
    (split; [by split|]);
    (split; [by rewrite (alter_as_insert _ _ _ m)|]);
    (split; [done|by destruct (heap w)]).
Qed.

(** ** The sub-materials of a [MultiMaterial] *)

Lemma materialFilePath_with_id h h' m id :
  mat_id m = Some id →
  materialFilePath props h (Some m) = materialFilePath props h' (Some m).
Proof. intros Hid. unfold materialFilePath, materialFileName. simpl. by rewrite Hid. Qed.

Lemma exec_fork_textures r isGltf w :
  let w1 := (exec (fork (_configureMaterialTextures props r isGltf)) w).1 in
  materials (heap w1) = materials (heap w)
  ∧ randomIds (heap w1) = randomIds (heap w)
  ∧ disk w1 = disk w.
Proof.
  cbn zeta. rewrite exec_fork. cbn [fst heap disk].
  destruct (start_configureMaterialTextures props r isGltf (heap w)) as [? ?].
  done.
Qed.

(** Once the file of [material] is on the disk and [material] has an
    id, the loop over its sub-materials finds the file at every turn
    and goes on to the next. *)
Lemma subMaterials_skipped material isGltf subs w m id :
  materials (heap w) !! material = Some m → mat_id m = Some id →
  is_Some (disk w !! materialFilePath props (heap w) (Some m)) →
  let w' := (exec (configureSubMaterials props material isGltf subs) w).1 in
  disk w' = disk w
  ∧ ∀ b, b ≠ material → materials (heap w') !! b = materials (heap w) !! b.
Proof.
  revert w m. induction subs as [|[r|] subs IH]; intros w m Hm Hid Hfile;
    cbn [configureSubMaterials]; [by rewrite exec_ret| |by rewrite exec_ret].
  cbn zeta. rewrite exec_bind.
  destruct (exec_fork_textures r isGltf w) as (Hm1 & Hr1 & Hd1).
  set (w1 := (exec (fork _) w).1) in *. clearbody w1.
  rewrite exec_bind, exec_createMaterialFile.
  rewrite Hm1, Hm, (materialFilePath_with_id _ (heap w) m id) by done.
  rewrite bool_decide_true by by rewrite Hd1.
  cbn [fst snd]. rewrite exec_bind, exec_ret. cbn [fst snd].
  destruct (beforeCheck_spec props material (heap w1)) as [Hm2 _].
  set (w2 := mkWorld (beforeCheck props material (heap w1)) (disk w1)).
  rewrite Hm1, Hm in Hm2. cbn zeta in Hm2.
  assert (∃ m2, materials (heap w2) !! material = Some m2
                ∧ mat_id m2 = mat_id m ∧ mat_name m2 = mat_name m)
    as (m2 & Hlook2 & Hid2 & Hname2).
  { subst w2. cbn [heap]. rewrite Hm2, list_lookup_alter_eq, Hm.
    eexists. split; [reflexivity|done]. }
  destruct (IH w2 m2 Hlook2 (eq_trans Hid2 Hid)) as [Hd' Hm'].
  { replace (materialFilePath props (heap w2) (Some m2))
      with (materialFilePath props (heap w) (Some m)).
    - subst w2. cbn [disk]. by rewrite Hd1.
    - unfold materialFilePath, materialFileName. simpl.
      by rewrite Hid2, Hname2, Hid. }
  split; [by rewrite Hd'|].
  intros b Hb. rewrite (Hm' b Hb). subst w2. cbn [heap].
  by rewrite Hm2, list_lookup_alter_ne.
Qed.

(** The first turn of the loop may write the file and give the first
    sub-material its source and a new id; the other turns are skipped. *)
Lemma subMaterials_loop material isGltf subs w m id :
  materials (heap w) !! material = Some m → mat_id m = Some id →
  head subs ≠ Some (Some material) →
  let w' := (exec (configureSubMaterials props material isGltf subs) w).1 in
  ∀ b, b ≠ material → head subs ≠ Some (Some b) →
       materials (heap w') !! b = materials (heap w) !! b.
Proof.
  intros Hm Hid Hself. destruct subs as [|[a|] rest];
    cbn [configureSubMaterials]; [by rewrite exec_ret| |by rewrite exec_ret].
  assert (Ha : a ≠ material) by (intros ->; by apply Hself).
  cbn zeta. intros b Hb Hba.
  assert (Hab : b ≠ a) by (intros ->; by apply Hba).
  rewrite exec_bind.
  destruct (exec_fork_textures a isGltf w) as (Hm1 & Hr1 & Hd1).
  set (w1 := (exec (fork _) w).1) in *. clearbody w1.
  rewrite exec_bind, exec_createMaterialFile.
  rewrite Hm1, Hm, (materialFilePath_with_id _ (heap w) m id) by done.
  destruct (beforeCheck_spec props material (heap w1)) as [Hm2 _].
  rewrite Hm1, Hm in Hm2. cbn zeta in Hm2.
  set (h2 := beforeCheck props material (heap w1)) in *. clearbody h2.
  set (path := materialFilePath props (heap w) (Some m)).
  assert (∃ m2, materials h2 !! material = Some m2
                ∧ mat_id m2 = mat_id m ∧ mat_name m2 = mat_name m)
    as (m2 & Hlook2 & Hid2 & Hname2).
  { rewrite Hm2, list_lookup_alter_eq, Hm. eexists. split; [reflexivity|done]. }
  assert (Hpath : ∀ h', materialFilePath props h' (Some m2) = path).
  { intros h'. unfold path, materialFilePath, materialFileName. simpl.
    by rewrite Hid2, Hname2, Hid. }
  case_bool_decide as Hexists; cbn [fst snd].
  - rewrite exec_bind, exec_ret. cbn [fst snd].
    destruct (subMaterials_skipped material isGltf rest (mkWorld h2 (disk w1)) m2 id)
      as [_ Hrest]; [done|congruence| |].
    { rewrite Hpath. exact Hexists. }
    rewrite (Hrest b Hb). cbn [heap]. by rewrite Hm2, list_lookup_alter_ne.
  - rewrite exec_bind.
    set (w2 := mkWorld h2 _).
    set (w3 := (exec _ w2).1).
    assert (Hm3 : ∃ F, materials (heap w3) = alter F a (materials h2)).
    { subst w3 w2. simpl. rewrite list_alter_alter_eq. by eexists. }
    assert (Hd3 : disk w3 = disk w2) by done.
    clearbody w3. destruct Hm3 as [F Hm3].
    destruct (subMaterials_skipped material isGltf rest w3 m2 id)
      as [_ Hrest]; [|congruence| |].
    { rewrite Hm3, list_lookup_alter_ne by done. done. }
    { rewrite Hpath, Hd3. subst w2. cbn [disk]. rewrite lookup_insert_eq. by eexists. }
    rewrite (Hrest b Hb), Hm3, list_lookup_alter_ne by done.
    by rewrite Hm2, list_lookup_alter_ne.
Qed.

(** One material keeps its place and its value. *)
Definition materialKept (b : ref) : relation Heap :=
  λ h h', materials h' !! b = materials h !! b.

#[local] Instance materialKept_po b : PreOrder (materialKept b).
Proof.
  split; unfold materialKept; [by intros ?|intros x y z ? ?; by etrans].
Qed.

Lemma materialKept_notMulti material isGltf b :
  b ≠ material →
  guarantees (materialKept b)
    (sync (modifyMaterial material markDone);;
     configureMarked props material isGltf false).
Proof.
  intros Hb.
  unfold configureMarked, _createMaterialFile, _configureMaterialTextures,
    texturesToConfigure, readMaterial.
  guar; try (intros h; unfold materialKept; simpl;
             by rewrite ?list_lookup_alter_ne by done).
Qed.

(** X14: let [material] not be the first of its own sub-materials.  At
    the return of [_configureMaterial], its awaits answered at once,
    no material other than [material] and, for a [MultiMaterial], its
    first sub-material has changed: the loop over the sub-materials
    asks [_createMaterialFile] for the file of [material] itself at
    every turn, so from the second turn on the file exists and the
    sub-material gets neither [metadata.originalSourceFile] nor a new
    id. *)
Theorem configureMaterial_spares_the_later_subMaterials (material : ref)
    (isGltf : bool) (w : World)
    (Hself : ∀ m, materials (heap w) !! material = Some m →
                  head (subMaterials m) ≠ Some (Some material)) :
  let w' := (exec (_configureMaterial props material isGltf) w).1 in
  ∀ b, b ≠ material →
       (∀ m, materials (heap w) !! material = Some m → isMultiMaterial m = true →
             head (subMaterials m) ≠ Some (Some b)) →
       materials (heap w') !! b = materials (heap w) !! b.
Proof.
  intros w' b Hb Hfirst. subst w'.
  assert (HnotMulti :
    ∀ w0, materials (heap (exec (sync (modifyMaterial material markDone);;
                                 configureMarked props material isGltf false) w0).1)
          !! b = materials (heap w0) !! b).
  { intros w0. apply (guarantees_exec (materialKept b) _ w0).
    by apply materialKept_notMulti. }
  rewrite configureMaterial_unfold, exec_sync_bind. unfold readMaterial.
  cbn [fst snd].
  destruct (materials (heap w) !! material) as [m|] eqn:Hm;
    [|apply (HnotMulti (mkWorld (heap w) (disk w)))].
  cbn [mbind option_bind fmap option_fmap option_map default].
  destruct (isDone (mat_metadata m)); [by rewrite exec_ret|].
  destruct (isMultiMaterial m) eqn:Hmulti;
    [|apply (HnotMulti (mkWorld (heap w) (disk w)))].
  specialize (Hself m eq_refl). specialize (Hfirst m eq_refl Hmulti).
  rewrite exec_sync_bind. cbn [fst snd heap disk].
  set (w1 := mkWorld _ _).
  assert (Hm1 : materials (heap w1) = alter markDone material (materials (heap w)))
    by done.
  assert (Hr1 : randomIds (heap w1) = randomIds (heap w)) by done.
  clearbody w1.
  unfold configureMarked. cbn [negb id]. rewrite exec_bind, exec_ret. cbn [fst snd].
  rewrite exec_bind, exec_createMaterialFile.
  destruct (beforeCheck_spec props material (heap w1)) as [Hm2 _].
  cbn zeta in Hm2.
  set (h2 := beforeCheck props material (heap w1)) in *. clearbody h2.
  case_bool_decide as Hexists; cbn [fst snd negb].
  { rewrite exec_ret. cbn [fst heap].
    by rewrite Hm2, list_lookup_alter_ne, Hm1, list_lookup_alter_ne. }
  set (w2 := mkWorld h2 _).
  rewrite !exec_sync_bind. cbn [fst snd heap disk].
  set (w3 := mkWorld _ (disk w2)).
  assert (∃ m3 id3, materials (heap w3) !! material = Some m3
                    ∧ mat_id m3 = Some id3 ∧ subMaterials m3 = subMaterials m)
    as (m3 & id3 & Hlook3 & Hid3 & Hsubs3).
  { subst w3 w2. cbn. rewrite !list_alter_alter_eq, list_lookup_alter_eq.
    rewrite Hm2, list_lookup_alter_eq, Hm1, list_lookup_alter_eq, Hm.
    eexists _, _. split; [reflexivity|]. by split. }
  assert (Hb3 : materials (heap w3) !! b = materials (heap w) !! b).
  { subst w3 w2. cbn. rewrite !list_alter_alter_eq, list_lookup_alter_ne by done.
    by rewrite Hm2, list_lookup_alter_ne, Hm1, list_lookup_alter_ne. }
  clearbody w3. rewrite exec_bind, exec_sync_bind. cbn [fst snd heap disk].
  rewrite Hlook3. cbn [fmap option_fmap option_map default id]. rewrite Hsubs3.
  replace (mkWorld (heap w3) (disk w3)) with w3 by by destruct w3.
  pose proof (subMaterials_loop material isGltf (subMaterials m) w3 m3 id3
                Hlook3 Hid3 Hself b Hb Hfirst) as Hloop.
  cbn zeta in Hloop.
  destruct (exec (configureSubMaterials props material isGltf (subMaterials m)) w3)
    as [w4 finished]. cbn [fst snd] in *.
  destruct finished; [rewrite exec_fork; simpl|rewrite exec_ret; cbn [fst]];
    by rewrite Hloop, Hb3.
Qed.

End Materials.

(** ** A material file that is written *)

Section Written.
Context `{V : Values} `{E : !Externals}.
Variable props : Props.


End Written.

Section Files.
Context `{V : Values} `{E : !Externals}.
Variable props : Props.

Lemma writes_createMaterialFile D Q material :
  (∀ h, Q (serialize h material)) →
  awaitsOnly (permitted D Q) (possible D) (_createMaterialFile props material).
Proof.
  intros HQ. unfold _createMaterialFile.
  apply awaitsOnly_bind; [apply awaitsOnly_sync|intros materialFilename].
  apply awaitsOnly_bind; [apply awaitsOnly_sync|intros _].
  unfold mbind, Prog_bind, await, sync. simpl.
  apply ao_await; [done|]. intros [] Hexists; simpl; [apply ao_ret|].
  apply ao_sync. intros h. simpl.
  apply ao_await; [|intros; apply ao_ret].
  repeat split; auto.
Qed.

Lemma writes_configureMaterial D Q material :
  (∀ h, Q (serialize h material)) →
  awaitsOnly (permitted D Q) (possible D) (_configureMaterial props material false).
Proof.
  intros HQ.
  assert (Htextures : ∀ r, awaitsOnly (permitted D Q) (possible D)
                             (_configureMaterialTextures props r false)).
  { intros r. unfold _configureMaterialTextures. awaits. }
  assert (Hsubs : ∀ subs, awaitsOnly (permitted D Q) (possible D)
                            (configureSubMaterials props material false subs)).
  { induction subs as [|[r|] subs IH]; cbn [configureSubMaterials];
      [apply ao_ret| |apply ao_ret].
    awaits; auto using writes_createMaterialFile. }
  unfold _configureMaterial.
  awaits; auto using writes_createMaterialFile.
Qed.

Lemma writes_onDropInPreview D pick :
  toLowerCase (extname (absolutePath props)) ≠ ".glb" →
  toLowerCase (extname (absolutePath props)) ≠ ".gltf" →
  awaitsOnly (permitted D (λ object, ∃ h material, object = serialize h material))
             (possible D) (onDropInPreview props pick).
Proof.
  intros Hglb Hgltf. unfold onDropInPreview.
  rewrite (bool_decide_false _ Hglb), (bool_decide_false _ Hgltf). cbn [orb].
  unfold configureImported, _configureMeshes.
  awaits. apply writes_configureMaterial. eauto.
Qed.

(** X15: let the extension of the asset, in lower case, be neither
    [.glb] nor [.gltf].  Under every schedule of [onDropInPreview] and
    of the calls it leaves pending, a file that was on the disk when
    the handler began is there with the same content, and a file that
    was not is absent or holds [serialize()] of a material, written
    with a tab as indentation and utf-8 as encoding.  (For a glTF asset
    [GLTFTools.TexturesToFiles] writes as well, and what it writes is
    not known here.) *)
Theorem drop_keeps_the_files_on_disk (pick : option PickingInfo) (w : World)
    (c : Config)
    (Hglb : toLowerCase (extname (absolutePath props)) ≠ ".glb")
    (Hgltf : toLowerCase (extname (absolutePath props)) ≠ ".gltf")
    (Hrun : rtc step (launch (onDropInPreview props pick) w) c) :
  ∀ path,
    disk (world c) !! path = disk w !! path
    ∨ (disk w !! path = None
       ∧ ∃ h material,
           disk (world c) !! path
           = Some (JsonFile (serialize h material) tab "utf-8")).
Proof.
  intros path.
  set (D := λ path, is_Some (disk w !! path)).
  set (Q := λ object : Json, ∃ h material, object = serialize h material).
  destruct (awaitsOnly_run (permitted D Q) (possible D) (diskKept D Q (disk w))
              (λ X io w', diskKept_answer D Q (disk w) X io w' (λ _ H, H))
              _ w c (λ _, or_introl eq_refl)
              (writes_onDropInPreview D pick Hglb Hgltf) Hrun)
    as [Hdisk _].
  destruct (Hdisk path) as [Hsame|(Hnew & object & Hfile & h & material & ->)];
    [by left|].
  right. split; [by apply eq_None_not_Some|]. eauto.
Qed.

(** X16: under every schedule of [_configureMaterial], called for an
    asset that is not glTF, and of the calls it leaves pending, every
    file it adds to the disk holds [serialize()] of the material it
    was called on, also when that material is a [MultiMaterial]: no
    file is written for a sub-material.  The files that were on the
    disk keep their content.  (For a glTF asset
    [GLTFTools.TexturesToFiles] writes as well, and what it writes is
    not known here.) *)
Theorem configureMaterial_writes_the_material_only (material : ref)
    (w : World) (c : Config)
    (Hrun : rtc step (launch (_configureMaterial props material false) w) c) :
  ∀ path,
    disk (world c) !! path = disk w !! path
    ∨ (disk w !! path = None
       ∧ ∃ h, disk (world c) !! path
              = Some (JsonFile (serialize h material) tab "utf-8")).
Proof.
  intros path.
  set (D := λ path, is_Some (disk w !! path)).
  set (Q := λ object : Json, ∃ h, object = serialize h material).
  destruct (awaitsOnly_run (permitted D Q) (possible D) (diskKept D Q (disk w))
              (λ X io w', diskKept_answer D Q (disk w) X io w' (λ _ H, H))
              _ w c (λ _, or_introl eq_refl)
              (writes_configureMaterial D Q material
                 (λ h, ex_intro _ h eq_refl)) Hrun)
    as [Hdisk _].
  destruct (Hdisk path) as [Hsame|(Hnew & object & Hfile & h & ->)]; [by left|].
  right. split; [by apply eq_None_not_Some|]. eauto.
Qed.

(** A task that is not waiting for texture files. *)
Definition notForTextureFiles (t : Task) : Prop :=
  match t with
  | Waiting io _ => noTextureFiles _ io
  | Returned _ => True
  end.

Lemma noTextureFiles_configureImported result pick :
  awaitsOnly noTextureFiles (λ _ _ _, True)
    (configureImported props result pick false).
Proof.
  assert (Htextures : ∀ r, awaitsOnly noTextureFiles (λ _ _ _, True)
                             (_configureMaterialTextures props r false)).
  { intros r. unfold _configureMaterialTextures. awaits. }
  assert (Hfile : ∀ r, awaitsOnly noTextureFiles (λ _ _ _, True)
                         (_createMaterialFile props r)).
  { intros r. unfold _createMaterialFile. awaits. }
  assert (Hsubs : ∀ material subs,
             awaitsOnly noTextureFiles (λ _ _ _, True)
               (configureSubMaterials props material false subs)).
  { intros material. induction subs as [|[r|] subs IH]; cbn [configureSubMaterials];
      [apply ao_ret| |apply ao_ret].
    awaits; auto. }
  unfold configureImported, _configureMeshes, _configureMaterial.
  awaits; auto.
Qed.

(** X17: when the extension of the asset, in lower case, is neither
    [.glb] nor [.gltf], no call started by [onDropInPreview] ever waits
    for [GLTFTools.TexturesToFiles], under any schedule. *)
Theorem texture_files_are_for_gltf_only (pick : option PickingInfo) (w : World)
    (c : Config)
    (Hglb : toLowerCase (extname (absolutePath props)) ≠ ".glb")
    (Hgltf : toLowerCase (extname (absolutePath props)) ≠ ".gltf")
    (Hrun : rtc step (launch (onDropInPreview props pick) w) c) :
  Forall notForTextureFiles (tasks c).
Proof.
  assert (Hp : awaitsOnly noTextureFiles (λ _ _ _, True) (onDropInPreview props pick)).
  { unfold onDropInPreview.
    rewrite (bool_decide_false _ Hglb), (bool_decide_false _ Hgltf). cbn [orb].
    awaits. apply noTextureFiles_configureImported. }
  destruct (awaitsOnly_run noTextureFiles (λ _ _ _, True) (λ _, True)
              (λ X io w' _ _, conj I I) _ w c I Hp Hrun) as [_ Htasks].
  eapply Forall_impl; [exact Htasks|].
  intros [u|X io k]; simpl; [done|]. by intros [? _].
Qed.

End Files.

Lemma configureParticleSystems_assigns_fresh_ids_witness :
  particleSystems (_configureParticleSystems [0; 1] Example.fountain).1 !! 1
  = Some (mkParticleSystem "id1" "ps").
Proof.
  assert (Hdistinct : NoDup [0; 1]) by (by apply (bool_decide_unpack _); vm_compute).
  destruct (configureParticleSystems_assigns_fresh_ids [0; 1] Example.fountain
              Hdistinct) as (Hids & _).
  exact (Hids 1 1 eq_refl).
Defined.

Lemma configureTransformNodes_ids_and_positions_witness :
  transformNodes (_configureTransformNodes [0] Example.drop Example.scene).1 !! 0
  = Some (mkTransformNode "id0" (mkVector3 1 2 3)%Z None "node").
Proof.
  assert (Hdistinct : NoDup [0]) by (by apply (bool_decide_unpack _); vm_compute).
  destruct (configureTransformNodes_ids_and_positions [0] Example.drop Example.scene
              Hdistinct) as (Hids & _).
  exact (Hids 0 0 eq_refl).
Defined.

Lemma configured_mesh_records_its_origin_witness :
  let c := launch (configureImported Example.props (mkImportResult [0] [] [0; 1] [0])
                     Example.drop false) Example.emptyDisk in
  ∃ k basePoseMatrix,
    0 ≤ k < randomIds (heap (world (run 3 c)))
    ∧ meshes (heap (world (run 3 c))) !! 0
      = Some (mkMesh (randomId k) "Box"
                (Some (mkMetadata false None
                         (Some (mkSourceFile (Some "box") (Some "Box")
                                             "assets/box.babylon"))
                         (Some basePoseMatrix) None ∅))
                (mkVector3 1 2 3)%Z None (Some 0) true (Some 0) "mesh").
Proof.
  intros c.
  assert (Hdistinct : NoDup [0]) by (by apply (bool_decide_unpack _); vm_compute).
  assert (Hrun : rtc step c (run 3 c)) by apply run_steps.
  pose proof (configured_mesh_records_its_origin Example.props
                (mkImportResult [0] [] [0; 1] [0]) Example.drop false
                Example.emptyDisk (run 3 c) Hdistinct Hrun) as [Hin _].
  exact (Hin 0 (@mkMesh Example.values "box" "Box" None Example.origin None (Some 0)
                        true (Some 0) "mesh") (list_elem_of_here _ _) eq_refl).
Defined.

Lemma imported_mesh_geometry_gets_a_new_id_witness :
  let c := launch (configureImported Example.props (mkImportResult [0] [] [0; 1] [0])
                     Example.drop false) Example.emptyDisk in
  ∃ k, 0 ≤ k < randomIds (heap (world (run 3 c)))
       ∧ geometries (heap (world (run 3 c))) !! 0 = Some (mkGeometry (randomId k) "geo").
Proof.
  intros c.
  assert (Hrun : rtc step c (run 3 c)) by apply run_steps.
  pose proof (imported_mesh_geometry_gets_a_new_id Example.props
                (mkImportResult [0] [] [0; 1] [0]) Example.drop false
                Example.emptyDisk (run 3 c) Hrun) as [Hin _].
  exact (Hin 0 (@mkMesh Example.values "box" "Box" None Example.origin None (Some 0)
                        true (Some 0) "mesh") 0 (@mkGeometry Example.values "g" "geo")
             (list_elem_of_here _ _) eq_refl eq_refl eq_refl eq_refl).
Defined.

Lemma configuration_keeps_names_and_foreign_metadata_witness :
  let c := launch (configureImported Example.props (mkImportResult [0] [] [0; 1] [0])
                     Example.drop false) Example.emptyDisk in
  related owned Example.scene (heap (world (run 3 c))).
Proof.
  intros c.
  assert (Hrun : rtc step c (run 3 c)) by apply run_steps.
  exact (configuration_keeps_names_and_foreign_metadata Example.props _ _ _
           Example.emptyDisk (run 3 c) Hrun).
Defined.

Lemma configured_texture_url_follows_its_name_witness :
  ∃ tex',
    textures (start (_configureMaterialTextures Example.props 0 false)
                    Example.scene).1.1 !! 0 = Some tex'
    ∧ tex_url tex' = Some (tex_name tex')
    ∧ tex_name tex' = "assets/wood.png".
Proof.
  assert (Hdistinct : NoDup (texturesToConfigure 0 Example.scene).2)
    by (by apply (bool_decide_unpack _); vm_compute).
  destruct (configured_texture_url_follows_its_name Example.props 0 false
              Example.scene Hdistinct) as (_ & _ & Hin).
  destruct (Hin 0 (@mkTexture Example.values "wood.png" (Some "wood.png") None false
                              true None "tex")) as (tex' & Hlook & Hurl & Hname);
    [by left|reflexivity|].
  exists tex'. split; [exact Hlook|]. split; [exact Hurl|].
  exact (proj1 (Hname eq_refl)).
Defined.

Lemma createMaterialFile_records_the_editor_path_witness :
  materials (heap (exec (_createMaterialFile Example.props 0) Example.writtenDisk).1)
  = [mkMaterial (Some "wood") (Some "m1")
       (Some (mkMetadata false (Some "assets/wood-m1.material") None None None ∅))
       false [] [0] "standard"].
Proof.
  exact (proj1 (proj2 (createMaterialFile_records_the_editor_path Example.props 0
           Example.writtenDisk
           (@mkMaterial Example.values (Some "wood") (Some "m1")
              (Some (mkMetadata false (Some "assets/wood-m1.material") None None None ∅))
              false [] [0] "standard") eq_refl))).
Defined.

Lemma configureMaterial_spares_the_later_subMaterials_witness :
  materials (heap (exec (_configureMaterial Example.props 0 false)
                        Example.fountainOnDisk).1) !! 2
  = Some (mkMaterial (Some "basin") (Some "b") None false [] [] "standard").
Proof.
  apply (configureMaterial_spares_the_later_subMaterials Example.props 0 false
           Example.fountainOnDisk).
  - intros m [= <-]. discriminate.
  - discriminate.
  - intros m [= <-] _. discriminate.
Defined.


Lemma drop_keeps_the_files_on_disk_witness :
  let c := launch (onDropInPreview Example.props Example.drop) Example.emptyDisk in
  let path := "/project/assets/wood-m1.material" in
  disk (world (run 4 c)) !! path = disk Example.emptyDisk !! path
  ∨ (disk Example.emptyDisk !! path = None
     ∧ ∃ h material,
         disk (world (run 4 c)) !! path
         = Some (JsonFile (serialize h material) tab "utf-8")).
Proof.
  intros c path.
  assert (Hrun : rtc step c (run 4 c)) by apply run_steps.
  assert (Hglb : toLowerCase (extname (absolutePath Example.props)) ≠ ".glb")
    by discriminate.
  assert (Hgltf : toLowerCase (extname (absolutePath Example.props)) ≠ ".gltf")
    by discriminate.
  exact (drop_keeps_the_files_on_disk Example.props Example.drop Example.emptyDisk
           (run 4 c) Hglb Hgltf Hrun path).
Defined.

Lemma configureMaterial_writes_the_material_only_witness :
  let c := launch (_configureMaterial Example.props 0 false) Example.fountainOnDisk in
  let path := "/project/assets/stone-id0.material" in
  disk (world (run 6 c)) !! path = disk Example.fountainOnDisk !! path
  ∨ (disk Example.fountainOnDisk !! path = None
     ∧ ∃ h, disk (world (run 6 c)) !! path
            = Some (JsonFile (serialize h 0) tab "utf-8")).
Proof.
  intros c path.
  assert (Hrun : rtc step c (run 6 c)) by apply run_steps.
  exact (configureMaterial_writes_the_material_only Example.props 0
           Example.fountainOnDisk (run 6 c) Hrun path).
Defined.

Lemma texture_files_are_for_gltf_only_witness :
  let c := launch (onDropInPreview Example.props Example.drop) Example.emptyDisk in
  Forall (notForTextureFiles) (tasks (run 1 c)).
Proof.
  intros c.
  apply (texture_files_are_for_gltf_only Example.props Example.drop Example.emptyDisk
           (run 1 c)); [discriminate|discriminate|apply run_steps].
Defined.

(** The fountain of the example, its material configured: two files
    are written, both for the [MultiMaterial]; its first sub-material
    gets a new id, its second keeps the one it had. *)
Example fountain_material_files :
  let c := run 6 (launch (_configureMaterial Example.props 0 false)
                         Example.fountainOnDisk) in
  tasks c = []
  ∧ map_to_list (disk (world c))
    = [("/project/assets/stone-mm.material", JsonFile "stone#mm" tab "utf-8");
       ("/project/assets/stone-id0.material", JsonFile "stone#id0" tab "utf-8")]
  ∧ mat_id <$> materials (heap (world c)) = [Some "id0"; Some "id1"; Some "b"].
Proof. vm_compute. done. Qed.

End MeshFacts.

